(** * otom-ai: the per-user sliding-window rate limiter, the
    tool-augmented completion client, the web search client, the
    configuration and the handlers of the bot, embedded and verified.

    Sources embedded here:
    - [bot.RateLimiter] (NewRateLimiter, Allow), package bot;
    - [ai.Client] (Complete, call, APIError.Error, APIError.UserMessage,
      SearchToolDef), package ai;
    - [search.Client] (NewClient, Search, fallbackMessage), package search;
    - [config.Load], package config;
    - [bot.Bot] (New, onMessageCreate, handleAIResponse, handleAIError,
      fetchChannelHistory, isMentioned, stripBotMention, replyToMessage,
      truncate, truncateWords), package bot.

    Modelling conventions.
    - A [time.Time] taken from [time.Now] is the reading of the process's
      monotonic clock in nanoseconds, a [Z]; a [time.Duration] is a [Z]
      number of nanoseconds, an int64.  [t.Add d] is [t + d], [t.After u]
      is [u < t]; [t.Sub u] is [t - u] kept within the range of a duration,
      as [Sub] saturates; the negation [-d] of a duration wraps in 64 bits,
      so that the least duration is its own opposite.  (Where [Add] would
      leave the range of the monotonic reading, Go goes on with the wall
      clock reading of the same instant, taken here to advance as the
      monotonic clock does.)
    - [map[string][]time.Time] is a [gmap string (list Z)]; reading a key
      that is absent gives the nil slice, the empty list.
    - A Go function returning [(v, error)] with either [(nil, err)] or
      [(v, nil)] at every return is a function into [error + V]. *)

From Stdlib Require Import Ascii QArith.
From Stdlib Require DecimalString.
From stdpp Require Import base numbers list strings gmap sorting relations.

Open Scope Z_scope.

(** ** The rate limiter (package bot) *)

Module Limiter.

(** [type RateLimiter struct { mu; limit; window; requests }].  The mutex is
    part of the concurrent model further down; the sequential embedding
    describes one call executed inside the critical section. *)
Record RateLimiter := mkRateLimiter {
  limit : Z;
  window : Z;
  requests : gmap string (list Z)
}.

Definition NewRateLimiter (limit window : Z) : RateLimiter :=
  {| limit := limit; window := window; requests := ∅ |}.

(** [ts.After(cutoff)] *)
Definition After (t u : Z) : bool := u <? t.

(** The least and the greatest [time.Duration]. *)
Definition minDuration : Z := - 2 ^ 63.
Definition maxDuration : Z := 2 ^ 63 - 1.

(** [-d] for a duration [d]: the negation of the least int64 wraps to
    itself. *)
Definition neg (d : Z) : Z := if d =? minDuration then minDuration else - d.

(** [t.Sub(u)]: the difference [t - u], or the least or the greatest
    duration when the difference is beyond them. *)
Definition Sub (t u : Z) : Z := Z.max minDuration (Z.min maxDuration (t - u)).

(** The cleaning loop:
    [valid := timestamps[:0]; for _, ts := range timestamps
       { if ts.After(cutoff) { valid = append(valid, ts) } }].
    The write index of the in-place filter never passes the read index, so
    the loop reads every original element. *)
Definition prune (cutoff : Z) (timestamps : list Z) : list Z :=
  fold_left (fun valid ts => if After ts cutoff then valid ++ [ts] else valid)
            timestamps [].

(** What a call of [Allow] produces: a pair of results, or a run-time panic
    (indexing [valid[0]] on an empty slice). *)
Inductive outcome :=
| Returned (allowed : bool) (retryAfter : Z)
| Panicked.

Definition set_requests (rl : RateLimiter) (userID : string) (l : list Z)
  : RateLimiter :=
  {| limit := limit rl; window := window rl;
     requests := <[userID := l]> (requests rl) |}.

(** The body of [Allow] after [now := time.Now()] and
    [timestamps := rl.requests[userID]] have been read.  The result is the
    outcome and, when the map is written, the slice stored under [userID]. *)
Definition check (lim win now : Z) (timestamps : list Z)
  : outcome * option (list Z) :=
  let cutoff := now + neg win in
  let valid := prune cutoff timestamps in
  if lim <=? Z.of_nat (length valid) then
    match valid with
    | [] => (Panicked, None)
    | v0 :: _ => (Returned false (Sub (v0 + win) now), Some valid)
    end
  else (Returned true 0, Some (valid ++ [now])).

Definition store (rl : RateLimiter) (userID : string) (w : option (list Z))
  : RateLimiter :=
  match w with
  | Some l => set_requests rl userID l
  | None => rl
  end.

(** [func (rl *RateLimiter) Allow(userID string) (bool, time.Duration)],
    with the clock reading [now] made explicit. *)
Definition Allow (rl : RateLimiter) (now : Z) (userID : string)
  : outcome * RateLimiter :=
  let timestamps := requests rl !!! userID in
  let r := check (limit rl) (window rl) now timestamps in
  (r.1, store rl userID r.2).

(** States of a limiter: built by [NewRateLimiter], then changed only by
    calls of [Allow] whose clock readings never go back.  The second index
    is a lower bound of every later clock reading. *)
Inductive reachable : RateLimiter -> Z -> Prop :=
| reach_new lim win t : reachable (NewRateLimiter lim win) t
| reach_allow rl t now userID :
    reachable rl t -> t <= now -> reachable (Allow rl now userID).2 now.

(** The specification of [Allow], in the words of the design document. *)
Definition remaining (rl : RateLimiter) (now : Z) (key : string) : list Z :=
  filter (fun ts => ¬ ts <= now - window rl) (requests rl !!! key).

Definition is_oldest (o : Z) (l : list Z) : Prop :=
  o ∈ l ∧ Forall (Z.le o) l.

Definition Allow_as_specified (rl : RateLimiter) (now : Z) (key : string)
    (res : outcome * RateLimiter) : Prop :=
  let rem := remaining rl now key in
  if decide (Z.of_nat (length rem) < limit rl) then
    res = (Returned true 0, set_requests rl key (rem ++ [now]))
  else
    ∃ oldest, is_oldest oldest rem ∧
      res = (Returned false (oldest + window rl - now), set_requests rl key rem).

(** The invariant of the stored sequences: sorted, and not later than the
    last clock reading. *)
Definition sequences_ok (rl : RateLimiter) (t : Z) : Prop :=
  ∀ key, StronglySorted Z.le (requests rl !!! key)
         ∧ Forall (fun ts => ts <= t) (requests rl !!! key).

End Limiter.

(** ** Goroutines calling [Allow] concurrently *)

(** [Allow] starts with [rl.mu.Lock()] and [defer rl.mu.Unlock()].  The
    model below runs any number of goroutines, each executing one call of
    [Allow] for the same key, interleaved at the level of the statements
    that touch shared state: taking the mutex, reading the clock, reading
    the map, the loop with the comparison and the write of the map, and the
    deferred unlock at return. *)
Module Concurrent.
Import Limiter.

(** Where a goroutine stands in [Allow]. *)
Inductive goroutine :=
| AtLock                                   (* before rl.mu.Lock() *)
| AtNow                                    (* before now := time.Now() *)
| AtLoad (now : Z)                         (* before timestamps := rl.requests[userID] *)
| AtCheck (now : Z) (timestamps : list Z)  (* before the loop, the test and the store *)
| AtUnlock (o : outcome)                   (* results fixed, deferred Unlock pending *)
| Done (o : outcome).

Record config := mkConfig {
  clock : Z;                 (* the monotonic clock *)
  locked : bool;             (* rl.mu *)
  shared : RateLimiter;      (* the fields of *rl *)
  pool : list goroutine
}.

Section Steps.
Variable userID : string.

(** One statement of one goroutine, at clock reading [clk], on the mutex
    and the limiter. *)
Inductive gstep (clk : Z) :
  bool -> RateLimiter -> goroutine -> bool -> RateLimiter -> goroutine -> Prop :=
| g_lock rl :
    gstep clk false rl AtLock true rl AtNow
| g_now mu rl :
    gstep clk mu rl AtNow mu rl (AtLoad clk)
| g_load mu rl now :
    gstep clk mu rl (AtLoad now) mu rl (AtCheck now (requests rl !!! userID))
| g_check mu rl now timestamps :
    gstep clk mu rl (AtCheck now timestamps)
          mu (store rl userID (check (limit rl) (window rl) now timestamps).2)
          (AtUnlock (check (limit rl) (window rl) now timestamps).1)
| g_unlock rl o :
    gstep clk true rl (AtUnlock o) false rl (Done o).

(** The scheduler picks a goroutine, or time passes. *)
Inductive step : config -> config -> Prop :=
| step_tick c d :
    0 <= d ->
    step c (mkConfig (clock c + d) (locked c) (shared c) (pool c))
| step_go c (i : nat) g mu' rl' g' :
    pool c !! i = Some g ->
    gstep (clock c) (locked c) (shared c) g mu' rl' g' ->
    step c (mkConfig (clock c) mu' rl' (<[i := g']> (pool c))).

(** The same steps as a function of the scheduler's choices, to run
    schedules. *)
Inductive action :=
| Tick (d : Z)
| Go (i : nat).

Definition gexec (clk : Z) (mu : bool) (rl : RateLimiter) (g : goroutine)
  : option (bool * RateLimiter * goroutine) :=
  match g with
  | AtLock => if mu then None else Some (true, rl, AtNow)
  | AtNow => Some (mu, rl, AtLoad clk)
  | AtLoad now => Some (mu, rl, AtCheck now (requests rl !!! userID))
  | AtCheck now timestamps =>
      let r := check (limit rl) (window rl) now timestamps in
      Some (mu, store rl userID r.2, AtUnlock r.1)
  | AtUnlock o => if mu then Some (false, rl, Done o) else None
  | Done _ => None
  end.

Definition exec (a : action) (c : config) : option config :=
  match a with
  | Tick d =>
      if 0 <=? d then Some (mkConfig (clock c + d) (locked c) (shared c) (pool c))
      else None
  | Go i =>
      match pool c !! i with
      | Some g =>
          match gexec (clock c) (locked c) (shared c) g with
          | Some (mu', rl', g') =>
              Some (mkConfig (clock c) mu' rl' (<[i := g']> (pool c)))
          | None => None
          end
      | None => None
      end
  end.

Fixpoint run (s : list action) (c : config) : option config :=
  match s with
  | [] => Some c
  | a :: s =>
      match exec a c with
      | Some c' => run s c'
      | None => None
      end
  end.

(** The clock readings that the calls make along a schedule: the value
    [time.Now()] returns to each goroutine that executes it. *)
Definition reading (a : action) (c : config) : list Z :=
  match a with
  | Go i =>
      match pool c !! i with
      | Some AtNow => [clock c]
      | _ => []
      end
  | Tick _ => []
  end.

Fixpoint readings (s : list action) (c : config) : list Z :=
  match s with
  | [] => []
  | a :: s =>
      match exec a c with
      | Some c' => reading a c ++ readings s c'
      | None => []
      end
  end.

End Steps.

(** [n] goroutines about to call [Allow] on a fresh limiter. *)
Definition start (lim win : Z) (n : nat) (t0 : Z) : config :=
  mkConfig t0 false (NewRateLimiter lim win) (replicate n AtLock).

Definition finished (c : config) : Prop :=
  Forall (fun g => ∃ o, g = Done o) (pool c).

Fixpoint count (p : goroutine -> bool) (l : list goroutine) : nat :=
  match l with
  | [] => 0%nat
  | g :: l => ((if p g then 1 else 0) + count p l)%nat
  end.

Definition got_true (g : goroutine) : bool :=
  match g with Done (Returned true _) => true | _ => false end.

Definition got_false (g : goroutine) : bool :=
  match g with Done (Returned false _) => true | _ => false end.

(** What the design document says of [n] concurrent calls:
    whatever the schedule, exactly [lim] calls return true and the others
    return false. *)
Definition admits_exactly (userID : string) (lim win : Z) (n : nat) : Prop :=
  ∀ t0 c, rtc (step userID) (start lim win n t0) c -> finished c ->
    Z.of_nat (count got_true (pool c)) = lim
    ∧ Z.of_nat (count got_false (pool c)) = Z.of_nat n - lim.

(** *** The invariant of a run, for the proofs *)

Definition in_cs (g : goroutine) : bool :=
  match g with
  | AtNow | AtLoad _ | AtCheck _ _ | AtUnlock _ => true
  | AtLock | Done _ => false
  end.

Definition decided (g : goroutine) : option outcome :=
  match g with
  | AtUnlock o | Done o => Some o
  | _ => None
  end.

Definition adm (g : goroutine) : bool :=
  match decided g with Some (Returned true _) => true | _ => false end.

Definition den (g : goroutine) : bool :=
  match decided g with Some (Returned false _) => true | _ => false end.

Definition pan (g : goroutine) : bool :=
  match decided g with Some Panicked => true | _ => false end.

Definition local_ok (userID : string) (t0 : Z) (c : config) (g : goroutine)
  : Prop :=
  match g with
  | AtLoad now => t0 <= now <= clock c
  | AtCheck now ts =>
      t0 <= now <= clock c ∧ ts = requests (shared c) !!! userID
  | _ => True
  end.

(** The clock reading a goroutine holds was made less than [W] after
    [t0]. *)
Definition early (W t0 : Z) (g : goroutine) : Prop :=
  match g with
  | AtLoad now | AtCheck now _ => now - t0 < W
  | _ => True
  end.

Record inv (userID : string) (L W t0 : Z) (N : nat) (c : config) : Prop := mkInv {
  inv_lim : limit (shared c) = L;
  inv_win : window (shared c) = W;
  inv_clk : t0 <= clock c;
  inv_len : length (pool c) = N;
  inv_rng : Forall (fun ts => t0 <= ts) (requests (shared c) !!! userID);
  inv_adm : length (requests (shared c) !!! userID) = count adm (pool c);
  inv_cap : Z.of_nat (length (requests (shared c) !!! userID)) <= L;
  inv_den : count den (pool c) = 0%nat
            ∨ Z.of_nat (length (requests (shared c) !!! userID)) = L;
  inv_pan : count pan (pool c) = 0%nat;
  inv_mut : count in_cs (pool c) = Nat.b2n (locked c);
  inv_loc : ∀ (i : nat) g, pool c !! i = Some g -> local_ok userID t0 c g
}.

(** Three goroutines one after the other, the clock moving by 7 after the
    first. *)
Definition schedule_all : list action :=
  [Go 0; Go 0; Go 0; Go 0; Go 0; Tick 7;
   Go 2; Go 2; Go 2; Go 2; Go 2; Go 1; Go 1; Go 1; Go 1; Go 1]%nat.

(** A schedule that lets the clock move by the window between two calls. *)
Definition schedule_late : list action :=
  [Go 0; Go 0; Go 0; Go 0; Go 0; Tick 1000;
   Go 1; Go 1; Go 1; Go 1; Go 1]%nat.

(** The second goroutine reads the clock at once, then is held back for
    the length of the window before it goes on. *)
Definition schedule_held : list action :=
  [Go 0; Go 0; Go 0; Go 0; Go 0; Go 1; Go 1; Tick 60; Go 1; Go 1; Go 1]%nat.

End Concurrent.

(** ** The completion client (package ai) *)

Module Client.

Definition LF : string := String (Ascii.ascii_of_nat 10) "".

(** *** Request and response types (OpenAI format) *)

Module FunctionCall.
Record t := mk { Name : string; Arguments : string }.
End FunctionCall.

Module ToolCall.
Record t := mk { ID : string; Type_ : string; Function_ : FunctionCall.t }.
End ToolCall.

Module Message.
Record t := mk {
  Role : string;
  Content : string;
  ToolCalls : list ToolCall.t;
  ToolCallID : string
}.
End Message.

Module FunctionSchema.
Record t := mk {
  Name : string;
  Description : string;
  Strict : bool;
  Parameters : string       (* json.RawMessage *)
}.
End FunctionSchema.

Module ToolDef.
Record t := mk { Type_ : string; Function_ : FunctionSchema.t }.
End ToolDef.

Module chatRequest.
Record t := mk {
  Model : string;
  Messages : list Message.t;
  Tools : list ToolDef.t;   (* nil is the empty list *)
  Temperature : Q
}.
End chatRequest.

Module chatResponse.
Record t := mk {
  Choices : list Message.t;           (* []struct{ Message Message } *)
  Error : option (string * string)    (* *struct{ Message, Code string } *)
}.
End chatResponse.

Module SearchArgs.
Record t := mk { Query : string }.
End SearchArgs.

(** *** Errors *)

Module APIError.
Record t := mk { StatusCode : Z; Body : string }.
End APIError.

(** The values of Go's [error] interface that the client handles. *)
Inductive error :=
| ErrAPI (e : APIError.t)                          (* *APIError *)
| Errorf (text : string)                           (* fmt.Errorf(text) *)
| Errorf_w (prefix : string) (err : error)         (* fmt.Errorf(prefix + "%w", err) *)
| ErrLib (text : string).                          (* made by a library or the executor *)

(** [func (e *APIError) UserMessage() string] *)
Definition UserMessage (e : APIError.t) : string :=
  match APIError.StatusCode e with
  | 400 => "💨 Un simple courant d'air ? Le grand silence de la Shukrute ?" +:+ LF +:+ "Ton message est complètement vide ! Envoie-moi quelques mots, je ne maîtrise pas encore la télépathie. (Erreur 400)"
  | 401 => "❌🛡️❌ Oulah ça sent le porkass grillé, la milice m'a refoulé l'accès !" +:+ LF +:+ " Mon créateur doit corriger mes accès pour que je puisse te répondre. (Erreur 401)"
  | 402 => "❌🪙❌ Par la sainte barbe du Dieu Enutrof, on dirait bien que ma bourse sonne creux !" +:+ LF +:+ " Mon créateur doit ré-injecter des Kamas pour que je puisse continuer à t'aider. (Erreur 402)"
  | 422 => "❌⚙️❌ Oups... Le cadran de mon Xélor interne s'est emmêlé les aiguilles, ou alors l'alchimie est mauvaise. Ma configuration actuelle m'empêche de te répondre correctement." +:+ LF +:+ " Mon créateur doit revoir la configuration de mon modèle ou de mes outils. (Erreur 422)"
  | 429 => "❌⚡❌ Oula, tes Tofus messagers sont sur les rotules ! Tu spam comme un fou. Laisse-leur le temps de picorer quelques graines et ré-essaye dans un instant. (Erreur 429)"
  | 500 => "❌💥❌ Aïe... Une de mes tourelles Steamer vient de surchauffer en coulisses. C'est de ma faute ! Mes technomages sont sur le coup pour réparer les rouages, reviens me voir dans un petit instant. (Erreur 500)"
  | 503 => "❌⏳❌ Embouteillage monstre au Zaap d'Astrub ! Il y a beaucoup trop de monde qui me parle en même temps et mes circuits débordent. Prends une petite limonade et ré-essaye dans quelques minutes. (Erreur 503)"
  | _ => "❌ Oups, on dirait que Dieu Xélor fait encore des siennes, mes signaux sont perturbés ! Ré-essaye dans quelques instants. (Erreur inconnue)"
  end.

(** *** The client and what it talks to *)

Record Client := mkClient {
  apiKey : string;
  baseURL : string;
  model : string
}.

(** An HTTP request as [call] builds it. *)
Record httpRequest := mkHttpRequest {
  Method : string;
  URL : string;
  Header : list (string * string);
  reqBody : string
}.

(** What [c.httpClient.Do(req)] followed by [io.ReadAll(resp.Body)] gives. *)
Inductive httpResult :=
| DoFails (e : error)
| ReadFails (StatusCode : Z) (e : error)
| Response (StatusCode : Z) (respBody : string).

(** The library functions and the remote service used by [call] and
    [Complete].  [http_Do n req] is the answer to [req] when [n] requests
    were sent before it. *)
Record Env := mkEnv {
  json_Marshal : chatRequest.t -> error + string;
  http_NewRequest : string -> string -> string -> option error;
  http_Do : nat -> httpRequest -> httpResult;
  json_Unmarshal_chatResponse : string -> error + chatResponse.t;
  json_Unmarshal_SearchArgs : string -> error + SearchArgs.t
}.

(** What a run leaves behind: the calls of [c.call] with their arguments,
    the HTTP requests sent, and the queries given to the tool executor. *)
Record world := mkWorld {
  calls : list (list Message.t * list ToolDef.t);
  sent : list httpRequest;
  searches : list string
}.

Definition world0 : world := mkWorld [] [] [].

(** Computations that log into the world and may stop with an error. *)
Definition M (A : Type) : Type := world -> (error + A) * world.

Definition ret {A} (a : A) : M A := fun w => (inr a, w).
Definition fail {A} (e : error) : M A := fun w => (inl e, w).
Definition bind {A B} (m : M A) (k : A -> M B) : M B :=
  fun w => match m w with
           | (inr a, w') => k a w'
           | (inl e, w') => (inl e, w')
           end.

Notation "'do' x <- m ; k" := (bind m (fun x => k))
  (at level 10, x pattern, m at level 100, k at level 200).

Definition log_call (messages : list Message.t) (tools : list ToolDef.t) : M unit :=
  fun w => (inr tt, mkWorld (calls w ++ [(messages, tools)]) (sent w) (searches w)).

Definition send (env : Env) (req : httpRequest) : M httpResult :=
  fun w => (inr (http_Do env (length (sent w)) req),
            mkWorld (calls w) (sent w ++ [req]) (searches w)).

(** Calling the executor [searchFn(ctx, query)]. *)
Definition search (searchFn : string -> string * option error) (query : string)
  : M (string * option error) :=
  fun w => (inr (searchFn query),
            mkWorld (calls w) (sent w) (searches w ++ [query])).

Definition lift {A} (wrap : error -> error) (r : error + A) : M A :=
  match r with
  | inl e => fail (wrap e)
  | inr a => ret a
  end.

Module CompletionResult.
Record t := mk {
  Reply : string;
  WebSearchUsed : bool;
  WebSearchError : option error;
  WebSearchQuery : string
}.
End CompletionResult.

Section Code.
Variable env : Env.

(** [func (c *Client) call(ctx, messages, tools)], returning a
    [chatResponse] or an error. *)
Definition call (c : Client) (messages : list Message.t) (tools : list ToolDef.t)
  : M chatResponse.t :=
  do _ <- log_call messages tools;
  let reqBody := chatRequest.mk (model c) messages tools (2 # 10)%Q in
  do body <- lift (fun err => Errorf_w "erreur de sérialisation: " err)
                  (json_Marshal env reqBody);
  match http_NewRequest env "POST" (baseURL c) body with
  | Some err => fail (Errorf_w "erreur de création de requête: " err)
  | None =>
      let req := mkHttpRequest "POST" (baseURL c)
                   [("Content-Type", "application/json");
                    ("Authorization", "Bearer " +:+ apiKey c)] body in
      do resp <- send env req;
      match resp with
      | DoFails err => fail (Errorf_w "erreur réseau: " err)
      | ReadFails _ err => fail (Errorf_w "erreur de lecture: " err)
      | Response StatusCode respBody =>
          if negb (StatusCode =? 200) then
            fail (ErrAPI (APIError.mk StatusCode respBody))
          else
            lift (fun err => Errorf_w "erreur de décodage: " err)
                 (json_Unmarshal_chatResponse env respBody)
      end
  end.

(** [func (c *Client) Complete(ctx, messages, tools, searchFn)], returning a
    [CompletionResult] or an error.  [searchFn] may be nil.  The fields of
    [result] are assigned along the way in the source; every path that
    returns it is written here with the values the fields have then. *)
Definition Complete (c : Client) (messages : list Message.t)
    (tools : list ToolDef.t)
    (searchFn : option (string -> string * option error))
  : M CompletionResult.t :=
  (* --- Premier appel --- *)
  do resp <- call c messages tools;
  match chatResponse.Choices resp with
  | [] => fail (Errorf "réponse vide du LLM")
  | msg :: _ =>
      (* --- Détection du tool calling --- *)
      match Message.ToolCalls msg, searchFn with
      | tc :: _, Some searchFn =>
          if (FunctionCall.Name (ToolCall.Function_ tc) =? "search_internet")%string
          then
            match json_Unmarshal_SearchArgs env
                    (FunctionCall.Arguments (ToolCall.Function_ tc)) with
            | inl err => fail (Errorf_w "arguments outil invalides: " err)
            | inr args =>
                (* Exécution de la recherche *)
                do sr <- search searchFn (SearchArgs.Query args);
                let '(searchResult, searchErr) := sr in
                let messages := messages ++
                  [Message.mk "assistant" "" (Message.ToolCalls msg) "";
                   Message.mk "tool" searchResult [] (ToolCall.ID tc)] in
                (* --- Second appel (sans outils) --- *)
                do resp <- call c messages [];
                match chatResponse.Choices resp with
                | [] => fail (Errorf "réponse vide du LLM (second appel)")
                | msg :: _ =>
                    ret (CompletionResult.mk (Message.Content msg) true
                           searchErr (SearchArgs.Query args))
                end
            end
          else ret (CompletionResult.mk (Message.Content msg) false None "")
      | _, _ => ret (CompletionResult.mk (Message.Content msg) false None "")
      end
  end.

End Code.

(** [func SearchToolDef() ToolDef].  [q s] is [s] between double quotes. *)
Definition q (s : string) : string :=
  String (Ascii.ascii_of_nat 34) s +:+ String (Ascii.ascii_of_nat 34) "".

Definition SearchToolDef : ToolDef.t :=
  ToolDef.mk "function"
    (FunctionSchema.mk "search_internet"
       "Recherche des informations récentes sur internet. Utilise cet outil quand tu as besoin d'informations actualisées, de news, ou de données que tu ne possèdes pas."
       true
       ("{" +:+ LF +:+
        "		" +:+ q "type" +:+ ": " +:+ q "object" +:+ "," +:+ LF +:+
        "		" +:+ q "properties" +:+ ": {" +:+ LF +:+
        "			" +:+ q "query" +:+ ": {" +:+ LF +:+
        "				" +:+ q "type" +:+ ": " +:+ q "string" +:+ "," +:+ LF +:+
        "				" +:+ q "description" +:+ ": " +:+ q "La requête de recherche web à effectuer pour trouver des informations récentes sur Dofus 3 Unity ou tout autre sujet." +:+ LF +:+
        "			}" +:+ LF +:+
        "		}," +:+ LF +:+
        "		" +:+ q "required" +:+ ": [" +:+ q "query" +:+ "]," +:+ LF +:+
        "		" +:+ q "additionalProperties" +:+ ": false" +:+ LF +:+
        "	}")).

(** *** Notions used to state the properties *)

Definition assistant_turn (msg : Message.t) : Message.t :=
  Message.mk "assistant" "" (Message.ToolCalls msg) "".

Definition tool_turn (tc : ToolCall.t) (text : string) : Message.t :=
  Message.mk "tool" text [] (ToolCall.ID tc).

Definition searched (w : world) (query : string) : world :=
  mkWorld (calls w) (sent w) (searches w ++ [query]).

(** The queries [Complete] gives to the executor, read off the answer to
    the first call: the first proposed tool call decides, the others are
    not looked at. *)
Definition honoured (env : Env) (first : error + chatResponse.t)
    (searchFn : option (string -> string * option error)) : list string :=
  match first with
  | inr resp =>
      match chatResponse.Choices resp with
      | msg :: _ =>
          match head (Message.ToolCalls msg), searchFn with
          | Some tc, Some _ =>
              if (FunctionCall.Name (ToolCall.Function_ tc) =? "search_internet")%string
              then
                match json_Unmarshal_SearchArgs env
                        (FunctionCall.Arguments (ToolCall.Function_ tc)) with
                | inr args => [SearchArgs.Query args]
                | inl _ => []
                end
              else []
          | _, _ => []
          end
      | [] => []
      end
  | inl _ => []
  end.

(** What the second phase makes of the answer to the second call. *)
Definition second_phase (serr : option error) (query : string)
    (r : error + chatResponse.t) : error + CompletionResult.t :=
  match r with
  | inl e => inl e
  | inr resp =>
      match chatResponse.Choices resp with
      | [] => inl (Errorf "réponse vide du LLM (second appel)")
      | m :: _ => inr (CompletionResult.mk (Message.Content m) true serr query)
      end
  end.

Definition known_codes : list Z := [400; 401; 402; 422; 429; 500; 503].

Definition unknown_message : string :=
  "❌ Oups, on dirait que Dieu Xélor fait encore des siennes, mes signaux sont perturbés ! Ré-essaye dans quelques instants. (Erreur inconnue)".

Definition message_of (code : Z) : string := UserMessage (APIError.mk code "").

End Client.

(** ** [encoding/json]: decoding the tool arguments *)

(** [Complete] calls [json.Unmarshal([]byte(tc.Function.Arguments), &args)]
    with [args] a [SearchArgs], a struct with the single field
    [Query string `json:"query"`].  This module models that library call:
    the scanner that validates the whole text first, the unquoting of
    strings, and the rules for storing into a struct with one string
    field.  The text of the library's error values is not modelled. *)
Module Json.
Import Client.

Local Open Scope N_scope.

Definition byte_of (c : ascii) : N := N_of_ascii c.
Definition same (c : ascii) (x : ascii) : bool := Ascii.eqb c x.
Local Notation "c == x" := (same c x%char) (at level 70).
Definition isQuote (c : ascii) : bool := byte_of c =? 34.
Definition isBackslash (c : ascii) : bool := byte_of c =? 92.

Definition isSpace (c : ascii) : bool :=
  (c == " ") || (byte_of c =? 9) || (byte_of c =? 13) || (byte_of c =? 10).
Definition isDigit (c : ascii) : bool := (48 <=? byte_of c) && (byte_of c <=? 57).
Definition isDigit19 (c : ascii) : bool := (49 <=? byte_of c) && (byte_of c <=? 57).
Definition isHex (c : ascii) : bool :=
  isDigit c || ((97 <=? byte_of c) && (byte_of c <=? 102))
            || ((65 <=? byte_of c) && (byte_of c <=? 70)).

(** JSON values; a string keeps the bytes between its quotes. *)
Inductive value :=
| Null
| Bool (b : bool)
| Number (literal : list ascii)
| Str (raw : list ascii)
| Arr (items : list value)
| Obj (members : list (list ascii * value)).

(** *** The scanner *)

Inductive numst := Neg | Zero | Int | Dot | Frac | Exp | ExpSign | ExpInt.
Inductive strst := Plain | Esc | Hex (left : nat).

Inductive lex :=
| LValue                       (* a value must begin *)
| LValueOrEnd                  (* after '[' *)
| LKeyOrEnd                    (* after '{' *)
| LKey                         (* after ',' in an object *)
| LColon                       (* after a key *)
| LEnd                         (* after a value *)
| LString (key : bool) (st : strst) (acc : list ascii)
| LNumber (st : numst) (acc : list ascii)
| LLiteral (rest : list ascii) (v : value).

Inductive frame :=
| InArr (items : list value)
| InObj (members : list (list ascii * value)) (key : option (list ascii)).

Record scanner := mkScanner {
  at_ : lex;
  stack : list frame;
  top : option value
}.

Definition maxNestingDepth : N := 10000.

(** A value is complete: it goes into the enclosing array or object, or is
    the top-level value. *)
Definition finish (v : value) (st : list frame) : option scanner :=
  match st with
  | [] => Some (mkScanner LEnd [] (Some v))
  | InArr items :: st => Some (mkScanner LEnd (InArr (v :: items) :: st) None)
  | InObj members (Some k) :: st =>
      Some (mkScanner LEnd (InObj ((k, v) :: members) None :: st) None)
  | InObj _ None :: _ => None
  end.

Definition push (f : frame) (l : lex) (st : list frame) : option scanner :=
  if N.of_nat (length st) <? maxNestingDepth then Some (mkScanner l (f :: st) None)
  else None.

Definition beginValue (c : ascii) (st : list frame) : option scanner :=
  if c == "{" then push (InObj [] None) LKeyOrEnd st
  else if c == "[" then push (InArr []) LValueOrEnd st
  else if isQuote c then Some (mkScanner (LString false Plain []) st None)
  else if c == "-" then Some (mkScanner (LNumber Neg [c]) st None)
  else if c == "0" then Some (mkScanner (LNumber Zero [c]) st None)
  else if isDigit19 c then Some (mkScanner (LNumber Int [c]) st None)
  else if c == "t" then
    Some (mkScanner (LLiteral (String.list_ascii_of_string "rue") (Bool true)) st None)
  else if c == "f" then
    Some (mkScanner (LLiteral (String.list_ascii_of_string "alse") (Bool false)) st None)
  else if c == "n" then
    Some (mkScanner (LLiteral (String.list_ascii_of_string "ull") Null) st None)
  else None.

Definition beginKey (c : ascii) (st : list frame) : option scanner :=
  if isQuote c then Some (mkScanner (LString true Plain []) st None) else None.

Definition endValue (c : ascii) (s : scanner) : option scanner :=
  if isSpace c then Some s
  else
    match stack s with
    | [] => None                      (* after the top-level value *)
    | InArr items :: st =>
        if c == "," then Some (mkScanner LValue (stack s) None)
        else if c == "]" then finish (Arr (rev items)) st
        else None
    | InObj members None :: st =>
        if c == "," then Some (mkScanner LKey (stack s) None)
        else if c == "}" then finish (Obj (rev members)) st
        else None
    | InObj _ (Some _) :: _ => None
    end.

Definition endString (key : bool) (acc : list ascii) (st : list frame)
  : option scanner :=
  if key then
    match st with
    | InObj members None :: st' =>
        Some (mkScanner LColon (InObj members (Some (rev acc)) :: st') None)
    | _ => None
    end
  else finish (Str (rev acc)) st.

Definition stepString (key : bool) (ss : strst) (acc : list ascii) (c : ascii)
    (st : list frame) : option scanner :=
  match ss with
  | Plain =>
      if isQuote c then endString key acc st
      else if isBackslash c then Some (mkScanner (LString key Esc (c :: acc)) st None)
      else if byte_of c <? 32 then None
      else Some (mkScanner (LString key Plain (c :: acc)) st None)
  | Esc =>
      if (c == "b") || (c == "f") || (c == "n") || (c == "r") || (c == "t")
         || isBackslash c || (c == "/") || isQuote c
      then Some (mkScanner (LString key Plain (c :: acc)) st None)
      else if c == "u" then Some (mkScanner (LString key (Hex 4) (c :: acc)) st None)
      else None
  | Hex n =>
      if isHex c then
        Some (mkScanner (LString key (match n with
                                      | 0%nat | 1%nat => Plain
                                      | S m => Hex m
                                      end) (c :: acc)) st None)
      else None
  end.

(** [None]: the number goes on with [c]; the number ends before [c] when
    the result is [Some true], and [c] is an error when it is [Some false]. *)
Definition stepNumber (ns : numst) (c : ascii) : numst + bool :=
  let isE := (c == "e") || (c == "E") in
  match ns with
  | Neg => if c == "0" then inl Zero else if isDigit19 c then inl Int else inr false
  | Zero => if c == "." then inl Dot else if isE then inl Exp else inr true
  | Int => if isDigit c then inl Int
           else if c == "." then inl Dot else if isE then inl Exp else inr true
  | Dot => if isDigit c then inl Frac else inr false
  | Frac => if isDigit c then inl Frac else if isE then inl Exp else inr true
  | Exp => if (c == "+") || (c == "-") then inl ExpSign
           else if isDigit c then inl ExpInt else inr false
  | ExpSign => if isDigit c then inl ExpInt else inr false
  | ExpInt => if isDigit c then inl ExpInt else inr true
  end.

(** One byte. *)
Definition step (s : scanner) (c : ascii) : option scanner :=
  match at_ s with
  | LValue => if isSpace c then Some s else beginValue c (stack s)
  | LValueOrEnd =>
      if isSpace c then Some s
      else if c == "]" then
        match stack s with
        | InArr items :: st => finish (Arr (rev items)) st
        | _ => None
        end
      else beginValue c (stack s)
  | LKeyOrEnd =>
      if isSpace c then Some s
      else if c == "}" then
        match stack s with
        | InObj members None :: st => finish (Obj (rev members)) st
        | _ => None
        end
      else beginKey c (stack s)
  | LKey => if isSpace c then Some s else beginKey c (stack s)
  | LColon =>
      if isSpace c then Some s
      else if c == ":" then Some (mkScanner LValue (stack s) None)
      else None
  | LEnd => endValue c s
  | LString key ss acc => stepString key ss acc c (stack s)
  | LNumber ns acc =>
      match stepNumber ns c with
      | inl ns' => Some (mkScanner (LNumber ns' (c :: acc)) (stack s) None)
      | inr true =>
          match finish (Number (rev acc)) (stack s) with
          | Some s' => endValue c s'
          | None => None
          end
      | inr false => None
      end
  | LLiteral rest v =>
      match rest with
      | x :: rest' =>
          if same c x then
            match rest' with
            | [] => finish v (stack s)
            | _ => Some (mkScanner (LLiteral rest' v) (stack s) None)
            end
          else None
      | [] => None
      end
  end.

Fixpoint scan (s : scanner) (data : list ascii) : option scanner :=
  match data with
  | [] => Some s
  | c :: data =>
      match step s c with
      | Some s' => scan s' data
      | None => None
      end
  end.

(** The whole text: every byte, then a space at the end of the input; the
    top-level value must be complete then. *)
Definition parse (data : string) : option value :=
  match scan (mkScanner LValue [] None) (String.list_ascii_of_string data) with
  | Some s =>
      match top s with
      | Some v => Some v
      | None =>
          match step s " "%char with
          | Some s' => top s'
          | None => None
          end
      end
  | None => None
  end.

(** *** Unquoting *)

Definition hexval (c : ascii) : N :=
  let b := byte_of c in
  if isDigit c then b - 48
  else if (97 <=? b) && (b <=? 102) then b - 87
  else b - 55.

Definition hex4 (a b c d : ascii) : N :=
  ((hexval a * 16 + hexval b) * 16 + hexval c) * 16 + hexval d.

Definition chr (n : N) : ascii := ascii_of_N n.

(** [utf8.EncodeRune] *)
Definition encodeRune (r : N) : list ascii :=
  if r <? 128 then [chr r]
  else if r <? 2048 then [chr (192 + r / 64); chr (128 + r mod 64)]
  else if ((55296 <=? r) && (r <? 57344)) || (1114111 <? r) then
    [chr 239; chr 191; chr 189]                      (* U+FFFD *)
  else if r <? 65536 then
    [chr (224 + r / 4096); chr (128 + (r / 64) mod 64); chr (128 + r mod 64)]
  else
    [chr (240 + r / 262144); chr (128 + (r / 4096) mod 64);
     chr (128 + (r / 64) mod 64); chr (128 + r mod 64)].

Definition replacement : list ascii := [chr 239; chr 191; chr 189].

Definition isSurrogate (r : N) : bool := (55296 <=? r) && (r <? 57344).

(** [utf16.DecodeRune], [None] for the replacement character. *)
Definition decodePair (r1 r2 : N) : option N :=
  if (55296 <=? r1) && (r1 <? 56320) && (56320 <=? r2) && (r2 <? 57344)
  then Some ((r1 - 55296) * 1024 + (r2 - 56320) + 65536)
  else None.

Definition escaped (c : ascii) : ascii :=
  if c == "b" then chr 8
  else if c == "f" then chr 12
  else if c == "n" then chr 10
  else if c == "r" then chr 13
  else if c == "t" then chr 9
  else c.

Definition between (lo hi : N) (c : ascii) : bool :=
  (lo <=? byte_of c) && (byte_of c <=? hi).

(** The second byte that may follow the first byte [c] of a sequence of
    three or four bytes ([utf8]'s accept ranges). *)
Definition second (c x : ascii) : bool :=
  let b := byte_of c in
  if b =? 224 then between 160 191 x
  else if b =? 237 then between 128 159 x
  else if b =? 240 then between 144 191 x
  else if b =? 244 then between 128 143 x
  else between 128 191 x.

(** [unquoteBytes] on the bytes between the quotes of a string the scanner
    accepted: escapes are replaced, a pair of surrogate escapes is one
    character, a lone one and every byte that is not UTF-8 become U+FFFD. *)
Fixpoint unquote (s : list ascii) : list ascii :=
  match s with
  | [] => []
  | c :: rest =>
      if isBackslash c then
        match rest with
        | [] => []
        | e :: rest1 =>
            if e == "u" then
              match rest1 with
              | h1 :: h2 :: h3 :: h4 :: rest2 =>
                  let rr := hex4 h1 h2 h3 h4 in
                  if isSurrogate rr then
                    match rest2 with
                    | b :: u :: g1 :: g2 :: g3 :: g4 :: rest3 =>
                        if isBackslash b && (u == "u") then
                          match decodePair rr (hex4 g1 g2 g3 g4) with
                          | Some dec => encodeRune dec ++ unquote rest3
                          | None => replacement ++ unquote rest2
                          end
                        else replacement ++ unquote rest2
                    | _ => replacement ++ unquote rest2
                    end
                  else encodeRune rr ++ unquote rest2
              | _ => []
              end
            else escaped e :: unquote rest1
        end
      else if byte_of c <? 128 then c :: unquote rest
      else if between 194 223 c then
        match rest with
        | x :: rest1 =>
            if between 128 191 x then c :: x :: unquote rest1
            else replacement ++ unquote rest
        | [] => replacement
        end
      else if between 224 239 c then
        match rest with
        | x :: y :: rest2 =>
            if second c x && between 128 191 y then c :: x :: y :: unquote rest2
            else replacement ++ unquote rest
        | _ => replacement ++ unquote rest
        end
      else if between 240 244 c then
        match rest with
        | x :: y :: z :: rest3 =>
            if second c x && between 128 191 y && between 128 191 z
            then c :: x :: y :: z :: unquote rest3
            else replacement ++ unquote rest
        | _ => replacement ++ unquote rest
        end
      else replacement ++ unquote rest
  end.

(** *** Storing into [SearchArgs] *)

Definition upper (c : ascii) : ascii :=
  if between 97 122 c then chr (byte_of c - 32) else c.

(** The key names the field [Query]: it is ["query"], or equal to it when
    letters are folded (no character outside ASCII folds to a letter of
    that name). *)
Definition names_query (key : list ascii) : bool :=
  String.eqb (String.string_of_list_ascii (map upper key)) "QUERY".

Definition syntaxError : error := ErrLib "json: SyntaxError".
Definition typeError (what : string) : error :=
  ErrLib ("json: UnmarshalTypeError: " +:+ what).

Definition kind (v : value) : string :=
  match v with
  | Null => "null"
  | Bool _ => "bool"
  | Number _ => "number"
  | Str _ => "string"
  | Arr _ => "array"
  | Obj _ => "object"
  end.

(** The members in order: a string sets the field, [null] leaves it, any
    other value for it is a type error; the first error is the one kept,
    and a key that names no field is skipped. *)
Fixpoint store_members (members : list (list ascii * value))
    (Query : string) (saved : option error) : string * option error :=
  match members with
  | [] => (Query, saved)
  | (key, v) :: members =>
      if names_query (unquote key) then
        match v with
        | Str raw =>
            store_members members (String.string_of_list_ascii (unquote raw)) saved
        | Null => store_members members Query saved
        | _ =>
            store_members members Query
              (match saved with Some e => Some e | None => Some (typeError (kind v)) end)
        end
      else store_members members Query saved
  end.

(** [json.Unmarshal([]byte(data), &args)] for [var args SearchArgs]. *)
Definition Unmarshal_SearchArgs (data : string) : error + SearchArgs.t :=
  match parse data with
  | None => inl syntaxError
  | Some (Obj members) =>
      match store_members members "" None with
      | (_, Some e) => inl e
      | (Query, None) => inr (SearchArgs.mk Query)
      end
  | Some Null => inr (SearchArgs.mk "")
  | Some v => inl (typeError (kind v))
  end.

(** A value the field [Query] accepts. *)
Definition storable (v : value) : bool :=
  match v with
  | Str _ | Null => true
  | _ => false
  end.

(** A top-level value [Unmarshal] accepts for a struct. *)
Definition struct_like (v : value) : bool :=
  match v with
  | Obj _ | Null => true
  | _ => false
  end.

End Json.

(** ** A scripted completion service, to run the client on *)

Module Demo.
Import Client.

(** A first answer that proposes the search tool with the given arguments. *)
Definition proposing (name arguments : string) : Message.t :=
  Message.mk "assistant" "je cherche"
    [ToolCall.mk "call_1" "function" (FunctionCall.mk name arguments);
     ToolCall.mk "call_2" "function" (FunctionCall.mk name "{}")] "".

Definition answer : Message.t :=
  Message.mk "assistant" "Va voir au Zaap." [] "".

(** The decoder of response bodies of the script: the body is a tag. *)
Definition decode (name arguments : string) (body : string)
  : error + chatResponse.t :=
  if (body =? "propose")%string then
    inr (chatResponse.mk [proposing name arguments] None)
  else if (body =? "answer")%string then inr (chatResponse.mk [answer] None)
  else inl (ErrLib "json: SyntaxError").

(** The service answers the [n]-th request with the [n]-th entry of
    [script]; tool arguments are decoded as [encoding/json] does. *)
Definition service (script : list httpResult) (name arguments : string) : Env :=
  mkEnv (fun _ => inr "{}") (fun _ _ _ => None)
        (fun n _ => nth n script (DoFails (ErrLib "EOF")))
        (decode name arguments)
        Json.Unmarshal_SearchArgs.

Definition client : Client :=
  mkClient "sk-test" "https://api.deepseek.com/chat/completions" "deepseek-chat".

Definition history : list Message.t :=
  [Message.mk "system" "Tu es un bot Discord." [] "";
   Message.mk "user" "[bob] c'est quoi la meta ?" [] ""].

Definition found : string -> string * option error :=
  fun query => ("result", None).

Definition failing : string -> string * option error :=
  fun query => ("fallback text", Some (ErrLib "tavily: timeout")).

(** The arguments [{"a":[[...]]}] with [n] arrays one inside the other:
    well-formed JSON, without a query member, [n + 1] levels deep. *)
Definition nested_arguments (n : N) : string :=
  "{" +:+ q "a" +:+ ":"
  +:+ String.string_of_list_ascii
        (repeat "["%char (N.to_nat n) ++ repeat "]"%char (N.to_nat n))
  +:+ "}".

(** The arguments [{"query":"x"}] and [{"query": 5}]. *)
Definition query_x : string := "{" +:+ q "query" +:+ ":" +:+ q "x" +:+ "}".
Definition query_5 : string := "{" +:+ q "query" +:+ ": 5}".

End Demo.

(** ** Sequences of calls of [Allow] *)

Module LimiterRuns.
Import Limiter.

(** The calls made on one limiter, in the order in which they take the
    mutex: each with its clock reading and its key. *)
Fixpoint run (rl : RateLimiter) (calls : list (Z * string))
  : list outcome * RateLimiter :=
  match calls with
  | [] => ([], rl)
  | (now, key) :: calls =>
      let r := Allow rl now key in
      let rs := run r.2 calls in
      (r.1 :: rs.1, rs.2)
  end.

(** The clock readings never go back, and start at [t] or later. *)
Fixpoint ordered (t : Z) (calls : list (Z * string)) : Prop :=
  match calls with
  | [] => True
  | (now, _) :: calls => t <= now ∧ ordered now calls
  end.

Definition is_admitted (o : outcome) : bool :=
  match o with
  | Returned true _ => true
  | _ => false
  end.

(** The clock readings of the calls for [key] that were admitted. *)
Fixpoint admissions (rl : RateLimiter) (calls : list (Z * string)) (key : string)
  : list Z :=
  match calls with
  | [] => []
  | (now, k) :: calls =>
      let r := Allow rl now k in
      (if decide (k = key) then if is_admitted r.1 then [now] else [] else [])
      ++ admissions r.2 calls key
  end.

(** The outcomes of the calls for [key]. *)
Fixpoint outcomes_for (rl : RateLimiter) (calls : list (Z * string)) (key : string)
  : list outcome :=
  match calls with
  | [] => []
  | (now, k) :: calls =>
      let r := Allow rl now k in
      (if decide (k = key) then [r.1] else []) ++ outcomes_for r.2 calls key
  end.

(** How many of [l] lie in the window [(T - W, T]]. *)
Definition in_window (W T : Z) (l : list Z) : list Z :=
  filter (fun a => T - W < a ∧ a <= T) l.

(** How many of [l] are later than [c]. *)
Definition later_than (c : Z) (l : list Z) : list Z :=
  filter (fun a => ¬ a <= c) l.

(** The last clock reading of [calls], or [t] when there is none. *)
Fixpoint last_time (t : Z) (calls : list (Z * string)) : Z :=
  match calls with
  | [] => t
  | (now, _) :: calls => last_time now calls
  end.

(** No key has more timestamps recorded than the limit allows. *)
Definition bounded (rl : RateLimiter) : Prop :=
  ∀ key, Z.of_nat (length (requests rl !!! key)) <= Z.max 0 (limit rl).

(** What is recorded for [key] agrees with the admissions [a] on every
    window that a later call can look at. *)
Definition tracks (rl : RateLimiter) (key : string) (a : list Z) (t : Z) : Prop :=
  ∀ now, t <= now ->
    later_than (now - window rl) (requests rl !!! key)
    = later_than (now - window rl) a.

End LimiterRuns.

(** ** Concurrent runs against sequential ones *)

Module Linearization.
Import Limiter LimiterRuns Concurrent.

(** One completed critical section: the goroutine, the clock reading it
    took and what it got. *)
Definition entry : Type := nat * Z * outcome.

Definition calls_of (userID : string) (log : list entry) : list (Z * string) :=
  map (fun e : entry => (e.1.2, userID)) log.

Definition outcomes_of (log : list entry) : list outcome :=
  map (fun e : entry => e.2) log.

Definition goroutines_of (log : list entry) : list nat :=
  map (fun e : entry => e.1.1) log.

(** What a goroutine inside the critical section knows: its clock reading
    is not older than the last logged one, and the sequence it read is
    still the one recorded. *)
Definition cs_ok (userID : string) (c : config) (lo : Z) (g : goroutine) : Prop :=
  match g with
  | AtLoad now => lo <= now ∧ now <= clock c
  | AtCheck now ts =>
      lo <= now ∧ now <= clock c ∧ ts = requests (shared c) !!! userID
  | _ => True
  end.

(** [log] lists, in the order in which they took the mutex, the calls that
    have passed their store in the configuration [c] reached from
    [start L W _ t0]: replayed one after the other on a fresh limiter they
    give the same results and the limiter of [c]. *)
Record linearized (userID : string) (L W t0 : Z) (c : config) (log : list entry)
  : Prop := mkLinearized {
  lin_nodup : NoDup (goroutines_of log);
  lin_decided : ∀ (i : nat) o,
    (∃ now, (i, now, o) ∈ log) <-> pool c !! i ≫= decided = Some o;
  lin_ordered : ordered t0 (calls_of userID log);
  lin_last : last_time t0 (calls_of userID log) <= clock c;
  lin_run : LimiterRuns.run (NewRateLimiter L W) (calls_of userID log)
            = (outcomes_of log, shared c);
  lin_mutex : count in_cs (pool c) = Nat.b2n (locked c);
  lin_local : ∀ (i : nat) g, pool c !! i = Some g ->
                cs_ok userID c (last_time t0 (calls_of userID log)) g
}.

(** Some goroutine can take a step. *)
Definition can_step (userID : string) (c : config) : Prop :=
  ∃ (i : nat) c', exec userID (Go i) c = Some c'.

End Linearization.

(** ** Notions for further properties of the client *)

Module ClientNotions.
Import Client.

(** The request [call] builds around a marshalled body. *)
Definition request_of (c : Client) (body : string) : httpRequest :=
  mkHttpRequest "POST" (baseURL c)
    [("Content-Type", "application/json");
     ("Authorization", "Bearer " +:+ apiKey c)] body.

(** [req] is a request of the client [c] for some conversation. *)
Definition request_by (env : Env) (c : Client) (req : httpRequest) : Prop :=
  ∃ messages tools body,
    json_Marshal env (chatRequest.mk (model c) messages tools (2 # 10)%Q) = inr body
    ∧ req = request_of c body.

(** The errors [call] makes of what fails below it. *)
Inductive transport_error (env : Env) (c : Client) : error -> Prop :=
| te_marshal req err :
    json_Marshal env req = inl err ->
    transport_error env c (Errorf_w "erreur de sérialisation: " err)
| te_request body err :
    http_NewRequest env "POST" (baseURL c) body = Some err ->
    transport_error env c (Errorf_w "erreur de création de requête: " err)
| te_network n req err :
    http_Do env n req = DoFails err ->
    transport_error env c (Errorf_w "erreur réseau: " err)
| te_read n req status err :
    http_Do env n req = ReadFails status err ->
    transport_error env c (Errorf_w "erreur de lecture: " err)
| te_status n req status body :
    http_Do env n req = Response status body -> status ≠ 200 ->
    request_by env c req ->
    transport_error env c (ErrAPI (APIError.mk status body))
| te_decode n req body err :
    http_Do env n req = Response 200 body ->
    json_Unmarshal_chatResponse env body = inl err ->
    transport_error env c (Errorf_w "erreur de décodage: " err).

(** The errors [Complete] adds of its own. *)
Inductive protocol_error (env : Env) : error -> Prop :=
| pe_empty_first : protocol_error env (Errorf "réponse vide du LLM")
| pe_empty_second : protocol_error env (Errorf "réponse vide du LLM (second appel)")
| pe_arguments raw err :
    json_Unmarshal_SearchArgs env raw = inl err ->
    protocol_error env (Errorf_w "arguments outil invalides: " err).

End ClientNotions.

(** ** The web search client (package [search]) *)

(** [%d] of [fmt]: a Go [int] in decimal, with a minus sign when negative. *)
Definition itoa (n : Z) : string :=
  DecimalString.NilZero.string_of_int (Z.to_int n).

(** [strings.Join(elems, sep)] *)
Fixpoint Join (elems : list string) (sep : string) : string :=
  match elems with
  | [] => ""
  | x :: rest =>
      match rest with
      | [] => x
      | _ :: _ => x +:+ sep +:+ Join rest sep
      end
  end.

Module Search.

Abbreviation error := Client.error.

(** [type Client struct]; of [httpClient] the timeout is kept, in ns. *)
Record Client := mkClient {
  apiKey : string;
  Timeout : Z
}.

Record tavilyRequest := mkTavilyRequest {
  APIKey : string;
  Query : string;
  SearchDepth : string;
  IncludeAnswer : bool
}.

Record tavilyResult := mkTavilyResult {
  Title : string;
  Content : string;
  URL : string
}.

Record tavilyResponse := mkTavilyResponse {
  Results : list tavilyResult
}.

(** [func NewClient(apiKey string) *Client] *)
Definition NewClient (apiKey : string) : Client :=
  mkClient apiKey (5 * 1000000000).

(** A response whose body was not read yet: the bytes its reader will
    give, and the error that ends them if one does. *)
Record httpResponse := mkHttpResponse {
  StatusCode : Z;
  Body : string * option error
}.

(** The library functions and the remote service used by [Search]:
    [http_Do timeout req] is [c.httpClient.Do(req)] for a client with this
    timeout, [json_Decode body] is [json.NewDecoder(body).Decode] into a
    [tavilyResponse]. *)
Record Env := mkEnv {
  json_Marshal : tavilyRequest -> error + string;
  http_NewRequest : string -> string -> string -> option error;
  http_Do : Z -> Client.httpRequest -> error + httpResponse;
  json_Decode : string * option error -> error + tavilyResponse
}.

(** [func fallbackMessage() string] *)
Definition fallbackMessage : string :=
  "ERREUR_OUTIL: La recherche internet a échoué et est indisponible. " +:+
  "Tu dois commencer ta réponse par une phrase factuelle et honnête du style : " +:+
  Client.q "Je n'arrive pas à récupérer les données fraîches et précises sur le web pour te répondre précisément, mais voici ce que j'ai à te dire :" +:+ ". " +:+
  "Ne fais pas de blague sur l'erreur, reste factuel sur le problème. " +:+
  "Ensuite, réponds du mieux que tu peux avec tes connaissances internes.".

(** [fmt.Sprintf("- %s: %s", r.Title, r.Content)] *)
Definition snippet (r : tavilyResult) : string :=
  "- " +:+ Title r +:+ ": " +:+ Content r.

(** The loop [for i := range limit] of [Search]: [None] is the panic of an
    index out of range in [tavilyResp.Results[i]]. *)
Definition snippets_loop (results : list tavilyResult) (limit : nat)
  : option (list string) :=
  fold_left
    (fun acc i =>
       match acc with
       | None => None
       | Some snippets =>
           match results !! i with
           | None => None
           | Some r => Some (snippets ++ [snippet r])
           end
       end)
    (seq 0 limit) (Some []).

(** [func (c *Client) Search(ctx, query) (string, error)]; [None] is a
    panic. *)
Definition Search (env : Env) (c : Client) (query : string)
  : option (string * option error) :=
  let reqBody := mkTavilyRequest (apiKey c) query "basic" false in
  match json_Marshal env reqBody with
  | inl err =>
      Some (fallbackMessage, Some (Client.Errorf_w "sérialisation requête Tavily: " err))
  | inr body =>
      match http_NewRequest env "POST" "https://api.tavily.com/search" body with
      | Some err =>
          Some (fallbackMessage, Some (Client.Errorf_w "création requête Tavily: " err))
      | None =>
          let req := Client.mkHttpRequest "POST" "https://api.tavily.com/search"
                       [("Content-Type", "application/json")] body in
          match http_Do env (Timeout c) req with
          | inl err =>
              Some (fallbackMessage, Some (Client.Errorf_w "appel API Tavily: " err))
          | inr resp =>
              if negb (StatusCode resp =? 200) then
                Some (fallbackMessage,
                      Some (Client.Errorf ("API Tavily HTTP " +:+ itoa (StatusCode resp))))
              else
                match json_Decode env (Body resp) with
                | inl err =>
                    Some (fallbackMessage,
                          Some (Client.Errorf_w "décodage réponse Tavily: " err))
                | inr tavilyResp =>
                    (* Concaténation des 3 premiers snippets *)
                    let limit := Nat.min 3 (length (Results tavilyResp)) in
                    match snippets_loop (Results tavilyResp) limit with
                    | None => None
                    | Some snippets =>
                        if (length snippets =? 0)%nat then
                          Some ("Aucune information récente trouvée sur le web.", None)
                        else Some (Join snippets Client.LF, None)
                    end
                end
          end
      end
  end.

(** *** Notions used to state the properties *)

(** The request [Search] sends for [query]. *)
Definition request_of (env : Env) (c : Client) (query : string) (body : string)
  : Prop :=
  json_Marshal env (mkTavilyRequest (apiKey c) query "basic" false) = inr body
  ∧ http_NewRequest env "POST" "https://api.tavily.com/search" body = None.

(** An example service: it answers 200 with the given results. *)
Definition answering (results : list tavilyResult) : Env :=
  mkEnv (fun r => inr ("{" +:+ Query r +:+ "}"))
        (fun _ _ _ => None)
        (fun _ _ => inr (mkHttpResponse 200 ("[...]", None)))
        (fun _ => inr (mkTavilyResponse results)).

(** An example service that answers with the given status. *)
Definition refusing (status : Z) : Env :=
  mkEnv (fun r => inr ("{" +:+ Query r +:+ "}"))
        (fun _ _ _ => None)
        (fun _ _ => inr (mkHttpResponse status ("", None)))
        (fun _ => inl (Client.ErrLib "EOF")).

Definition four_results : list tavilyResult :=
  [mkTavilyResult "a" "1" "u1"; mkTavilyResult "b" "2" "u2";
   mkTavilyResult "c" "3" "u3"; mkTavilyResult "d" "4" "u4"].

End Search.

(** ** The configuration (package [config]) *)

Module Config.

Abbreviation error := Client.error.

Record Config := mkConfig {
  DiscordToken : string;
  DeepSeekKey : string;
  TavilyKey : string;
  DeepSeekURL : string;
  DeepSeekModel : string
}.

(** The environment of the process.  [os.Getenv(key)] is the value of the
    variable, empty when the variable is not set. *)
Definition Getenv (environ : gmap string string) (key : string) : string :=
  default "" (environ !! key).

Section Load.

(** [godotenv.Load()], whose error is dropped: what it makes of the
    environment. *)
Variable godotenv_Load : gmap string string -> gmap string string.

(** [func Load()], returning a configuration or an error, with the
    environment it leaves. *)
Definition Load (environ : gmap string string)
  : (error + Config) * gmap string string :=
  let environ := godotenv_Load environ in
  let cfg := mkConfig (Getenv environ "DISCORD_TOKEN")
                      (Getenv environ "DEEPSEEK_API_KEY")
                      (Getenv environ "TAVILY_API_KEY")
                      (Getenv environ "DEEPSEEK_URL")
                      (Getenv environ "DEEPSEEK_MODEL") in
  (* Validation stricte des clés obligatoires *)
  if (DiscordToken cfg =? "")%string then
    (inl (Client.Errorf "DISCORD_TOKEN manquant dans l'environnement"), environ)
  else if (DeepSeekKey cfg =? "")%string then
    (inl (Client.Errorf "DEEPSEEK_API_KEY manquant dans l'environnement"), environ)
  else if (TavilyKey cfg =? "")%string then
    (inl (Client.Errorf "TAVILY_API_KEY manquant dans l'environnement"), environ)
  else if (DeepSeekURL cfg =? "")%string then
    (inl (Client.Errorf "DEEPSEEK_URL manquant dans l'environnement"), environ)
  else if (DeepSeekModel cfg =? "")%string then
    (inl (Client.Errorf "DEEPSEEK_MODEL manquant dans l'environnement"), environ)
  else (inr cfg, environ).

End Load.

(** *** Notions used to state the properties *)

(** The variables a configuration needs, in the order of the fields. *)
Definition variables : list string :=
  ["DISCORD_TOKEN"; "DEEPSEEK_API_KEY"; "TAVILY_API_KEY"; "DEEPSEEK_URL";
   "DEEPSEEK_MODEL"].

(** Those of them that are not set, or set to the empty string. *)
Definition missing (environ : gmap string string) : list string :=
  filter (fun v => Getenv environ v = "") variables.

(** The fields of a configuration, in order. *)
Definition fields (cfg : Config) : list string :=
  [DiscordToken cfg; DeepSeekKey cfg; TavilyKey cfg; DeepSeekURL cfg;
   DeepSeekModel cfg].

End Config.

(** ** The bot (package [bot]): the handlers of Discord events *)

(** [func (e *APIError) Error() string], and [err.Error()] for the other
    errors: [fmt.Errorf] with [%w] prints the wrapped error in place. *)
Fixpoint Error (e : Client.error) : string :=
  match e with
  | Client.ErrAPI a =>
      "erreur API (HTTP " +:+ itoa (Client.APIError.StatusCode a) +:+ "): "
      +:+ Client.APIError.Body a
  | Client.Errorf text => text
  | Client.Errorf_w prefix err => prefix +:+ Error err
  | Client.ErrLib text => text
  end.

(** [errors.As(err, &apiErr)] for [apiErr] of type [*ai.APIError]: the
    first [*APIError] in the chain of wrapped errors.  The errors made by
    the libraries wrap no error of this type. *)
Fixpoint errors_As_APIError (err : Client.error) : option Client.APIError.t :=
  match err with
  | Client.ErrAPI a => Some a
  | Client.Errorf _ => None
  | Client.Errorf_w _ err => errors_As_APIError err
  | Client.ErrLib _ => None
  end.

(** The types of discordgo, with the fields the bot reads.  Pointers are
    taken to be set, except [Message.Author], which the bot tests. *)
Module Discord.

Module User.
Record t := mk {
  ID : string;
  Username : string;
  Bot : bool
}.
End User.

Module Message.
Record t := mk {
  ID : string;
  ChannelID : string;
  GuildID : string;
  Content : string;
  Author : option User.t;
  Mentions : list User.t
}.
End Message.

(** The calls the bot makes on the session.  A reply carries the message
    whose [Reference()] it is given. *)
Inductive call :=
| ChannelTyping (channelID : string)
| ChannelMessages (channelID : string) (limit : Z) (beforeID afterID aroundID : string)
| ChannelMessageSendComplex (channelID : string) (content : string)
    (reference : Message.t).

(** What Discord answers.  [n] is the number of calls made on the session
    before this one. *)
Record Session := mkSession {
  State_User_ID : string;
  ChannelMessages_result :
    nat -> string -> Z -> string -> Client.error + list Message.t;
  ChannelMessageSendComplex_result :
    nat -> string -> string -> option Client.error
}.

End Discord.

Module Bot.
Import Discord.

Abbreviation error := Client.error.

(** [systemPrompt] *)
Definition systemPrompt : string :=
  "Tu es un bot Discord et un vétéran très chill du MMORPG Dofus 3 Unity. Tu agis comme un vrai pote de guilde avec qui on discute tranquillement au Zaap d'Astrub." +:+ Client.LF +:+
  "Ton ton est décalé, amical, drôle et parfois un peu sarcastique, mais toujours bienveillant pour aider les joueurs." +:+ Client.LF +:+
  Client.LF +:+
  "Règles de comportement :" +:+ Client.LF +:+
  "- Utilise le tutoiement systématiquement avec tous les utilisateurs." +:+ Client.LF +:+
  "- Sois concis : tes réponses doivent être percutantes et adaptées à un chat Discord." +:+ Client.LF +:+
  "- Si tu ne connais pas la réponse à une question, avoue-le avec humour (ex: " +:+ Client.q "Mec, j'ai tellement farmé que j'ai le cerveau en compote, aucune idée" +:+ ")." +:+ Client.LF +:+
  "- Agis parfois comme si tu étais en train de jouer en même temps (ex: " +:+ Client.q "Attends je finis mon tour..." +:+ ")." +:+ Client.LF +:+
  Client.LF +:+
  "Vocabulaire Dofus obligatoire (à utiliser naturellement) :" +:+ Client.LF +:+
  "- Kamas, HDV (Hôtel de Vente), farm, stuff, tryhard, PL, monocompte, faire les succès." +:+ Client.LF +:+
  "- N'hésite pas à faire quelques vannes sur la " +:+ Client.q "méta" +:+ " du jeu, comme les joueurs de Crâ qui farment de loin, ou les Pandawas qui portent tout le monde.".

(** [type Bot struct]: the clients; the session, the limiter and the
    logger are in the environment and the world below. *)
Record Bot := mkBot {
  aiClient : Client.Client;
  searchClient : Search.Client
}.

(** The functions of the standard library the handlers use on strings:
    [strings.ReplaceAll], [strings.TrimSpace], [strings.Fields], and
    [fmt.Sprintf("%.1f", d.Seconds())] for a duration [d]. *)
Record Lib := mkLib {
  strings_ReplaceAll : string -> string -> string -> string;
  strings_TrimSpace : string -> string;
  strings_Fields : string -> list string;
  Sprintf_seconds : Z -> string
}.

(** All that the handlers talk to.  [tavily n] is the search service as it
    answers when [n] searches were made before. *)
Record Env := mkEnv {
  lib : Lib;
  session : Session;
  ai : Client.Env;
  tavily : nat -> Search.Env
}.

(** A record of the logger: level, message, attributes. *)
Inductive level := LevelInfo | LevelWarn | LevelError.

Inductive attr :=
| String_ (key value : string)    (* slog.String *)
| Int_ (key : string) (value : Z).  (* slog.Int *)

(** What the handlers change and leave behind: the limiter, the calls of
    the completion client, the calls made on the session, the log. *)
Record world := mkWorld {
  rateLimiter : Limiter.RateLimiter;
  completions : Client.world;
  discord : list call;
  logs : list (level * string * list attr)
}.

(** Handlers change the world and may panic ([None]). *)
Definition B (A : Type) : Type := world -> option (A * world).

Definition ret {A} (a : A) : B A := fun w => Some (a, w).
Definition panic {A} : B A := fun _ => None.
Definition bind {A C} (m : B A) (k : A -> B C) : B C :=
  fun w => match m w with
           | Some (a, w') => k a w'
           | None => None
           end.

Notation "'do' x <- m ; k" := (bind m (fun x => k))
  (at level 10, x pattern, m at level 100, k at level 200).

Definition log (l : level) (msg : string) (attrs : list attr) : B unit :=
  fun w => Some (tt, mkWorld (rateLimiter w) (completions w) (discord w)
                       (logs w ++ [(l, msg, attrs)])).

(** A call on the session: it is recorded, and answered from the number
    of calls made before. *)
Definition on_session {A} (c : call) (answer : nat -> A) : B A :=
  fun w => Some (answer (length (discord w)),
                 mkWorld (rateLimiter w) (completions w) (discord w ++ [c]) (logs w)).

(** [func truncate(s string, maxLen int) string]; [None] is the panic of
    [s[:maxLen-3]] when the bound is out of range.  [maxLen - 3] is taken
    in 64 bits. *)
Definition int64 (z : Z) : Z := (z + 2 ^ 63) mod 2 ^ 64 - 2 ^ 63.

Definition truncate (s : string) (maxLen : Z) : option string :=
  if Z.of_nat (String.length s) <=? maxLen then Some s
  else
    let hi := int64 (maxLen - 3) in
    if (hi <? 0) || (Z.of_nat (String.length s) <? hi) then None
    else Some (String.substring 0 (Z.to_nat hi) s +:+ "...").

Section Handlers.
Variable env : Env.
Variable b : Bot.

(** [func truncateWords(s string, n int) string]; [None] is the panic of
    [words[:n]] for a negative [n]. *)
Definition truncateWords (s : string) (n : Z) : option string :=
  let words := strings_Fields (lib env) s in
  if Z.of_nat (length words) <=? n then Some s
  else if n <? 0 then None
  else Some (Join (take (Z.to_nat n) words) " " +:+ "...").

(** [func (b *Bot) isMentioned(s, m) bool] *)
Fixpoint mentioned (botID : string) (mentions : list User.t) : bool :=
  match mentions with
  | [] => false
  | u :: rest => if (User.ID u =? botID)%string then true else mentioned botID rest
  end.

Definition isMentioned (m : Message.t) : bool :=
  let botID := State_User_ID (session env) in
  mentioned botID (Message.Mentions m).

(** [func (b *Bot) stripBotMention(s, content) string] *)
Definition stripBotMention (content : string) : string :=
  let botID := State_User_ID (session env) in
  let content := strings_ReplaceAll (lib env) content ("<@" +:+ botID +:+ ">") "" in
  let content := strings_ReplaceAll (lib env) content ("<@!" +:+ botID +:+ ">") "" in
  strings_TrimSpace (lib env) content.

(** [func (b *Bot) replyToMessage(s, m, content)] *)
Definition replyToMessage (m : Message.t) (content : string) : B unit :=
  do r <- on_session
            (ChannelMessageSendComplex (Message.ChannelID m) content m)
            (fun n => ChannelMessageSendComplex_result (session env) n
                        (Message.ChannelID m) content);
  match r with
  | Some err =>
      log LevelError "Impossible d'envoyer un message"
        [String_ "channel" (Message.ChannelID m); String_ "error" (Error err)]
  | None => ret tt
  end.

(** [msgs[i]] and [msgs[i] = m]; [None] is the panic of an index out of
    range. *)
Definition index (msgs : list Message.t) (i : Z) : option Message.t :=
  if (i <? 0) || (Z.of_nat (length msgs) <=? i) then None
  else msgs !! Z.to_nat i.

Definition assign (msgs : list Message.t) (i : Z) (m : Message.t)
  : option (list Message.t) :=
  if (i <? 0) || (Z.of_nat (length msgs) <=? i) then None
  else Some (<[Z.to_nat i := m]> msgs).

(** The loop of [fetchChannelHistory] that reverses [msgs] in place:
    [for i, j := 0, len(msgs)-1; i < j; i, j = i+1, j-1
       { msgs[i], msgs[j] = msgs[j], msgs[i] }].
    [None] is a panic, or a loop that is not over when the fuel is spent;
    [len(msgs)] turns suffice. *)
Fixpoint reverse_loop (fuel : nat) (i j : Z) (msgs : list Message.t)
  : option (list Message.t) :=
  if i <? j then
    match fuel with
    | O => None
    | S fuel =>
        match index msgs j, index msgs i with
        | Some mj, Some mi =>
            match assign msgs i mj with
            | Some msgs =>
                match assign msgs j mi with
                | Some msgs => reverse_loop fuel (i + 1) (j - 1) msgs
                | None => None
                end
            | None => None
            end
        | _, _ => None
        end
    end
  else Some msgs.

(** The loop of [fetchChannelHistory] that builds the history. *)
Fixpoint history_loop (botID : string) (msgs : list Message.t)
    (history : list Client.Message.t) : list Client.Message.t :=
  match msgs with
  | [] => history
  | msg :: rest =>
      match Message.Author msg with
      | None => history_loop botID rest history
      | Some author =>
          if (Message.Content msg =? "")%string then history_loop botID rest history
          else if (User.ID author =? botID)%string then
            (* Message du bot → rôle "assistant" *)
            history_loop botID rest
              (history ++ [Client.Message.mk "assistant" (Message.Content msg) [] ""])
          else
            (* Message d'un utilisateur → rôle "user" avec préfixe du pseudo *)
            let cleaned := stripBotMention (Message.Content msg) in
            if (cleaned =? "")%string then history_loop botID rest history
            else
              history_loop botID rest
                (history ++ [Client.Message.mk "user"
                               ("[" +:+ User.Username author +:+ "] " +:+ cleaned)
                               [] ""])
      end
  end.

(** [func (b *Bot) fetchChannelHistory(s, channelID, beforeID, limit) []ai.Message] *)
Definition fetchChannelHistory (channelID beforeID : string) (limit : Z)
  : B (list Client.Message.t) :=
  do r <- on_session (ChannelMessages channelID limit beforeID "" "")
            (fun n => ChannelMessages_result (session env) n channelID limit beforeID);
  match r with
  | inl err =>
      do _ <- log LevelWarn "Impossible de récupérer l'historique du channel"
                [String_ "channel" channelID; String_ "error" (Error err)];
      ret []
  | inr msgs =>
      (* Discord renvoie les messages du plus récent au plus ancien, on les inverse *)
      match reverse_loop (length msgs) 0 (Z.of_nat (length msgs) - 1) msgs with
      | None => panic
      | Some msgs =>
          let botID := State_User_ID (session env) in
          ret (history_loop botID msgs [])
      end
  end.

(** [func (b *Bot) handleAIError(s, m, err)] *)
Definition handleAIError (m : Message.t) (err : error) : B unit :=
  match errors_As_APIError err with
  | Some apiErr =>
      do _ <- log LevelError "Erreur API IA"
                [Int_ "status" (Client.APIError.StatusCode apiErr);
                 String_ "body" (Client.APIError.Body apiErr)];
      replyToMessage m (Client.UserMessage apiErr)
  | None =>
      do _ <- log LevelError "Erreur API IA" [String_ "error" (Error err)];
      replyToMessage m
        "Oups, on dirait que le Dieu Xélor fait encore des siennes, mes signaux sont perturbés ! Ré-essaye dans quelques instants."
  end.

(** [b.searchClient.Search] as the executor given to [Complete], when [n]
    searches were made before.  [Search] does not panic, so that its
    result is always the one taken. *)
Definition executor (n : nat) (query : string) : string * option error :=
  match Search.Search (tavily env n) (searchClient b) query with
  | Some r => r
  | None => ("", None)
  end.

(** [b.aiClient.Complete(ctx, messages, tools, b.searchClient.Search)] *)
Definition complete (messages : list Client.Message.t) (tools : list Client.ToolDef.t)
  : B (error + Client.CompletionResult.t) :=
  fun w =>
    let searchFn := executor (length (Client.searches (completions w))) in
    let r := Client.Complete (ai env) (aiClient b) messages tools (Some searchFn)
               (completions w) in
    Some (r.1, mkWorld (rateLimiter w) r.2 (discord w) (logs w)).

(** [func (b *Bot) handleAIResponse(s, m)] *)
Definition handleAIResponse (m : Message.t) : B unit :=
  (* Indicateur "Bot est en train d'écrire..." *)
  do _ <- on_session (ChannelTyping (Message.ChannelID m)) (fun _ => tt);
  (* Nettoyage du contenu (suppression de la mention du bot) *)
  let cleanContent := stripBotMention (Message.Content m) in
  match Message.Author m with
  | None => panic
  | Some author =>
      match truncateWords cleanContent 10 with
      | None => panic
      | Some preview =>
          do _ <- log LevelInfo "Message reçu"
                    [String_ "user" (User.Username author);
                     String_ "user_id" (User.ID author);
                     String_ "aperçu" preview;
                     String_ "channel" (Message.ChannelID m)];
          (* Récupération de l'historique récent du channel *)
          do history <- fetchChannelHistory (Message.ChannelID m) (Message.ID m) 20;
          (* Construction du contexte conversationnel *)
          let messages :=
            ([] ++ [Client.Message.mk "system" systemPrompt [] ""])
            ++ history
            ++ [Client.Message.mk "user"
                  ("[" +:+ User.Username author +:+ "] " +:+ cleanContent) [] ""] in
          (* Définition des outils disponibles *)
          let tools := [Client.SearchToolDef] in
          (* Appel au LLM avec support du tool calling *)
          do r <- complete messages tools;
          match r with
          | inl err => handleAIError m err
          | inr result =>
              (* Log de l'utilisation de la recherche web *)
              do _ <-
                (if Client.CompletionResult.WebSearchUsed result then
                   match Client.CompletionResult.WebSearchError result with
                   | Some serr =>
                       log LevelError "Recherche web échouée"
                         [String_ "user" (User.Username author);
                          String_ "query" (Client.CompletionResult.WebSearchQuery result);
                          String_ "error" (Error serr)]
                   | None =>
                       log LevelInfo "Recherche web utilisée"
                         [String_ "user" (User.Username author);
                          String_ "query" (Client.CompletionResult.WebSearchQuery result)]
                   end
                 else ret tt);
              (* Envoi de la réponse en reply (tronquée à 2000 caractères) *)
              match truncate (Client.CompletionResult.Reply result) 2000 with
              | None => panic
              | Some content => replyToMessage m content
              end
          end
      end
  end.

(** [b.rateLimiter.Allow(userID)] at the clock reading [now]. *)
Definition allow (now : Z) (userID : string) : B (bool * Z) :=
  fun w =>
    match Limiter.Allow (rateLimiter w) now userID with
    | (Limiter.Returned allowed retryAfter, rl) =>
        Some ((allowed, retryAfter), mkWorld rl (completions w) (discord w) (logs w))
    | (Limiter.Panicked, _) => None
    end.

(** [func (b *Bot) onMessageCreate(s, m)], with the clock reading [now]
    that [Allow] makes when it is called. *)
Definition onMessageCreate (now : Z) (m : Message.t) : B unit :=
  match Message.Author m with
  | None => panic
  | Some author =>
      (* 1. Ignorer les propres messages du bot *)
      if (User.ID author =? State_User_ID (session env))%string then ret tt
      (* 2. Le bot ne répond que s'il est mentionné (@bot) *)
      else if negb (isMentioned m) then ret tt
      else
        (* 4. Sécurité : Rate limiting utilisateur *)
        do r <- allow now (User.ID author);
        let '(allowed, retryAfter) := r in
        if negb allowed then
          replyToMessage m
            ("⏳ Hop là, tu t'es pris pour Flasho ?! Attends encore "
             +:+ Sprintf_seconds (lib env) retryAfter
             +:+ " secondes et là j'accepterai de t'écouter.")
        else
          (* 5. Traitement IA (DeepSeek + tool calling Tavily) *)
          handleAIResponse m
  end.

End Handlers.

(** [func NewClient(apiKey, baseURL, model string) *Client] of package
    [ai]; the timeout of its HTTP client is with the completion service. *)
Definition NewClient (apiKey baseURL model : string) : Client.Client :=
  Client.mkClient apiKey baseURL model.

(** The world of a bot just made by [New]: the limiter allows 5 requests
    per minute and user. *)
Definition world0 : world :=
  mkWorld (Limiter.NewRateLimiter 5 (60 * 1000000000)) Client.world0 [] [].

(** [func New(cfg, logger)], returning a bot or an error; [discordgo_New]
    is the error of [discordgo.New], if any.  The intents and the handlers
    registered on the session are those of the gateway: it calls
    [onMessageCreate] for every message created. *)
Definition New (discordgo_New : string -> option error) (cfg : Config.Config)
  : error + (Bot * world) :=
  match discordgo_New ("Bot " +:+ Config.DiscordToken cfg) with
  | Some err => inl (Client.Errorf_w "impossible de créer la session Discord: " err)
  | None =>
      inr (mkBot (NewClient (Config.DeepSeekKey cfg) (Config.DeepSeekURL cfg)
                    (Config.DeepSeekModel cfg))
                 (Search.NewClient (Config.TavilyKey cfg)),
           world0)
  end.

End Bot.

(** *** Notions used to state the properties of the handlers *)

Module BotNotions.
Import Discord Bot.

(** What a message of the channel becomes in the history, when it is kept. *)
Definition turn (env : Env) (msg : Message.t) : option Client.Message.t :=
  match Message.Author msg with
  | None => None
  | Some author =>
      if decide (Message.Content msg = "") then None
      else if decide (User.ID author = State_User_ID (session env)) then
        Some (Client.Message.mk "assistant" (Message.Content msg) [] "")
      else if decide (stripBotMention env (Message.Content msg) = "") then None
      else Some (Client.Message.mk "user"
                   ("[" +:+ User.Username author +:+ "] "
                    +:+ stripBotMention env (Message.Content msg)) [] "")
  end.

(** The replies among calls made on the session: channel, content, and
    the message replied to. *)
Definition reply_of (c : call) : option (string * string * Message.t) :=
  match c with
  | ChannelMessageSendComplex channelID content reference =>
      Some (channelID, content, reference)
  | _ => None
  end.

Definition replies (calls : list call) : list (string * string * Message.t) :=
  omap reply_of calls.

(** The message the user is shown for an error of the completion. *)
Definition generic_message : string :=
  "Oups, on dirait que le Dieu Xélor fait encore des siennes, mes signaux sont perturbés ! Ré-essaye dans quelques instants.".

(** The conversation [handleAIResponse] builds for a message of [author]
    from the history. *)
Definition conversation (env : Env) (author : User.t) (m : Message.t)
    (history : list Client.Message.t) : list Client.Message.t :=
  Client.Message.mk "system" systemPrompt [] ""
  :: history
  ++ [Client.Message.mk "user"
        ("[" +:+ User.Username author +:+ "] "
         +:+ stripBotMention env (Message.Content m)) [] ""].

(** The errors of the libraries hold no [*APIError]: that type belongs to
    the client. *)
Definition plain (err : Client.error) : Prop := errors_As_APIError err = None.

Definition library_errors_plain (env : Client.Env) : Prop :=
  (∀ req err, Client.json_Marshal env req = inl err -> plain err)
  ∧ (∀ method url body err,
       Client.http_NewRequest env method url body = Some err -> plain err)
  ∧ (∀ n req err, Client.http_Do env n req = Client.DoFails err -> plain err)
  ∧ (∀ n req status err,
       Client.http_Do env n req = Client.ReadFails status err -> plain err)
  ∧ (∀ body err, Client.json_Unmarshal_chatResponse env body = inl err -> plain err)
  ∧ (∀ raw err, Client.json_Unmarshal_SearchArgs env raw = inl err -> plain err).

(** Events handled one after the other, each with the clock reading its
    call of [Allow] would make; [None] when a handler panics. *)
Fixpoint handle_all (env : Env) (b : Bot) (events : list (Z * Message.t))
    (w : world) : option world :=
  match events with
  | [] => Some w
  | (now, m) :: events =>
      match onMessageCreate env b now m w with
      | Some (_, w') => handle_all env b events w'
      | None => None
      end
  end.

(** The message is written by another user and mentions the bot. *)
Definition addressed (env : Env) (m : Message.t) : bool :=
  match Message.Author m with
  | Some author =>
      negb (User.ID author =? State_User_ID (session env))%string
      && isMentioned env m
  | None => false
  end.

(** The calls of [Allow] that the events lead to. *)
Definition allow_calls (env : Env) (events : list (Z * Message.t))
  : list (Z * string) :=
  omap (fun e : Z * Message.t =>
          if addressed env e.2 then
            match Message.Author e.2 with
            | Some author => Some (e.1, User.ID author)
            | None => None
            end
          else None) events.

(** The clock readings of the events of [userID] during which the
    completion client was called. *)
Fixpoint served (env : Env) (b : Bot) (events : list (Z * Message.t)) (w : world)
    (userID : string) : list Z :=
  match events with
  | [] => []
  | (now, m) :: events =>
      match onMessageCreate env b now m w with
      | Some (_, w') =>
          (if decide (User.ID <$> Message.Author m = Some userID
                      ∧ (length (Client.calls (completions w))
                         < length (Client.calls (completions w')))%nat)
           then [now] else [])
          ++ served env b events w' userID
      | None => []
      end
  end.

(** An example: the bot is mentioned by bob in a channel where two
    messages were written before; the completion service answers at once. *)
Definition demo_lib : Lib :=
  mkLib (fun s old new => s) (fun s => s) (fun s => [s]) (fun d => "12.0").

Definition bob : User.t := User.mk "42" "bob" false.
Definition otom : User.t := User.mk "7" "otom" true.

Definition earlier : list Message.t :=
  [Message.mk "m2" "c1" "g1" "Va voir au Zaap." (Some otom) [];
   Message.mk "m1" "c1" "g1" "salut" (Some bob) []].

Definition mention : Message.t :=
  Message.mk "m3" "c1" "g1" "c'est quoi la meta ?" (Some bob) [otom].

Definition demo_session : Session :=
  mkSession "7" (fun _ _ _ _ => inr earlier) (fun _ _ _ => None).

Definition demo_env (script : list Client.httpResult) : Env :=
  mkEnv demo_lib demo_session
    (Client.mkEnv (fun _ => inr "{}") (fun _ _ _ => None)
       (fun n _ => nth n script (Client.DoFails (Client.ErrLib "EOF")))
       (Demo.decode "search_internet" Demo.query_x)
       (fun _ => inr (Client.SearchArgs.mk "x")))
    (fun _ => Search.answering Search.four_results).

Definition demo_bot : Bot :=
  mkBot Demo.client (Search.NewClient "tvly-test").

End BotNotions.

(** ** Properties of the rate limiter *)

Module LimiterFacts.
Import Limiter.

Lemma prune_loop cutoff (l acc : list Z) :
  fold_left (fun valid ts => if After ts cutoff then valid ++ [ts] else valid) l acc
  = acc ++ filter (fun ts => ¬ ts <= cutoff) l.
Proof.
  revert acc. induction l as [|ts l IH]; intros acc; simpl.
  - by rewrite app_nil_r.
  - rewrite IH. unfold After. rewrite filter_cons.
    destruct (Z.ltb_spec cutoff ts); case_decide; try lia.
    + by rewrite <- app_assoc.
    + done.
Qed.

Lemma prune_filter cutoff l :
  prune cutoff l = filter (fun ts => ¬ ts <= cutoff) l.
Proof. unfold prune. by rewrite prune_loop. Qed.

(** Apart from the least duration, the negation is the opposite. *)
Lemma neg_opp d : d ≠ minDuration -> neg d = - d.
Proof. intros Hd. unfold neg. by destruct (Z.eqb_spec d minDuration). Qed.

Lemma neg_le d : neg d <= - d.
Proof. unfold neg, minDuration. destruct (Z.eqb_spec d (- 2 ^ 63)); lia. Qed.

(** Within the range of a duration [Sub] is the difference. *)
Lemma Sub_exact t u : minDuration <= t - u <= maxDuration -> Sub t u = t - u.
Proof. unfold Sub. lia. Qed.

Lemma prune_remaining rl now key :
  window rl ≠ minDuration ->
  prune (now + neg (window rl)) (requests rl !!! key) = remaining rl now key.
Proof.
  intros Hw. rewrite prune_filter, neg_opp by done. unfold remaining.
  by replace (now + - window rl) with (now - window rl) by lia.
Qed.

(** On a sorted sequence the cleaning loop cuts a prefix off. *)
Lemma filter_sorted_suffix cutoff (l : list Z) :
  StronglySorted Z.le l ->
  filter (fun ts => ¬ ts <= cutoff) l `suffix_of` l.
Proof.
  induction 1 as [|x l Hs IH Hx]; [done|].
  rewrite filter_cons. case_decide as Hc.
  - assert (filter (fun ts => ¬ ts <= cutoff) l = l) as ->; [|done].
    clear IH Hs. induction l as [|y l IH]; [done|].
    inversion Hx; subst. rewrite filter_cons. case_decide; [|lia].
    f_equal. by apply IH.
  - by apply suffix_cons_r.
Qed.

Lemma sorted_suffix (l1 l2 : list Z) :
  l1 `suffix_of` l2 -> StronglySorted Z.le l2 -> StronglySorted Z.le l1.
Proof.
  intros [k ->] Hs. induction k as [|x k IH]; [done|].
  simpl in Hs. inversion Hs; subst. by apply IH.
Qed.

Lemma sorted_snoc (l : list Z) (x : Z) :
  StronglySorted Z.le l -> Forall (fun y => y <= x) l ->
  StronglySorted Z.le (l ++ [x]).
Proof.
  induction 1 as [|y l Hs IH Hy]; intros Hle; simpl.
  - repeat constructor.
  - inversion Hle; subst. constructor; [by apply IH|].
    apply Forall_app; split; [done|]. by constructor.
Qed.

Lemma sorted_head_oldest (x : Z) (l : list Z) :
  StronglySorted Z.le (x :: l) -> is_oldest x (x :: l).
Proof.
  intros Hs. inversion Hs; subst. split; [by left|].
  constructor; [lia|done].
Qed.

Lemma lookup_set_requests rl k l k' :
  requests (set_requests rl k l) !!! k'
  = if decide (k = k') then l else requests rl !!! k'.
Proof.
  unfold set_requests; simpl. case_decide as Hk.
  - subst. by rewrite lookup_total_insert_eq.
  - by rewrite lookup_total_insert_ne.
Qed.

Lemma sequences_ok_new lim win t : sequences_ok (NewRateLimiter lim win) t.
Proof.
  intros key. unfold NewRateLimiter; simpl. rewrite lookup_total_empty.
  split; constructor.
Qed.

Lemma sequences_ok_mono rl t t' : sequences_ok rl t -> t <= t' -> sequences_ok rl t'.
Proof.
  intros H Ht key. destruct (H key) as [Hs Hb]. split; [done|].
  eapply Forall_impl; [exact Hb|]. simpl. lia.
Qed.

(** What [Allow] stores, as a function of the cleaned sequence. *)
Lemma Allow_stored rl now k :
  let valid := prune (now + neg (window rl)) (requests rl !!! k) in
  (Allow rl now k).2 = rl
  ∨ (Allow rl now k).2 = set_requests rl k valid
  ∨ (Allow rl now k).2 = set_requests rl k (valid ++ [now]).
Proof.
  simpl. unfold Allow, check. simpl.
  destruct (_ <=? _); [|by right; right].
  destruct (prune _ _) eqn:E; [by left|by right; left].
Qed.

Lemma sequences_ok_Allow rl t now k :
  sequences_ok rl t -> t <= now -> sequences_ok (Allow rl now k).2 now.
Proof.
  intros Hok Hle.
  assert (Hv : StronglySorted Z.le (prune (now + neg (window rl)) (requests rl !!! k))
               ∧ Forall (fun ts => ts <= now) (prune (now + neg (window rl)) (requests rl !!! k))).
  { destruct (Hok k) as [Hs Hb]. rewrite prune_filter. split.
    - eapply sorted_suffix; [by apply filter_sorted_suffix|done].
    - apply Forall_forall. intros x [_ Hx]%list_elem_of_filter.
      rewrite Forall_forall in Hb. specialize (Hb x Hx). simpl in Hb. lia. }
  destruct Hv as [Hvs Hvb].
  destruct (Allow_stored rl now k) as [-> | [-> | ->]].
  - by eapply sequences_ok_mono.
  - intros k'. rewrite lookup_set_requests. case_decide; [done|].
    by apply (sequences_ok_mono rl t now).
  - intros k'. rewrite lookup_set_requests. case_decide.
    + split; [by apply sorted_snoc|].
      apply Forall_app; split; [done|]. constructor; [lia|done].
    + by apply (sequences_ok_mono rl t now).
Qed.

Lemma reachable_ok rl t : reachable rl t -> sequences_ok rl t.
Proof.
  induction 1 as [lim win t | rl t now k Hr IH Hle].
  - apply sequences_ok_new.
  - by eapply sequences_ok_Allow.
Qed.

(** *** Admission decision *)

(** Limit 2, window 10: two admissions at 3 and 4, a denial at 5 with
    [3 + 10 - 5] to wait, and an admission again once that has passed. *)
Example third_call_denied :
  let rl := (Allow (Allow (NewRateLimiter 2 10) 3 "u").2 4 "u").2 in
  Allow rl 5 "u" = (Returned false 8, rl)
  ∧ (Allow rl 13 "u").1 = Returned true 0
  ∧ requests (Allow rl 13 "u").2 !!! "u" = [4; 13]
  ∧ (Allow rl 5 "v").1 = Returned true 0.
Proof. vm_compute. repeat split; reflexivity. Qed.

Lemma check_admits lim win now (l : list Z) :
  Z.of_nat (length (prune (now + neg win) l)) < lim ->
  check lim win now l = (Returned true 0, Some (prune (now + neg win) l ++ [now])).
Proof.
  intros H. unfold check. cbv zeta.
  destruct (Z.leb_spec lim (Z.of_nat (length (prune (now + neg win) l)))); [lia|done].
Qed.

Lemma check_denies lim win now (l : list Z) v0 valid :
  prune (now + neg win) l = v0 :: valid ->
  lim <= Z.of_nat (length (v0 :: valid)) ->
  check lim win now l = (Returned false (Sub (v0 + win) now), Some (v0 :: valid)).
Proof.
  intros E H. unfold check. cbv zeta. rewrite E.
  destruct (Z.leb_spec lim (Z.of_nat (length (v0 :: valid)))); [done|lia].
Qed.

Lemma check_panics lim win now (l : list Z) :
  prune (now + neg win) l = [] -> lim <= 0 ->
  check lim win now l = (Panicked, None).
Proof.
  intros E H. unfold check. cbv zeta. rewrite E.
  change (Z.of_nat (length (@nil Z))) with 0.
  destruct (Z.leb_spec lim 0); [done|lia].
Qed.

(** X29: [Allow] does what the design document says whenever the limit is
    at least 1 and the window is a duration other than the least one.  In
    every state of such a limiter, [Allow] drops the timestamps at or
    before [now - window]; when fewer than [limit] remain it records [now]
    and returns [(true, 0)]; otherwise it stores the remaining ones only
    and returns [(false, retryAfter)] with [retryAfter] the oldest
    remaining timestamp plus [window] minus [now]. *)
Theorem Allow_meets_spec rl t now key :
  reachable rl t -> t <= now -> 0 < limit rl ->
  minDuration < window rl <= maxDuration ->
  Allow_as_specified rl now key (Allow rl now key).
Proof.
  intros Hr Hle Hlim Hwin. unfold Allow_as_specified.
  assert (Hw : window rl ≠ minDuration) by lia.
  rewrite <- prune_remaining by done. unfold Allow. cbv zeta.
  case_decide as Hc.
  - rewrite check_admits by done. reflexivity.
  - destruct (prune (now + neg (window rl)) (requests rl !!! key)) as [|v0 valid] eqn:E.
    { simpl in Hc. lia. }
    exists v0. split.
    + apply sorted_head_oldest. rewrite <- E, prune_filter.
      eapply sorted_suffix; [apply filter_sorted_suffix|];
        apply (reachable_ok rl t Hr key).
    + rewrite (check_denies _ _ _ _ v0 valid E) by lia.
      rewrite Sub_exact; [done|].
      assert (Hin : v0 ∈ prune (now + neg (window rl)) (requests rl !!! key))
        by (rewrite E; left).
      rewrite prune_filter, neg_opp in Hin by done.
      apply list_elem_of_filter in Hin as [Hlow Hin].
      destruct (reachable_ok rl t Hr key) as [_ Hb].
      rewrite Forall_forall in Hb. specialize (Hb v0 Hin). simpl in Hb.
      unfold minDuration, maxDuration in *. lia.
Qed.

Lemma Allow_meets_spec_witness :
  let rl := (Allow (NewRateLimiter 1 10) 3 "u").2 in
  reachable rl 3 ∧ 3 <= 5 ∧ 0 < limit rl
  ∧ minDuration < window rl <= maxDuration
  ∧ Allow_as_specified rl 5 "u" (Allow rl 5 "u").
Proof.
  assert (Hr : reachable (Allow (NewRateLimiter 1 10) 3 "u").2 3).
  { apply (reach_allow _ 0); [constructor | lia]. }
  split; [exact Hr|]. split; [lia|]. split; [reflexivity|].
  split; [by vm_compute|].
  apply (Allow_meets_spec _ 3); [exact Hr | lia | reflexivity | by vm_compute].
Defined.

(** C1: the code departs from the claim, and from the comment of [Allow],
    which promises [(true, 0)] or [(false, retryAfter)].  On a limiter
    built with limit 0 the first call finds nothing to keep, compares
    [0 >= 0] and indexes [valid[0]]: it panics.  On a limiter built with
    limit 1 and the least duration as window, [-rl.window] wraps to the
    window itself, so that no timestamp is dropped: the second call is
    denied, with the least duration to wait, although no recorded
    timestamp lies after [now - window]. *)
Lemma Allow_breaks_its_promise :
  (reachable (NewRateLimiter 0 60) 0
   ∧ Allow (NewRateLimiter 0 60) 0 "u" = (Panicked, NewRateLimiter 0 60)
   ∧ ¬ Allow_as_specified (NewRateLimiter 0 60) 0 "u"
         (Allow (NewRateLimiter 0 60) 0 "u"))
  ∧ (let rl := (Allow (NewRateLimiter 1 minDuration) 5 "u").2 in
     reachable rl 5
     ∧ requests rl !!! "u" = [5]
     ∧ remaining rl 7 "u" = []
     ∧ Allow rl 7 "u" = (Returned false minDuration, rl)
     ∧ ¬ Allow_as_specified rl 7 "u" (Allow rl 7 "u")).
Proof.
  split.
  - split; [constructor|]. split; [reflexivity|].
    unfold Allow_as_specified. case_decide as Hc.
    + vm_compute in Hc. discriminate.
    + intros (o & _ & Heq). discriminate Heq.
  - cbv zeta.
    assert (Hr : reachable (Allow (NewRateLimiter 1 minDuration) 5 "u").2 5).
    { apply (reach_allow _ 0); [constructor | lia]. }
    assert (Hrem : remaining (Allow (NewRateLimiter 1 minDuration) 5 "u").2 7 "u" = [])
      by (vm_compute; reflexivity).
    split; [exact Hr|]. split; [vm_compute; reflexivity|]. split; [exact Hrem|].
    split; [vm_compute; reflexivity|].
    unfold Allow_as_specified. rewrite Hrem. case_decide as Hc.
    + intros Heq. vm_compute in Heq. discriminate Heq.
    + vm_compute in Hc. contradiction Hc. reflexivity.
Qed.

(** A limiter built with a limit below 1 never records anything, and every
    call on it panics. *)
Lemma no_limit_nothing_recorded rl t :
  reachable rl t -> limit rl <= 0 ->
  (∀ key, requests rl !!! key = []) ∧ ∀ now key, Allow rl now key = (Panicked, rl).
Proof.
  assert (Hstep : ∀ rl, limit rl <= 0 -> (∀ key, requests rl !!! key = []) ->
            ∀ now key, Allow rl now key = (Panicked, rl)).
  { intros rl0 Hl He now key. unfold Allow. cbv zeta. rewrite He.
    by rewrite check_panics. }
  induction 1 as [lim win t | rl t now k Hr IH Hle]; intros Hlim.
  - assert (He : ∀ key, requests (NewRateLimiter lim win) !!! key = [])
      by (intros key; unfold NewRateLimiter; simpl; by rewrite lookup_total_empty).
    split; [exact He|]. by apply Hstep.
  - assert (Hl : limit rl <= 0).
    { destruct (Allow_stored rl now k) as [E | [E | E]]; rewrite E in Hlim; exact Hlim. }
    destruct (IH Hl) as [He Hp]. rewrite Hp in *. simpl in *.
    split; [exact He|]. by apply Hstep.
Qed.

(** *** Order of the recorded timestamps *)

(** C9: in every state of a limiter the sequence recorded for each key is
    sorted ascending, and a call of [Allow] made at a clock reading that is
    not earlier than the previous ones keeps it so: the cleaned sequence is
    a suffix of the recorded one, what is stored is that suffix, possibly
    with [now] appended at its end, and no other key is touched. *)
Theorem sequences_stay_sorted rl t now key :
  reachable rl t -> t <= now ->
  let valid := prune (now + neg (window rl)) (requests rl !!! key) in
  let rl' := (Allow rl now key).2 in
  (∀ k, StronglySorted Z.le (requests rl !!! k))
  ∧ valid `suffix_of` (requests rl !!! key)
  ∧ (rl' = rl ∨ requests rl' !!! key = valid
     ∨ requests rl' !!! key = valid ++ [now])
  ∧ (∀ k, k ≠ key -> requests rl' !!! k = requests rl !!! k)
  ∧ (∀ k, StronglySorted Z.le (requests rl' !!! k)).
Proof.
  intros Hr Hle valid rl'.
  pose proof (reachable_ok rl t Hr) as Hok.
  split; [intros k; apply Hok|].
  split. { subst valid. rewrite prune_filter. apply filter_sorted_suffix, Hok. }
  split.
  { subst rl' valid. destruct (Allow_stored rl now key) as [-> | [-> | ->]];
      [by left | right; left | right; right];
      rewrite lookup_set_requests; by case_decide. }
  split.
  { intros k Hk. subst rl'.
    destruct (Allow_stored rl now key) as [-> | [-> | ->]]; [done| |];
      rewrite lookup_set_requests; by case_decide. }
  intros k. apply (sequences_ok_Allow rl t now key Hok Hle).
Qed.

Lemma sequences_stay_sorted_witness :
  let rl := (Allow (Allow (NewRateLimiter 2 10) 3 "u").2 4 "u").2 in
  reachable rl 4 ∧ 4 <= 13
  ∧ prune (13 + neg (window rl)) (requests rl !!! "u") = [4]
  ∧ requests (Allow rl 13 "u").2 !!! "u" = [4; 13]
  ∧ StronglySorted Z.le (requests (Allow rl 13 "u").2 !!! "u").
Proof.
  assert (Hr : reachable (Allow (Allow (NewRateLimiter 2 10) 3 "u").2 4 "u").2 4).
  { apply (reach_allow _ 3); [|lia]. apply (reach_allow _ 0); [constructor|lia]. }
  split; [exact Hr|]. split; [lia|]. split; [reflexivity|]. split; [reflexivity|].
  apply (sequences_stay_sorted _ 4 13 "u" Hr). lia.
Defined.

End LimiterFacts.

(** ** Properties of concurrent calls of [Allow] *)

Module ConcurrentFacts.
Import Limiter LimiterFacts Concurrent.

(** *** Counting goroutines *)

Lemma count_insert p (l : list goroutine) (i : nat) g g' :
  l !! i = Some g ->
  (count p (<[i := g']> l) + Nat.b2n (p g) = count p l + Nat.b2n (p g'))%nat.
Proof.
  revert i. induction l as [|a l IH]; intros [|i] H; simplify_eq/=.
  - destruct (p g), (p g'); simpl; lia.
  - specialize (IH i H). lia.
Qed.

Lemma count_pos p (l : list goroutine) (i : nat) g :
  l !! i = Some g -> p g = true -> (1 <= count p l)%nat.
Proof.
  revert i. induction l as [|a l IH]; intros [|i] H Hp; simplify_eq/=.
  - rewrite Hp. lia.
  - specialize (IH i H Hp). lia.
Qed.

Lemma count_one_unique p (l : list goroutine) (i j : nat) g g' :
  count p l = 1%nat ->
  l !! i = Some g -> p g = true -> l !! j = Some g' -> p g' = true -> i = j.
Proof.
  revert i j. induction l as [|a l IH]; intros [|i] [|j] Hc Hi Hg Hj Hg';
    simplify_eq/=; try done.
  - rewrite Hg in Hc. pose proof (count_pos p l j g' Hj Hg'). lia.
  - rewrite Hg' in Hc. pose proof (count_pos p l i g Hi Hg). lia.
  - f_equal. apply IH; try done. pose proof (count_pos p l i g Hi Hg).
    destruct (p a); simpl in Hc; lia.
Qed.

Lemma count_replicate p (n : nat) g :
  p g = false -> count p (replicate n g) = 0%nat.
Proof. intros Hp. induction n as [|n IH]; simpl; [done|]. by rewrite Hp, IH. Qed.

Section Invariant.
Variable userID : string.
Variables (L W t0 : Z) (N : nat).
Hypothesis L_pos : 0 < L.

Local Abbreviation inv := (inv userID L W t0 N).
Local Abbreviation local_ok := (local_ok userID t0).
Local Abbreviation mkInv := (mkInv userID L W t0 N).

Lemma inv_start : inv (start L W N t0).
Proof.
  unfold start. split; simpl; rewrite ?lookup_total_empty; simpl;
    rewrite ?count_replicate by done.
  1-3,5-7,9-10: done || lia.
  - apply length_replicate.
  - by left.
  - intros i g [-> _]%lookup_replicate. exact I.
Qed.

(** For a clock reading made less than [W] after the start, nothing
    recorded since the start has expired. *)
Lemma prune_keeps_all now (l : list Z) :
  Forall (fun ts => t0 <= ts) l -> now - t0 < W -> prune (now + neg W) l = l.
Proof.
  intros Hl Hn. rewrite prune_filter.
  assert (Hc : now + neg W < t0).
  { unfold neg, minDuration in *. destruct (Z.eqb_spec W (- 2 ^ 63)); lia. }
  induction Hl as [|x l Hx Hl IH]; [done|].
  rewrite filter_cons. case_decide; [|lia]. by rewrite IH.
Qed.

(** The others are outside the critical section when one is inside. *)
Lemma others_outside c (i j : nat) g g' :
  inv c -> pool c !! i = Some g -> in_cs g = true ->
  j ≠ i -> pool c !! j = Some g' -> in_cs g' = false.
Proof.
  intros Hinv Hi Hg Hne Hj. destruct (in_cs g') eqn:E; [|done].
  exfalso. apply Hne. symmetry.
  apply (count_one_unique in_cs (pool c) i j g g'); try done.
  pose proof (inv_mut _ _ _ _ _ c Hinv) as Hm. pose proof (count_pos in_cs _ _ _ Hi Hg).
  destruct (locked c); simpl in Hm; lia.
Qed.

Lemma local_ok_outside c c' g : in_cs g = false -> local_ok c g -> local_ok c' g.
Proof. by destruct g. Qed.

Ltac counts Hi g' :=
  pose proof (count_insert adm _ _ _ g' Hi);
  pose proof (count_insert den _ _ _ g' Hi);
  pose proof (count_insert pan _ _ _ g' Hi);
  pose proof (count_insert in_cs _ _ _ g' Hi).

(** The goroutine that moved satisfies [tac]; the others keep [Hloc]. *)
Ltac moved Hloc Hi i tac :=
  let j := fresh "j" in let gj := fresh "gj" in let Hj := fresh "Hj" in
  intros j gj Hj; destruct (decide (j = i)) as [->|?];
  [ rewrite list_lookup_insert_eq in Hj by (by eapply lookup_lt_Some);
    simplify_eq; simpl; tac
  | rewrite list_lookup_insert_ne in Hj by done; by apply Hloc in Hj ].

Lemma inv_step c c' :
  inv c -> Forall (early W t0) (pool c) -> step userID c c' -> inv c'.
Proof.
  intros Hinv Hearly Hstep.
  destruct Hinv as [Hlim Hwin Hck Hlen Hrng Hadm Hcap Hden Hpan Hmut Hloc].
  pose proof (mkInv c Hlim Hwin Hck Hlen Hrng Hadm Hcap Hden Hpan Hmut Hloc) as Hinv.
  assert (HlenN : (length (pool c) <= N <= length (pool c))%nat) by lia.
  clear Hlen. revert Hlim Hwin.
  inversion Hstep as [c0 d Hd | c0 i g mu' rl' g' Hi Hg]; subst; simpl in *;
    intros Hlim Hwin.
  - (* time passes *)
    split; simpl; [done|done|lia|lia|done|done|done|done|done|done|].
    intros i g Hi. specialize (Hloc i g Hi).
    destruct g; simpl in *; try done; [lia | destruct Hloc; split; [lia|done]].
  - assert (Hothers : ∀ (j : nat) gj, in_cs g = true -> j ≠ i ->
               pool c !! j = Some gj -> in_cs gj = false).
    { intros j gj Hin Hne Hj. by apply (others_outside c i j g gj). }
    pose proof (Hloc i g Hi) as Hlg.
    assert (Hrest : ∀ (j : nat) gj c2, in_cs g = true ->
              <[i := g']> (pool c) !! j = Some gj -> j ≠ i -> local_ok c2 gj).
    { intros j gj c2 Hin Hj Hne. rewrite list_lookup_insert_ne in Hj by done.
      apply (local_ok_outside c); [by apply (Hothers j)|by apply Hloc in Hj]. }
    assert (Hme : ∀ (j : nat) gj, <[i := g']> (pool c) !! j = Some gj ->
              gj = g' ∨ j ≠ i).
    { intros j gj Hj. destruct (decide (j = i)) as [->|Hne]; [left|by right].
      rewrite list_lookup_insert_eq in Hj by (by eapply lookup_lt_Some).
      by simplify_eq. }
    counts Hi g'.
    revert Hlim Hwin. inversion Hg; subst; simpl in *; intros Hlim Hwin.
    + (* Lock *)
      split; simpl;
        [done|done|done|rewrite length_insert; lia|done|lia|done| |lia| |].
      * destruct Hden; [left|right]; lia.
      * match goal with H : false = locked c |- _ => rewrite <- H in Hmut end.
        simpl in Hmut. lia.
      * moved Hloc Hi i done.
    + (* time.Now() *)
      split; simpl;
        [done|done|done|rewrite length_insert; lia|done|lia|done| |lia|lia|].
      * destruct Hden; [left|right]; lia.
      * moved Hloc Hi i lia.
    + (* reading the map *)
      split; simpl;
        [done|done|done|rewrite length_insert; lia|done|lia|done| |lia|lia|].
      * destruct Hden; [left|right]; lia.
      * moved Hloc Hi i ltac:(by split).
    + (* the loop, the test and the store *)
      destruct Hlg as [Hnow ->].
      assert (Hp : prune (now + neg (window (shared c))) (requests (shared c) !!! userID)
                   = requests (shared c) !!! userID).
      { rewrite Hwin. apply prune_keeps_all; [done|].
        apply (Forall_lookup_1 _ _ _ _ Hearly Hi). }
      destruct (decide (L <= Z.of_nat (length (requests (shared c) !!! userID))))
        as [Hfull|Hfree].
      * (* denied *)
        destruct (requests (shared c) !!! userID) as [|v0 rest] eqn:E.
        { simpl in Hfull. lia. }
        assert (Hchk : check (limit (shared c)) (window (shared c)) now (v0 :: rest)
                       = (Returned false (Sub (v0 + window (shared c)) now), Some (v0 :: rest))).
        { apply check_denies; [done|lia]. }
        rewrite Hchk in *. simpl in *.
        assert (Hsame : requests (set_requests (shared c) userID (v0 :: rest)) !!! userID
                        = v0 :: rest).
        { rewrite lookup_set_requests. by case_decide. }
        split; simpl; rewrite ?lookup_total_insert_eq;
          [done|done|done|rewrite length_insert; lia|done| |done| |lia|lia|].
        -- simpl in *. lia.
        -- right. simpl in *. lia.
        -- intros j gj Hj. destruct (Hme j gj Hj) as [->|Hne]; [done|].
           by apply (Hrest j).
      * (* admitted *)
        assert (Hchk : check (limit (shared c)) (window (shared c)) now
                         (requests (shared c) !!! userID)
                       = (Returned true 0,
                          Some (requests (shared c) !!! userID ++ [now]))).
        { pose proof (check_admits (limit (shared c)) (window (shared c)) now
                        (requests (shared c) !!! userID)) as Hc.
          rewrite Hp in Hc. apply Hc. lia. }
        rewrite Hchk in *. simpl in *.
        assert (Hsame : requests (set_requests (shared c) userID
                          (requests (shared c) !!! userID ++ [now])) !!! userID
                        = requests (shared c) !!! userID ++ [now]).
        { rewrite lookup_set_requests. by case_decide. }
        split; simpl; rewrite ?lookup_total_insert_eq, ?length_app; simpl;
          [done|done|done|rewrite length_insert; lia| |lia|lia| |lia|lia|].
        -- apply Forall_app. split; [done|]. constructor; [lia|done].
        -- destruct Hden; [left|]; lia.
        -- intros j gj Hj. destruct (Hme j gj Hj) as [->|Hne]; [done|].
           by apply (Hrest j).
    + (* the deferred Unlock *)
      split; simpl;
        [done|done|done|rewrite length_insert; lia|done| |done| | | |].
      * destruct o as [[] ?|]; simpl in *; lia.
      * destruct o as [[] ?|]; simpl in *; (destruct Hden; [left|right]; lia).
      * destruct o as [[] ?|]; simpl in *; lia.
      * match goal with H : true = locked c |- _ => rewrite <- H in Hmut end.
        simpl in Hmut. lia.
      * moved Hloc Hi i done.
Qed.

End Invariant.

(** *** Runs *)

Lemma step_clock userID c c' : step userID c c' -> clock c <= clock c'.
Proof. inversion 1; subst; simpl; lia. Qed.

Lemma gexec_sound userID clk mu rl g mu' rl' g' :
  gexec userID clk mu rl g = Some (mu', rl', g') ->
  gstep userID clk mu rl g mu' rl' g'.
Proof.
  destruct g; simpl; intros H; try destruct mu; simplify_eq; constructor.
Qed.

Lemma exec_sound userID a c c' :
  exec userID a c = Some c' -> step userID c c'.
Proof.
  destruct a as [d|i]; simpl.
  - destruct (Z.leb_spec 0 d); intros Hs; simplify_eq. by constructor.
  - destruct (pool c !! i) as [g|] eqn:Hi; [|done].
    destruct (gexec userID (clock c) (locked c) (shared c) g)
      as [[[mu' rl'] g']|] eqn:Hg; intros Hs; simplify_eq.
    eapply step_go; [done|]. by apply gexec_sound.
Qed.

Lemma run_sound userID s c c' :
  run userID s c = Some c' -> rtc (step userID) c c'.
Proof.
  revert c. induction s as [|a s IH]; intros c; simpl.
  - intros H; simplify_eq. constructor.
  - destruct (exec userID a c) as [c1|] eqn:E; [|done].
    intros H. eapply rtc_l; [eapply exec_sound; exact E|by apply IH].
Qed.

(** A goroutine cannot take the mutex while another holds it. *)
Example lock_blocks :
  run "u" [Go 0; Go 1]%nat (start 1 60 2 0) = None
  ∧ run "u" [Go 0; Go 0; Go 0; Go 0; Go 0; Go 1]%nat (start 1 60 2 0)
    = Some (mkConfig 0 true (mkRateLimiter 1 60 (<["u" := [0]]> ∅))
              [Done (Returned true 0); AtNow]).
Proof. split; vm_compute; reflexivity. Qed.

(** A goroutine scheduled alone from [Lock] to the deferred [Unlock]
    performs exactly the sequential [Allow] at the clock reading it took. *)
Lemma critical_section_is_Allow userID c (i : nat) :
  locked c = false -> pool c !! i = Some AtLock ->
  run userID [Go i; Go i; Go i; Go i; Go i] c
  = Some (mkConfig (clock c) false (Allow (shared c) (clock c) userID).2
            (<[i := Done (Allow (shared c) (clock c) userID).1]> (pool c))).
Proof.
  intros Hmu Hi. pose proof (lookup_lt_Some _ _ _ Hi) as Hlt.
  unfold run, exec. simpl. rewrite Hi, Hmu. simpl.
  rewrite list_lookup_insert_eq by done. simpl.
  rewrite list_lookup_insert_eq by (by rewrite length_insert). simpl.
  rewrite list_lookup_insert_eq by (by rewrite !length_insert). simpl.
  rewrite list_lookup_insert_eq by (by rewrite !length_insert). simpl.
  by rewrite !list_insert_insert_eq.
Qed.

Lemma finished_counts (l : list goroutine) :
  Forall (fun g => ∃ o, g = Done o) l ->
  count got_true l = count adm l ∧ count got_false l = count den l
  ∧ (count adm l + count den l + count pan l = length l)%nat.
Proof.
  induction 1 as [|g l [o ->] _ (IH1 & IH2 & IH3)]; simpl; [done|].
  rewrite IH1, IH2. destruct o as [[] ?|]; simpl; repeat split; lia.
Qed.

Lemma count_le p q (l : list goroutine) :
  (∀ g, p g = true -> q g = true) -> (count p l <= count q l)%nat.
Proof.
  intros H. induction l as [|g l IH]; simpl; [lia|].
  specialize (H g). destruct (p g), (q g); simpl; try lia.
Qed.

(** Every run is the run of a schedule. *)
Lemma step_exec userID c c' :
  step userID c c' -> ∃ a, exec userID a c = Some c'.
Proof.
  intros [c0 d Hd | c0 i g mu' rl' g' Hi Hg].
  - exists (Tick d). simpl. by destruct (Z.leb_spec 0 d); [|lia].
  - exists (Go i). simpl. rewrite Hi.
    by destruct Hg; simpl; try match goal with |- context [locked ?c] =>
      destruct (locked c) end.
Qed.

Lemma every_run_has_a_schedule userID c c' :
  rtc (step userID) c c' -> ∃ s, run userID s c = Some c'.
Proof.
  induction 1 as [c|c c1 c2 Hstep _ [s Hs]].
  - by exists [].
  - destruct (step_exec _ _ _ Hstep) as [a Ha].
    exists (a :: s). simpl. by rewrite Ha.
Qed.

(** A step keeps the readings held early, when the reading it makes is. *)
Lemma early_exec userID W t0 a c c' :
  exec userID a c = Some c' ->
  Forall (early W t0) (pool c) ->
  Forall (fun now => now - t0 < W) (reading a c) ->
  Forall (early W t0) (pool c').
Proof.
  destruct a as [d|i]; simpl.
  - destruct (0 <=? d); intros H; simplify_eq. done.
  - destruct (pool c !! i) as [g|] eqn:Hi; [|done].
    destruct (gexec userID (clock c) (locked c) (shared c) g)
      as [[[mu' rl'] g']|] eqn:Hg; intros H Hearly Hread; simplify_eq.
    simpl. apply Forall_insert; [done|].
    pose proof (Forall_lookup_1 _ _ _ _ Hearly Hi) as Hme.
    destruct g as [| |now|now ts|o|o]; simpl in Hg, Hme, Hread;
      try destruct (locked c); simplify_eq; simpl; try done.
    all: by apply Forall_inv in Hread.
Qed.

Lemma run_inv userID L W t0 N s c c' :
  0 < L ->
  inv userID L W t0 N c -> Forall (early W t0) (pool c) ->
  run userID s c = Some c' ->
  Forall (fun now => now - t0 < W) (readings userID s c) ->
  inv userID L W t0 N c'.
Proof.
  intros HL. revert c. induction s as [|a s IH]; intros c Hinv Hearly; simpl.
  { by intros [= <-]. }
  destruct (exec userID a c) as [c1|] eqn:E; [|done].
  intros Hrun Hread. apply Forall_app in Hread as [Hr1 Hr2].
  apply (IH c1); [|by eapply early_exec|done|done].
  apply (inv_step userID L W t0 N HL c c1); [done|done|by eapply exec_sound].
Qed.

(** C8 (as amended): when the limit [L] is at least 1 and every clock
    reading made by the calls is less than the window after the start,
    goroutines calling [Allow] for one key on a fresh limiter are, under
    every schedule, never more than one at a time past [Lock] and never
    more than [L] to get true; and when there are [N > L] of them and all
    have returned, exactly [L] got true and [N - L] got false.  The clock
    itself may move by more than the window while a goroutine that has
    read it is held back. *)
Theorem concurrent_admissions userID L W N t0 s c :
  0 < L ->
  run userID s (start L W N t0) = Some c ->
  Forall (fun now => now - t0 < W) (readings userID s (start L W N t0)) ->
  (count in_cs (pool c) <= 1)%nat
  ∧ Z.of_nat (count got_true (pool c)) <= L
  ∧ (finished c -> L < Z.of_nat N ->
       Z.of_nat (count got_true (pool c)) = L
       ∧ Z.of_nat (count got_false (pool c)) = Z.of_nat N - L).
Proof.
  intros HL Hrun Hread.
  assert (Hearly : Forall (early W t0) (pool (start L W N t0))).
  { simpl. apply Forall_forall. by intros g [-> _]%elem_of_replicate. }
  destruct (run_inv userID L W t0 N s _ c HL (inv_start userID L W t0 N HL)
              Hearly Hrun Hread)
    as [_ _ _ Hlen _ Hadm Hcap Hden Hpan Hmut _].
  split; [rewrite Hmut; destruct (locked c); simpl; lia|].
  split.
  - assert (count got_true (pool c) <= count adm (pool c))%nat; [|lia].
    apply count_le. by intros [| | | | |[[] ?|]].
  - intros Hfin HN.
    destruct (finished_counts (pool c) Hfin) as (-> & -> & Hsum).
    rewrite Hadm in *. destruct Hden as [Hden|Hden]; lia.
Qed.

Lemma concurrent_admissions_witness :
  ∃ c, run "u" schedule_held (start 1 60 2 0) = Some c
    ∧ readings "u" schedule_held (start 1 60 2 0) = [0; 0]
    ∧ clock c - 0 = 60
    ∧ finished c
    ∧ Z.of_nat (count got_true (pool c)) = 1
    ∧ Z.of_nat (count got_false (pool c)) = Z.of_nat 2 - 1.
Proof.
  eexists. split; [vm_compute; reflexivity|].
  assert (Hfin : finished (mkConfig 60 false
            (mkRateLimiter 1 60 (<["u" := [0]]> ∅))
            [Done (Returned true 0); Done (Returned false 60)])).
  { repeat constructor; by eexists. }
  split; [reflexivity|]. split; [reflexivity|]. split; [exact Hfin|].
  apply (concurrent_admissions "u" 1 60 2 0 schedule_held);
    [lia|vm_compute; reflexivity| |exact Hfin|simpl; lia].
  repeat constructor.
Defined.

(** C8 as first stated fails once a call reads the clock a window after
    another: with limit 1 and a window of 1000ns, a second goroutine that
    takes the mutex and reads the clock 1000ns after the first finds the
    first timestamp expired and is admitted too. *)
Lemma both_admitted_after_window :
  (∃ c, run "u" schedule_late (start 1 1000 2 0) = Some c
      ∧ readings "u" schedule_late (start 1 1000 2 0) = [0; 1000]
      ∧ rtc (step "u") (start 1 1000 2 0) c ∧ finished c
      ∧ pool c = [Done (Returned true 0); Done (Returned true 0)]
      ∧ count got_true (pool c) = 2%nat)
  ∧ ¬ admits_exactly "u" 1 1000 2.
Proof.
  assert (E : run "u" schedule_late (start 1 1000 2 0)
              = Some (mkConfig 1000 false
                        (mkRateLimiter 1 1000 (<["u" := [1000]]> ∅))
                        [Done (Returned true 0); Done (Returned true 0)])).
  { vm_compute. reflexivity. }
  pose proof (run_sound "u" schedule_late _ _ E) as Hrun.
  assert (Hfin : finished (mkConfig 1000 false
                        (mkRateLimiter 1 1000 (<["u" := [1000]]> ∅))
                        [Done (Returned true 0); Done (Returned true 0)])).
  { repeat constructor; by eexists. }
  split.
  - eexists. split; [exact E|]. split; [vm_compute; reflexivity|].
    split; [exact Hrun|]. split; [exact Hfin|]. split; reflexivity.
  - intros H. destruct (H 0 _ Hrun Hfin) as [Ht _]. vm_compute in Ht. discriminate.
Qed.

End ConcurrentFacts.

(** ** Properties of the completion client *)

Module ClientFacts.
Import Client.

(** *** What [call] leaves in the world *)

Lemma call_logs env c messages tools w :
  calls (call env c messages tools w).2 = calls w ++ [(messages, tools)]
  ∧ searches (call env c messages tools w).2 = searches w.
Proof.
  unfold call, bind, log_call, lift, send, fail, ret. simpl.
  destruct (json_Marshal env _) as [e|body]; simpl; [done|].
  destruct (http_NewRequest env _ _ _) as [e|]; simpl; [done|].
  destruct (http_Do env _ _) as [e|st e|st body']; simpl; [done|done|].
  destruct (negb _); simpl; [done|].
  by destruct (json_Unmarshal_chatResponse env _).
Qed.

Lemma call_calls env c messages tools w r w' :
  call env c messages tools w = (r, w') ->
  calls w' = calls w ++ [(messages, tools)] ∧ searches w' = searches w.
Proof. intros H. pose proof (call_logs env c messages tools w) as L. by rewrite H in L. Qed.

(** *** The tool round *)

Section ToolRound.
Variables (env : Env) (c : Client).
Variables (messages : list Message.t) (tools : list ToolDef.t).
Variables (w w1 : world) (resp : chatResponse.t).
Variables (msg : Message.t) (rest : list Message.t).
Hypothesis first_call : call env c messages tools w = (inr resp, w1).
Hypothesis first_choice : chatResponse.Choices resp = msg :: rest.

Lemma Complete_no_round searchFn :
  match Message.ToolCalls msg, searchFn with
  | tc :: _, Some _ =>
      FunctionCall.Name (ToolCall.Function_ tc) ≠ "search_internet"
  | _, _ => True
  end ->
  Complete env c messages tools searchFn w
  = (inr (CompletionResult.mk (Message.Content msg) false None ""), w1).
Proof.
  intros H. unfold Complete, bind. rewrite first_call, first_choice.
  destruct (Message.ToolCalls msg) as [|tc tcs]; [done|].
  destruct searchFn as [f|]; [|done].
  destruct (String.eqb_spec (FunctionCall.Name (ToolCall.Function_ tc))
              "search_internet"); [done|done].
Qed.

Variables (tc : ToolCall.t) (tcs : list ToolCall.t).
Variable f : string -> string * option error.
Hypothesis proposal : Message.ToolCalls msg = tc :: tcs.
Hypothesis registered :
  FunctionCall.Name (ToolCall.Function_ tc) = "search_internet".

Lemma Complete_bad_arguments err :
  json_Unmarshal_SearchArgs env (FunctionCall.Arguments (ToolCall.Function_ tc))
    = inl err ->
  Complete env c messages tools (Some f) w
  = (inl (Errorf_w "arguments outil invalides: " err), w1).
Proof.
  intros H. unfold Complete, bind. rewrite first_call, first_choice, proposal.
  rewrite registered. simpl. by rewrite H.
Qed.

Lemma Complete_round args :
  json_Unmarshal_SearchArgs env (FunctionCall.Arguments (ToolCall.Function_ tc))
    = inr args ->
  let query := SearchArgs.Query args in
  let messages2 :=
    messages ++ [assistant_turn msg; tool_turn tc (f query).1] in
  let r2 := call env c messages2 [] (searched w1 query) in
  Complete env c messages tools (Some f) w
  = (second_phase (f query).2 query r2.1, r2.2).
Proof.
  intros H. cbv zeta. unfold Complete, bind, assistant_turn.
  rewrite first_call, first_choice, !proposal.
  rewrite registered. simpl. rewrite H. unfold search.
  destruct (f (SearchArgs.Query args)) as [text serr] eqn:Ef.
  unfold searched, assistant_turn, tool_turn. simpl.
  destruct (call env c _ [] _) as [[e|resp2] w2]; simpl; [done|].
  by destruct (chatResponse.Choices resp2).
Qed.

End ToolRound.

(** *** The two phases *)

(** C2: when the first response proposes the registered tool and its
    arguments decode, [Complete] makes two transport calls; the second gets
    the history followed by the assistant message carrying the proposed
    tool calls and by the tool message holding the executor's text under
    the proposal's id, and no tool descriptor; the result is what the
    second call's answer gives, with [WebSearchUsed] set and
    [WebSearchQuery] the decoded query. *)
Theorem Complete_two_phase env c messages tools f w w1 resp msg rest tc tcs args :
  call env c messages tools w = (inr resp, w1) ->
  chatResponse.Choices resp = msg :: rest ->
  Message.ToolCalls msg = tc :: tcs ->
  FunctionCall.Name (ToolCall.Function_ tc) = "search_internet" ->
  json_Unmarshal_SearchArgs env (FunctionCall.Arguments (ToolCall.Function_ tc))
    = inr args ->
  let query := SearchArgs.Query args in
  let messages2 :=
    messages ++ [Message.mk "assistant" "" (Message.ToolCalls msg) "";
                 Message.mk "tool" (f query).1 [] (ToolCall.ID tc)] in
  let r2 := call env c messages2 [] (searched w1 query) in
  let r := Complete env c messages tools (Some f) w in
  calls r.2 = calls w ++ [(messages, tools); (messages2, [])]
  ∧ searches r.2 = searches w ++ [query]
  ∧ r.1 = second_phase (f query).2 query r2.1
  ∧ (∀ res, r.1 = inr res ->
       CompletionResult.WebSearchUsed res = true
       ∧ CompletionResult.WebSearchQuery res = query).
Proof.
  intros H1 H2 H3 H4 H5 query messages2 r2 r.
  assert (Hr : r = (second_phase (f query).2 query r2.1, r2.2)).
  { subst r. by rewrite (Complete_round env c messages tools w w1 resp msg rest
                           H1 H2 tc tcs f H3 H4 args H5). }
  destruct (call_calls _ _ _ _ _ _ _ H1) as [Hc1 Hs1].
  destruct (call_logs env c messages2 [] (searched w1 query)) as [Hc2 Hs2].
  fold r2 in Hc2, Hs2. rewrite Hr. simpl.
  rewrite Hc2, Hs2. simpl. rewrite Hc1, Hs1, <- app_assoc. simpl.
  split; [done|]. split; [done|]. split; [done|].
  intros res Hres. destruct r2 as [[e|resp2] w2]; simpl in Hres; [done|].
  destruct (chatResponse.Choices resp2); [done|]. by simplify_eq.
Qed.

Lemma Complete_two_phase_witness :
  let env := Demo.service [Response 200 "propose"; Response 200 "answer"]
               "search_internet" Demo.query_x in
  let r := Complete env Demo.client Demo.history [SearchToolDef]
             (Some Demo.found) world0 in
  r.1 = inr (CompletionResult.mk "Va voir au Zaap." true None "x")
  ∧ calls r.2
    = [(Demo.history, [SearchToolDef]);
       (Demo.history ++
          [Message.mk "assistant" ""
             (Message.ToolCalls (Demo.proposing "search_internet" Demo.query_x)) "";
           Message.mk "tool" "result" [] "call_1"], [])]
  ∧ searches r.2 = ["x"].
Proof.
  pose (env := Demo.service [Response 200 "propose"; Response 200 "answer"]
                 "search_internet" Demo.query_x).
  destruct (Complete_two_phase env Demo.client Demo.history [SearchToolDef]
              Demo.found world0
              (call env Demo.client Demo.history [SearchToolDef] world0).2
              (chatResponse.mk [Demo.proposing "search_internet" Demo.query_x] None)
              (Demo.proposing "search_internet" Demo.query_x) []
              (ToolCall.mk "call_1" "function"
                 (FunctionCall.mk "search_internet" Demo.query_x))
              [ToolCall.mk "call_2" "function"
                 (FunctionCall.mk "search_internet" "{}")]
              (SearchArgs.mk "x"))
    as (Hc & Hs & Hr & _); try reflexivity.
  cbv zeta. fold env. rewrite Hc, Hs, Hr. repeat split; reflexivity.
Defined.

(** C3: when the executor is invoked and returns an error with a fallback
    text, [Complete] still makes the second transport call with that text;
    whenever that call answers with a choice the result is a
    [CompletionResult] with [WebSearchUsed] set and the executor's error in
    [WebSearchError]; and [Complete] returns an error exactly when it
    would with an executor returning the same text and no error. *)
Theorem tool_error_is_not_failure
    env c messages tools f w w1 resp msg rest tc tcs args text err :
  call env c messages tools w = (inr resp, w1) ->
  chatResponse.Choices resp = msg :: rest ->
  Message.ToolCalls msg = tc :: tcs ->
  FunctionCall.Name (ToolCall.Function_ tc) = "search_internet" ->
  json_Unmarshal_SearchArgs env (FunctionCall.Arguments (ToolCall.Function_ tc))
    = inr args ->
  f (SearchArgs.Query args) = (text, Some err) ->
  let query := SearchArgs.Query args in
  let messages2 :=
    messages ++ [Message.mk "assistant" "" (Message.ToolCalls msg) "";
                 Message.mk "tool" text [] (ToolCall.ID tc)] in
  let r2 := call env c messages2 [] (searched w1 query) in
  let r := Complete env c messages tools (Some f) w in
  let r' := Complete env c messages tools (Some (fun q => ((f q).1, None))) w in
  calls r.2 = calls w ++ [(messages, tools); (messages2, [])]
  ∧ searches r.2 = searches w ++ [query]
  ∧ (∀ resp2 m rest2, r2.1 = inr resp2 -> chatResponse.Choices resp2 = m :: rest2 ->
       r.1 = inr (CompletionResult.mk (Message.Content m) true (Some err) query))
  ∧ (∀ e, r.1 = inl e <-> r'.1 = inl e).
Proof.
  intros H1 H2 H3 H4 H5 Hf query messages2 r2 r r'.
  pose proof (Complete_round env c messages tools w w1 resp msg rest
                H1 H2 tc tcs f H3 H4 args H5) as Hr.
  pose proof (Complete_round env c messages tools w w1 resp msg rest
                H1 H2 tc tcs (fun q => ((f q).1, None)) H3 H4 args H5) as Hr'.
  cbv zeta in Hr, Hr'. simpl in Hr'. rewrite Hf in Hr, Hr'. simpl in Hr, Hr'.
  unfold assistant_turn, tool_turn in Hr, Hr'.
  fold query in Hr, Hr'. fold messages2 in Hr, Hr'. fold r2 in Hr, Hr'.
  fold r in Hr. fold r' in Hr'.
  destruct (call_calls _ _ _ _ _ _ _ H1) as [Hc1 Hs1].
  destruct (call_logs env c messages2 [] (searched w1 query)) as [Hc2 Hs2].
  fold r2 in Hc2, Hs2. rewrite Hr, Hr'. simpl.
  rewrite Hc2, Hs2. simpl. rewrite Hc1, Hs1, <- app_assoc. simpl.
  split; [done|]. split; [done|]. split.
  - intros resp2 m rest2 E1 E2. rewrite E1. simpl. by rewrite E2.
  - intros e. destruct r2 as [[e2|resp2] w2]; simpl; [done|].
    by destruct (chatResponse.Choices resp2).
Qed.

Lemma tool_error_is_not_failure_witness :
  let env := Demo.service [Response 200 "propose"; Response 200 "answer"]
               "search_internet" Demo.query_x in
  let r := Complete env Demo.client Demo.history [SearchToolDef]
             (Some Demo.failing) world0 in
  r.1 = inr (CompletionResult.mk "Va voir au Zaap." true
               (Some (ErrLib "tavily: timeout")) "x")
  ∧ length (calls r.2) = 2%nat.
Proof.
  pose (env := Demo.service [Response 200 "propose"; Response 200 "answer"]
                 "search_internet" Demo.query_x).
  destruct (tool_error_is_not_failure env Demo.client Demo.history [SearchToolDef]
              Demo.failing world0
              (call env Demo.client Demo.history [SearchToolDef] world0).2
              (chatResponse.mk [Demo.proposing "search_internet" Demo.query_x] None)
              (Demo.proposing "search_internet" Demo.query_x) []
              (ToolCall.mk "call_1" "function"
                 (FunctionCall.mk "search_internet" Demo.query_x))
              [ToolCall.mk "call_2" "function"
                 (FunctionCall.mk "search_internet" "{}")]
              (SearchArgs.mk "x") "fallback text" (ErrLib "tavily: timeout"))
    as (Hc & _ & Hr & _); try reflexivity.
  cbv zeta. fold env. rewrite Hc. split; [|reflexivity].
  apply (Hr (chatResponse.mk [Demo.answer] None) Demo.answer []); reflexivity.
Defined.

(** *** One phase only *)

(** C4: when the first response proposes no tool call, or its first
    proposed call names another tool than the registered one, or the
    executor is nil, [Complete] makes the one transport call, never invokes
    an executor, and returns the first response's content as the reply,
    with no error. *)
Theorem Complete_one_phase env c messages tools searchFn w w1 resp msg rest :
  call env c messages tools w = (inr resp, w1) ->
  chatResponse.Choices resp = msg :: rest ->
  Message.ToolCalls msg = []
  ∨ (∃ tc tcs, Message.ToolCalls msg = tc :: tcs
       ∧ FunctionCall.Name (ToolCall.Function_ tc) ≠ "search_internet")
  ∨ searchFn = None ->
  let r := Complete env c messages tools searchFn w in
  r.1 = inr (CompletionResult.mk (Message.Content msg) false None "")
  ∧ calls r.2 = calls w ++ [(messages, tools)]
  ∧ searches r.2 = searches w.
Proof.
  intros H1 H2 Hcase r.
  assert (Hr : r = (inr (CompletionResult.mk (Message.Content msg) false None ""), w1)).
  { subst r. apply (Complete_no_round env c messages tools w w1 resp msg rest H1 H2).
    destruct Hcase as [-> | [(tc & tcs & -> & Hn) | ->]]; [done| |].
    - by destruct searchFn.
    - by destruct (Message.ToolCalls msg). }
  rewrite Hr. simpl. split; [done|]. by apply call_calls in H1.
Qed.

Lemma Complete_one_phase_witness :
  let env := Demo.service [Response 200 "propose"; Response 200 "answer"]
               "search_web" Demo.query_x in
  let r := Complete env Demo.client Demo.history [SearchToolDef]
             (Some Demo.found) world0 in
  r.1 = inr (CompletionResult.mk "je cherche" false None "")
  ∧ calls r.2 = [(Demo.history, [SearchToolDef])]
  ∧ searches r.2 = [].
Proof.
  pose (env := Demo.service [Response 200 "propose"; Response 200 "answer"]
                 "search_web" Demo.query_x).
  apply (Complete_one_phase env Demo.client Demo.history [SearchToolDef]
           (Some Demo.found) world0
           (call env Demo.client Demo.history [SearchToolDef] world0).2
           (chatResponse.mk [Demo.proposing "search_web" Demo.query_x] None)
           (Demo.proposing "search_web" Demo.query_x) []);
    [reflexivity | reflexivity |].
  right; left. eexists _, _. split; [reflexivity|]. simpl. discriminate.
Defined.

(** C5: when the arguments of the first proposed call (a call of the
    registered tool, with an executor present) do not decode, [Complete]
    returns an error and no result; the executor is not invoked and no
    second transport call is made. *)
Theorem Complete_aborts_on_bad_arguments
    env c messages tools f w w1 resp msg rest tc tcs err :
  call env c messages tools w = (inr resp, w1) ->
  chatResponse.Choices resp = msg :: rest ->
  Message.ToolCalls msg = tc :: tcs ->
  FunctionCall.Name (ToolCall.Function_ tc) = "search_internet" ->
  json_Unmarshal_SearchArgs env (FunctionCall.Arguments (ToolCall.Function_ tc))
    = inl err ->
  let r := Complete env c messages tools (Some f) w in
  r.1 = inl (Errorf_w "arguments outil invalides: " err)
  ∧ calls r.2 = calls w ++ [(messages, tools)]
  ∧ searches r.2 = searches w.
Proof.
  intros H1 H2 H3 H4 H5 r. subst r.
  rewrite (Complete_bad_arguments env c messages tools w w1 resp msg rest
             H1 H2 tc tcs f H3 H4 err H5).
  simpl. split; [done|]. by apply call_calls in H1.
Qed.

Lemma Complete_aborts_on_bad_arguments_witness :
  let env := Demo.service [Response 200 "propose"; Response 200 "answer"]
               "search_internet" "not-json" in
  let r := Complete env Demo.client Demo.history [SearchToolDef]
             (Some Demo.found) world0 in
  r.1 = inl (Errorf_w "arguments outil invalides: " Json.syntaxError)
  ∧ calls r.2 = [(Demo.history, [SearchToolDef])]
  ∧ searches r.2 = [].
Proof.
  pose (env := Demo.service [Response 200 "propose"; Response 200 "answer"]
                 "search_internet" "not-json").
  apply (Complete_aborts_on_bad_arguments env Demo.client Demo.history
           [SearchToolDef] Demo.found world0
           (call env Demo.client Demo.history [SearchToolDef] world0).2
           (chatResponse.mk [Demo.proposing "search_internet" "not-json"] None)
           (Demo.proposing "search_internet" "not-json") []
           (ToolCall.mk "call_1" "function"
              (FunctionCall.mk "search_internet" "not-json"))
           [ToolCall.mk "call_2" "function"
              (FunctionCall.mk "search_internet" "{}")]
           Json.syntaxError); reflexivity.
Defined.

(** *** At most one tool invocation *)

(** C6: whatever the first response proposes, the queries given to the
    executor during [Complete] are those of [honoured], which reads the
    first proposed call only: there is at most one; and [Complete] makes at
    most two transport calls. *)
Theorem one_invocation_at_most env c messages tools searchFn w :
  let first := call env c messages tools w in
  let r := Complete env c messages tools searchFn w in
  searches r.2 = searches w ++ honoured env first.1 searchFn
  ∧ (length (honoured env first.1 searchFn) <= 1)%nat
  ∧ (length (calls r.2) <= length (calls w) + 2)%nat.
Proof.
  intros first r. subst first r. unfold Complete, bind.
  pose proof (call_logs env c messages tools w) as [Hc Hs].
  destruct (call env c messages tools w) as [[e|resp] w1]; simpl in *.
  { rewrite Hc, Hs, app_nil_r, length_app. simpl. repeat split; lia. }
  destruct (chatResponse.Choices resp) as [|msg rest]; simpl.
  { rewrite Hc, Hs, app_nil_r, length_app. simpl. repeat split; lia. }
  destruct (Message.ToolCalls msg) as [|tc tcs]; simpl.
  { rewrite Hc, Hs, app_nil_r, length_app. simpl. repeat split; lia. }
  destruct searchFn as [f|]; simpl.
  2: { rewrite Hc, Hs, app_nil_r, length_app. simpl. repeat split; lia. }
  destruct (FunctionCall.Name (ToolCall.Function_ tc) =? "search_internet")%string; simpl.
  2: { rewrite Hc, Hs, app_nil_r, length_app. simpl. repeat split; lia. }
  destruct (json_Unmarshal_SearchArgs env _) as [err|args]; simpl.
  { rewrite Hc, Hs, app_nil_r, length_app. simpl. repeat split; lia. }
  unfold search. destruct (f (SearchArgs.Query args)) as [text serr].
  match goal with |- context [call env c ?m [] ?w'] =>
    pose proof (call_logs env c m [] w') as [Hc2 Hs2];
    destruct (call env c m [] w') as [[e2|resp2] w2] end; simpl in *.
  { rewrite Hc2, Hs2, Hc, Hs, !length_app. simpl. repeat split; lia. }
  destruct (chatResponse.Choices resp2); simpl;
    rewrite Hc2, Hs2, Hc, Hs, !length_app; simpl; repeat split; lia.
Qed.

(** *** Errors of the completion service *)

Lemma call_non200 env c messages tools w body status respBody :
  json_Marshal env (chatRequest.mk (model c) messages tools (2 # 10)%Q) = inr body ->
  http_NewRequest env "POST" (baseURL c) body = None ->
  http_Do env (length (sent w))
    (mkHttpRequest "POST" (baseURL c)
       [("Content-Type", "application/json");
        ("Authorization", "Bearer " +:+ apiKey c)] body)
    = Response status respBody ->
  status ≠ 200 ->
  (call env c messages tools w).1 = inl (ErrAPI (APIError.mk status respBody)).
Proof.
  intros Hm Hn Hd Hs. unfold call, bind, log_call, lift, send, fail, ret. simpl.
  rewrite Hm. simpl. rewrite Hn. simpl. rewrite Hd. simpl.
  destruct (Z.eqb_spec status 200); [done|]. done.
Qed.

Lemma Complete_first_error env c messages tools searchFn w e :
  (call env c messages tools w).1 = inl e ->
  (Complete env c messages tools searchFn w).1 = inl e.
Proof.
  intros H. unfold Complete, bind.
  destruct (call env c messages tools w) as [[e'|resp] w1]; simpl in *; by simplify_eq.
Qed.

Lemma UserMessage_unknown e :
  APIError.StatusCode e ∉ known_codes -> UserMessage e = unknown_message.
Proof.
  unfold UserMessage, known_codes. intros H.
  destruct (APIError.StatusCode e) as [|p|p]; try reflexivity.
  do 9 (destruct p as [p|p|]; try reflexivity);
    exfalso; apply H; set_solver.
Qed.

(** C7: a response of the completion service with a status other than 200
    makes [call], and [Complete] with it, return the [APIError] holding
    that status and the body read; [UserMessage] depends on the status code
    only, gives the message of the unknown case for every code outside the
    seven it lists, and gives pairwise different messages for the seven
    codes and the unknown case, 429 and 500 among them. *)
Theorem non200_is_APIError :
  (∀ env c messages tools searchFn w body status respBody,
     json_Marshal env (chatRequest.mk (model c) messages tools (2 # 10)%Q) = inr body ->
     http_NewRequest env "POST" (baseURL c) body = None ->
     http_Do env (length (sent w))
       (mkHttpRequest "POST" (baseURL c)
          [("Content-Type", "application/json");
           ("Authorization", "Bearer " +:+ apiKey c)] body)
       = Response status respBody ->
     status ≠ 200 ->
     (call env c messages tools w).1 = inl (ErrAPI (APIError.mk status respBody))
     ∧ (Complete env c messages tools searchFn w).1
       = inl (ErrAPI (APIError.mk status respBody)))
  ∧ (∀ e, UserMessage e = message_of (APIError.StatusCode e))
  ∧ (∀ e, APIError.StatusCode e ∉ known_codes -> UserMessage e = unknown_message)
  ∧ message_of 429 ≠ message_of 500
  ∧ NoDup (unknown_message :: map message_of known_codes).
Proof.
  split; [|split; [|split; [|split]]].
  - intros env c messages tools searchFn w body status respBody Hm Hn Hd Hs.
    pose proof (call_non200 env c messages tools w body status respBody Hm Hn Hd Hs) as H.
    split; [done|]. by apply Complete_first_error.
  - by intros [code body].
  - apply UserMessage_unknown.
  - apply String.eqb_neq. vm_compute. reflexivity.
  - apply (bool_decide_unpack _). vm_compute. reflexivity.
Qed.

Lemma non200_is_APIError_witness :
  let env := Demo.service [Response 429 "slow down"] "search_internet" "{}" in
  (Complete env Demo.client Demo.history [SearchToolDef] (Some Demo.found) world0).1
  = inl (ErrAPI (APIError.mk 429 "slow down"))
  ∧ UserMessage (APIError.mk 429 "slow down") = message_of 429
  ∧ UserMessage (APIError.mk 418 "teapot") = unknown_message.
Proof.
  destruct non200_is_APIError as (Hcall & Hm & Hu & _).
  split; [|split].
  - eapply Hcall; [reflexivity | reflexivity | reflexivity | discriminate].
  - apply Hm.
  - apply Hu. simpl. set_solver.
Defined.

End ClientFacts.

(** ** Properties of the decoding of tool arguments *)

Module JsonFacts.
Import Client ClientFacts Json.

Lemma store_members_skip members Query saved :
  (∀ k v, (k, v) ∈ members -> names_query (unquote k) = false) ->
  store_members members Query saved = (Query, saved).
Proof.
  revert Query saved. induction members as [|[k v] members IH]; intros Query saved H;
    simpl; [done|].
  rewrite (H k v) by left. apply IH. intros k' v' Hin. apply (H k' v'). by right.
Qed.

Lemma store_members_error members Query saved e :
  (store_members members Query saved).2 = Some e ->
  saved = Some e
  ∨ ∃ k v, (k, v) ∈ members ∧ names_query (unquote k) = true ∧ storable v = false.
Proof.
  revert Query saved. induction members as [|[k v] members IH]; intros Query saved;
    simpl; [by left|].
  destruct (names_query (unquote k)) eqn:Ek.
  - destruct v; intros H; apply IH in H as [H | (k' & v' & Hin & Hk & Hv)];
      try (right; exists k', v'; split; [by right|done]);
      try (by left);
      try (destruct saved; [by left|];
           right; eexists k, _; split; [by left|done]).
  - intros H; apply IH in H as [H | (k' & v' & Hin & Hk & Hv)]; [by left|].
    right. exists k', v'. split; [by right|done].
Qed.

Lemma Unmarshal_error data e :
  Unmarshal_SearchArgs data = inl e ->
  parse data = None
  ∨ (∃ v, parse data = Some v ∧ struct_like v = false)
  ∨ (∃ members k v, parse data = Some (Obj members) ∧ (k, v) ∈ members
       ∧ names_query (unquote k) = true ∧ storable v = false).
Proof.
  unfold Unmarshal_SearchArgs. destruct (parse data) as [v|]; [|by left].
  destruct v as [| b | lit | raw | items | members]; try done;
    try (intros _; right; left; eexists; split; [done|done]).
  destruct (store_members members "" None) as [Query [e'|]] eqn:E; [|done].
  intros _. right; right.
  pose proof (store_members_error members "" None e') as H.
  rewrite E in H. destruct (H eq_refl) as [?|(k & v & ? & ? & ?)]; [done|].
  by exists members, k, v.
Qed.

Lemma Unmarshal_no_query data members :
  parse data = Some (Obj members) ->
  (∀ k v, (k, v) ∈ members -> names_query (unquote k) = false) ->
  Unmarshal_SearchArgs data = inr (SearchArgs.mk "").
Proof.
  intros Hp Hk. unfold Unmarshal_SearchArgs. rewrite Hp.
  by rewrite store_members_skip.
Qed.

(** The first error is the one kept. *)
Lemma store_members_saved members Query e :
  (store_members members Query (Some e)).2 = Some e.
Proof.
  revert Query. induction members as [|[k v] members IH]; intros Query; simpl; [done|].
  destruct (names_query (unquote k)); [|apply IH]. destruct v; apply IH.
Qed.

(** A query member that is neither a string nor null makes the decoding
    fail, wherever it stands among the members. *)
Lemma store_members_fails members Query saved k v :
  (k, v) ∈ members -> names_query (unquote k) = true -> storable v = false ->
  ∃ e, (store_members members Query saved).2 = Some e.
Proof.
  revert Query saved. induction members as [|[k' v'] members IH];
    intros Query saved Hin Hk Hv.
  { by apply elem_of_nil in Hin. }
  apply elem_of_cons in Hin as [Heq|Hin].
  - injection Heq as <- <-. simpl. rewrite Hk.
    destruct v; try done; destruct saved as [e|]; eexists; apply store_members_saved.
  - simpl. destruct (names_query (unquote k')); [|by eapply IH].
    destruct v'; by eapply IH.
Qed.

Lemma Unmarshal_fails data :
  parse data = None
  ∨ (∃ v, parse data = Some v ∧ struct_like v = false)
  ∨ (∃ members k v, parse data = Some (Obj members) ∧ (k, v) ∈ members
       ∧ names_query (unquote k) = true ∧ storable v = false) ->
  ∃ e, Unmarshal_SearchArgs data = inl e.
Proof.
  unfold Unmarshal_SearchArgs.
  intros [-> | [(v & -> & Hv) | (members & k & v & -> & Hin & Hk & Hv)]].
  - by eexists.
  - destruct v; try done; by eexists.
  - destruct (store_members_fails members "" None k v Hin Hk Hv) as [e He].
    destruct (store_members members "" None) as [Query saved]. simpl in He.
    subst saved. by eexists.
Qed.

(** C10 (as amended): decoding the arguments does not fail on a missing
    query field.  It fails exactly in three cases: the scanner rejects the
    text, as it does text that is not JSON and also well-formed JSON
    nested more than 10000 levels deep; the top-level value is neither an
    object nor null; some member that names the query field, in whatever
    letter case, holds neither a string nor null.  For the arguments [{}]
    decoding gives the empty query, the executor is invoked with the
    empty string, the second call is made, and a result has the empty
    string as [WebSearchQuery]. *)
Theorem missing_query_decodes :
  (∀ data members,
     parse data = Some (Obj members) ->
     (∀ k v, (k, v) ∈ members -> names_query (unquote k) = false) ->
     Unmarshal_SearchArgs data = inr (SearchArgs.mk ""))
  ∧ (∀ data,
       (∃ e, Unmarshal_SearchArgs data = inl e)
       <-> (parse data = None
            ∨ (∃ v, parse data = Some v ∧ struct_like v = false)
            ∨ (∃ members k v, parse data = Some (Obj members) ∧ (k, v) ∈ members
                 ∧ names_query (unquote k) = true ∧ storable v = false)))
  ∧ (Unmarshal_SearchArgs (Demo.nested_arguments 9999) = inr (SearchArgs.mk "")
     ∧ parse (Demo.nested_arguments 10000) = None
     ∧ Unmarshal_SearchArgs (Demo.nested_arguments 10000) = inl syntaxError)
  ∧ Unmarshal_SearchArgs "{}" = inr (SearchArgs.mk "")
  ∧ (∀ env c messages tools f w w1 resp msg rest tc tcs,
       json_Unmarshal_SearchArgs env = Unmarshal_SearchArgs ->
       call env c messages tools w = (inr resp, w1) ->
       chatResponse.Choices resp = msg :: rest ->
       Message.ToolCalls msg = tc :: tcs ->
       FunctionCall.Name (ToolCall.Function_ tc) = "search_internet" ->
       FunctionCall.Arguments (ToolCall.Function_ tc) = "{}" ->
       let messages2 :=
         messages ++ [Message.mk "assistant" "" (Message.ToolCalls msg) "";
                      Message.mk "tool" (f "").1 [] (ToolCall.ID tc)] in
       let r2 := call env c messages2 [] (searched w1 "") in
       let r := Complete env c messages tools (Some f) w in
       searches r.2 = searches w ++ [""]
       ∧ calls r.2 = calls w ++ [(messages, tools); (messages2, [])]
       ∧ r.1 = second_phase (f "").2 "" r2.1
       ∧ (∀ res, r.1 = inr res -> CompletionResult.WebSearchQuery res = "")).
Proof.
  split; [exact Unmarshal_no_query|].
  split.
  { intros data. split; [intros [e He]; by eapply Unmarshal_error|apply Unmarshal_fails]. }
  split; [vm_compute; repeat split; reflexivity|].
  split; [reflexivity|].
  intros env c messages tools f w w1 resp msg rest tc tcs Henv H1 H2 H3 H4 H5
    messages2 r2 r.
  assert (Hdec : json_Unmarshal_SearchArgs env
                   (FunctionCall.Arguments (ToolCall.Function_ tc))
                 = inr (SearchArgs.mk "")).
  { by rewrite Henv, H5. }
  pose proof (Complete_round env c messages tools w w1 resp msg rest
                H1 H2 tc tcs f H3 H4 (SearchArgs.mk "") Hdec) as Hr.
  cbv zeta in Hr. simpl in Hr. unfold assistant_turn, tool_turn in Hr.
  fold messages2 in Hr. fold r2 in Hr. fold r in Hr.
  destruct (call_calls _ _ _ _ _ _ _ H1) as [Hc1 Hs1].
  destruct (call_logs env c messages2 [] (searched w1 "")) as [Hc2 Hs2].
  fold r2 in Hc2, Hs2. rewrite Hr. simpl.
  rewrite Hc2, Hs2. simpl. rewrite Hc1, Hs1, <- app_assoc. simpl.
  split; [done|]. split; [done|]. split; [done|].
  intros res Hres. destruct r2 as [[e|resp2] w2]; simpl in Hres; [done|].
  destruct (chatResponse.Choices resp2); [done|]. by simplify_eq.
Qed.

Lemma missing_query_decodes_witness :
  let env := Demo.service [Response 200 "propose"; Response 200 "answer"]
               "search_internet" "{}" in
  let r := Complete env Demo.client Demo.history [SearchToolDef]
             (Some Demo.found) world0 in
  r.1 = inr (CompletionResult.mk "Va voir au Zaap." true None "")
  ∧ searches r.2 = [""]
  ∧ length (calls r.2) = 2%nat.
Proof.
  pose (env := Demo.service [Response 200 "propose"; Response 200 "answer"]
                 "search_internet" "{}").
  destruct missing_query_decodes as (_ & _ & _ & _ & H).
  destruct (H env Demo.client Demo.history [SearchToolDef] Demo.found world0
              (call env Demo.client Demo.history [SearchToolDef] world0).2
              (chatResponse.mk [Demo.proposing "search_internet" "{}"] None)
              (Demo.proposing "search_internet" "{}") []
              (ToolCall.mk "call_1" "function"
                 (FunctionCall.mk "search_internet" "{}"))
              [ToolCall.mk "call_2" "function"
                 (FunctionCall.mk "search_internet" "{}")])
    as (Hs & Hc & Hr & _); try reflexivity.
  cbv zeta. fold env. rewrite Hs, Hc, Hr. repeat split; reflexivity.
Defined.

(** C10 as first stated fails on arguments that are JSON but give the query
    a number: the text parses, decoding returns a type error, and
    [Complete] aborts without invoking the executor. *)
Lemma wrong_type_does_not_decode :
  let env := Demo.service [Response 200 "propose"; Response 200 "answer"]
               "search_internet" Demo.query_5 in
  let r := Complete env Demo.client Demo.history [SearchToolDef]
             (Some Demo.found) world0 in
  parse Demo.query_5
  = Some (Obj [(String.list_ascii_of_string "query",
                Number (String.list_ascii_of_string "5"))])
  ∧ Unmarshal_SearchArgs Demo.query_5 = inl (typeError "number")
  ∧ r.1 = inl (Errorf_w "arguments outil invalides: " (typeError "number"))
  ∧ searches r.2 = []
  ∧ length (calls r.2) = 1%nat.
Proof. repeat split; reflexivity. Qed.

End JsonFacts.

(** ** Further properties of the rate limiter *)

Module LimiterRunFacts.
Import Limiter LimiterFacts LimiterRuns.

Lemma Allow_limit rl now k : limit (Allow rl now k).2 = limit rl.
Proof. by destruct (Allow_stored rl now k) as [-> | [-> | ->]]. Qed.

Lemma Allow_window rl now k : window (Allow rl now k).2 = window rl.
Proof. by destruct (Allow_stored rl now k) as [-> | [-> | ->]]. Qed.

Lemma Allow_other rl now k k' :
  k ≠ k' -> requests (Allow rl now k).2 !!! k' = requests rl !!! k'.
Proof.
  intros Hk. destruct (Allow_stored rl now k) as [-> | [-> | ->]]; [done| |];
    rewrite lookup_set_requests; by case_decide.
Qed.

(** The three ways a call ends, by the cleaned sequence. *)
Lemma Allow_cases rl now k :
  let valid := prune (now + neg (window rl)) (requests rl !!! k) in
  (Z.of_nat (length valid) < limit rl
   ∧ Allow rl now k = (Returned true 0, set_requests rl k (valid ++ [now])))
  ∨ (∃ v0 rest, valid = v0 :: rest ∧ limit rl <= Z.of_nat (length valid)
       ∧ Allow rl now k = (Returned false (Sub (v0 + window rl) now), set_requests rl k valid))
  ∨ (valid = [] ∧ limit rl <= 0 ∧ Allow rl now k = (Panicked, rl)).
Proof.
  cbv zeta. unfold Allow. cbv zeta.
  destruct (decide (Z.of_nat (length (prune (now + neg (window rl)) (requests rl !!! k)))
                    < limit rl)) as [Hlt|Hge].
  - left. split; [done|]. by rewrite check_admits.
  - right. destruct (prune (now + neg (window rl)) (requests rl !!! k)) as [|v0 rest] eqn:E.
    + right. simpl in Hge. split; [done|]. split; [lia|].
      rewrite check_panics; [done|done|lia].
    + left. exists v0, rest. split; [done|]. split; [lia|].
      rewrite (check_denies _ _ _ _ v0 rest E); [done|lia].
Qed.

Lemma prune_later cutoff l : prune cutoff l = later_than cutoff l.
Proof. apply prune_filter. Qed.

Lemma later_than_app c l1 l2 :
  later_than c (l1 ++ l2) = later_than c l1 ++ later_than c l2.
Proof. apply filter_app. Qed.

Lemma later_than_later c c' l :
  c <= c' -> later_than c' (later_than c l) = later_than c' l.
Proof.
  intros Hc. unfold later_than. induction l as [|x l IH]; [done|].
  rewrite !filter_cons. repeat case_decide; try lia; rewrite ?filter_cons;
    repeat case_decide; try lia; by rewrite ?IH.
Qed.

Lemma later_than_length c l : (length (later_than c l) <= length l)%nat.
Proof. apply length_filter. Qed.

Lemma later_than_all c (l : list Z) :
  Forall (fun x => c < x) l -> later_than c l = l.
Proof.
  induction 1 as [|x l Hx Hl IH]; [done|].
  unfold later_than in *. rewrite filter_cons. case_decide; [|lia]. by rewrite IH.
Qed.

Lemma later_than_bounds c (l : list Z) : Forall (fun x => c < x) (later_than c l).
Proof.
  apply Forall_forall. intros x [Hx _]%list_elem_of_filter. lia.
Qed.

(** *** The size of what is recorded *)

Lemma bounded_Allow rl now k : bounded rl -> bounded (Allow rl now k).2.
Proof.
  intros Hb k'. rewrite Allow_limit.
  destruct (decide (k = k')) as [<-|Hne]; [|by rewrite Allow_other].
  pose proof (Hb k) as Hk.
  pose proof (later_than_length (now + neg (window rl)) (requests rl !!! k)) as Hl.
  rewrite <- prune_later in Hl.
  destruct (Allow_cases rl now k) as [[Hlt ->] | [(v0 & rest & E & Hge & ->) | (E & Hle & ->)]];
    simpl; rewrite ?lookup_total_insert_eq, ?length_app; simpl; lia.
Qed.

Lemma reachable_bounded rl t : reachable rl t -> bounded rl.
Proof.
  induction 1 as [lim win t | rl t now k Hr IH Hle].
  - intros k. unfold NewRateLimiter. simpl. rewrite lookup_total_empty. simpl. lia.
  - by apply bounded_Allow.
Qed.

(** X1: in every state a limiter can reach, no key has more timestamps
    recorded than [limit]; and after a call that returns, made with a
    positive window, every timestamp recorded for its key lies in the
    window [(now - window, now]]. *)
Theorem recorded_within_limit_and_window rl t now key :
  reachable rl t -> t <= now -> 0 < window rl ->
  let r := Allow rl now key in
  (∀ k, Z.of_nat (length (requests rl !!! k)) <= Z.max 0 (limit rl))
  ∧ (∀ k, Z.of_nat (length (requests r.2 !!! k)) <= Z.max 0 (limit rl))
  ∧ (r.1 ≠ Panicked ->
       Forall (fun ts => now - window rl < ts ∧ ts <= now) (requests r.2 !!! key)).
Proof.
  intros Hr Hle HW r. subst r.
  pose proof (reachable_bounded rl t Hr) as Hb.
  split; [exact Hb|]. split.
  { intros k. rewrite <- (Allow_limit rl now key). by apply bounded_Allow. }
  destruct (reachable_ok rl t Hr key) as [_ Hup].
  assert (Hv : Forall (fun ts => now - window rl < ts ∧ ts <= now)
                 (prune (now + neg (window rl)) (requests rl !!! key))).
  { rewrite neg_opp by (unfold minDuration; lia).
    rewrite prune_later. apply Forall_forall. intros x Hx.
    apply list_elem_of_filter in Hx as [Hx Hin].
    rewrite Forall_forall in Hup. specialize (Hup x Hin). simpl in Hup. lia. }
  destruct (Allow_cases rl now key)
    as [[Hlt ->] | [(v0 & rest & E & Hge & ->) | (E & Hl0 & ->)]]; simpl.
  - intros _. rewrite lookup_total_insert_eq.
    apply Forall_app. split; [done|]. constructor; [lia|done].
  - intros _. by rewrite lookup_total_insert_eq.
  - done.
Qed.

Lemma recorded_within_limit_and_window_witness :
  let rl := (Allow (Allow (NewRateLimiter 2 10) 3 "u").2 4 "u").2 in
  reachable rl 4 ∧ 4 <= 13 ∧ 0 < window rl
  ∧ requests (Allow rl 13 "u").2 !!! "u" = [4; 13]
  ∧ Forall (fun ts => 13 - window rl < ts ∧ ts <= 13)
      (requests (Allow rl 13 "u").2 !!! "u").
Proof.
  assert (Hr : reachable (Allow (Allow (NewRateLimiter 2 10) 3 "u").2 4 "u").2 4).
  { apply (reach_allow _ 3); [|lia]. apply (reach_allow _ 0); [constructor|lia]. }
  split; [exact Hr|]. split; [lia|]. split; [reflexivity|]. split; [reflexivity|].
  apply (recorded_within_limit_and_window _ 4 13 "u" Hr); [lia|reflexivity|].
  vm_compute. discriminate.
Defined.

(** *** The retry delay *)

Lemma set_requests_twice rl k l :
  set_requests (set_requests rl k l) k l = set_requests rl k l.
Proof. unfold set_requests. simpl. by rewrite insert_insert_eq. Qed.

Lemma sorted_all_ge (v0 : Z) (rest : list Z) :
  StronglySorted Z.le (v0 :: rest) -> Forall (fun x => v0 <= x) (v0 :: rest).
Proof. intros Hs. inversion Hs; subst. constructor; [lia|done]. Qed.

(** X2: a denial tells exactly how long to wait.  For a window that is a
    duration other than the least one: when a call at [now] is denied with
    [retryAfter], that delay is positive and at most the window; every
    later call for the key before [now + retryAfter] is denied too, with
    the delay that remains and nothing recorded; and the first call at
    [now + retryAfter] or later is admitted. *)
Theorem retry_after_is_exact rl t now key retryAfter rl' :
  reachable rl t -> t <= now ->
  minDuration < window rl <= maxDuration ->
  Allow rl now key = (Returned false retryAfter, rl') ->
  0 < retryAfter ∧ retryAfter <= window rl
  ∧ (∀ now', now <= now' -> now' < now + retryAfter ->
       Allow rl' now' key = (Returned false (now + retryAfter - now'), rl'))
  ∧ (∀ now', now + retryAfter <= now' ->
       (Allow rl' now' key).1 = Returned true 0).
Proof.
  intros Hr Hle Hwin HA.
  assert (Hneg : neg (window rl) = - window rl) by (apply neg_opp; lia).
  pose proof (reachable_bounded rl t Hr key) as Hb.
  destruct (reachable_ok rl t Hr key) as [Hs Hup].
  pose proof (later_than_length (now + neg (window rl)) (requests rl !!! key)) as Hlen.
  pose proof (later_than_bounds (now + neg (window rl)) (requests rl !!! key)) as Hlow.
  assert (Hsv : StronglySorted Z.le (later_than (now + neg (window rl)) (requests rl !!! key))).
  { eapply sorted_suffix; [apply filter_sorted_suffix|]; done. }
  assert (Hupv : Forall (fun ts => ts <= now)
                   (later_than (now + neg (window rl)) (requests rl !!! key))).
  { apply Forall_forall. intros x [_ Hx]%list_elem_of_filter.
    rewrite Forall_forall in Hup. specialize (Hup x Hx). simpl in Hup. lia. }
  rewrite <- prune_later in Hlen, Hlow, Hsv, Hupv.
  destruct (Allow_cases rl now key)
    as [[_ E] | [(v0 & rest & Ev & Hge & E) | (_ & _ & E)]];
    rewrite E in HA; simplify_eq.
  rewrite Ev in *.
  pose proof (sorted_all_ge v0 rest Hsv) as Hge0.
  inversion Hlow as [|? ? Hv0 Hrest]; subst.
  inversion Hupv as [|? ? Hv0' _]; subst.
  rewrite Hneg in Hv0.
  assert (Hsub : Sub (v0 + window rl) now = v0 + window rl - now).
  { apply Sub_exact. unfold minDuration, maxDuration in *. lia. }
  rewrite Hsub.
  assert (Hlim : Z.of_nat (length (v0 :: rest)) = limit rl).
  { apply Nat2Z.inj_le in Hlen. simpl in *.
    destruct (Z.max_spec 0 (limit rl)) as [[? Hm]|[? Hm]]; rewrite Hm in Hb; lia. }
  simpl in Hlim.
  set (rl' := set_requests rl key (v0 :: rest)).
  assert (Hreq : requests rl' !!! key = v0 :: rest).
  { subst rl'. rewrite lookup_set_requests. by case_decide. }
  assert (Hneg' : neg (window rl') = - window rl) by (subst rl'; exact Hneg).
  split; [lia|]. split; [lia|]. split.
  - intros now' H1 H2.
    assert (Hpr : prune (now' + neg (window rl')) (requests rl' !!! key) = v0 :: rest).
    { rewrite Hreq, Hneg', prune_later. apply later_than_all.
      eapply Forall_impl; [exact Hge0|]. simpl. lia. }
    pose proof (Allow_cases rl' now' key) as HC. cbv zeta in HC. rewrite Hpr in HC.
    destruct HC as [[Hlt _] | [(w0 & rest' & Ev' & _ & E') | (Ev' & _ & _)]].
    + exfalso. subst rl'. simpl in Hlt. lia.
    + simplify_eq. rewrite E'. subst rl'. rewrite set_requests_twice. simpl.
      f_equal. f_equal. rewrite Sub_exact; [lia|].
      unfold minDuration, maxDuration in *. lia.
    + done.
  - intros now' H1.
    destruct (Allow_cases rl' now' key)
      as [[_ ->] | [(w0 & rest' & Ev' & Hge' & _) | (Ev' & Hl0 & _)]]; [done| |].
    + exfalso. rewrite Hreq, Hneg', prune_later in Ev'.
      unfold later_than in Ev'. rewrite filter_cons in Ev'.
      case_decide as Hc; [lia|].
      pose proof (length_filter (fun a => ¬ a <= now' + - window rl) rest) as Hf.
      rewrite Ev' in Hf. rewrite Hreq, Hneg', prune_later in Hge'.
      unfold later_than in Hge'. rewrite filter_cons in Hge'.
      case_decide; [done|]. rewrite Ev' in Hge'.
      subst rl'. simpl in *. lia.
    + exfalso. subst rl'. simpl in Hl0. simpl in Hlim. lia.
Qed.

Lemma retry_after_is_exact_witness :
  let rl := (Allow (Allow (NewRateLimiter 2 10) 3 "u").2 4 "u").2 in
  reachable rl 4 ∧ 4 <= 5
  ∧ Allow rl 5 "u" = (Returned false 8, rl)
  ∧ Allow rl 12 "u" = (Returned false 1, rl)
  ∧ (Allow rl 13 "u").1 = Returned true 0.
Proof.
  assert (Hr : reachable (Allow (Allow (NewRateLimiter 2 10) 3 "u").2 4 "u").2 4).
  { apply (reach_allow _ 3); [|lia]. apply (reach_allow _ 0); [constructor|lia]. }
  assert (HA : Allow (Allow (Allow (NewRateLimiter 2 10) 3 "u").2 4 "u").2 5 "u"
               = (Returned false 8, (Allow (Allow (NewRateLimiter 2 10) 3 "u").2 4 "u").2)).
  { vm_compute. reflexivity. }
  destruct (retry_after_is_exact _ 4 5 "u" 8 _ Hr ltac:(lia) ltac:(by vm_compute) HA)
    as (_ & _ & H1 & H2).
  split; [exact Hr|]. split; [lia|]. split; [exact HA|]. split.
  - apply (H1 12); lia.
  - apply (H2 13); lia.
Defined.

(** *** Runs *)

Lemma run_cons rl now k calls :
  run rl ((now, k) :: calls)
  = ((Allow rl now k).1 :: (run (Allow rl now k).2 calls).1,
     (run (Allow rl now k).2 calls).2).
Proof. reflexivity. Qed.

Lemma admissions_cons rl now k calls key :
  admissions rl ((now, k) :: calls) key
  = (if decide (k = key) then if is_admitted (Allow rl now k).1 then [now] else []
     else [])
    ++ admissions (Allow rl now k).2 calls key.
Proof. reflexivity. Qed.

Lemma outcomes_for_cons rl now k calls key :
  outcomes_for rl ((now, k) :: calls) key
  = (if decide (k = key) then [(Allow rl now k).1] else [])
    ++ outcomes_for (Allow rl now k).2 calls key.
Proof. reflexivity. Qed.

Lemma run_app rl l1 l2 :
  run rl (l1 ++ l2) = ((run rl l1).1 ++ (run (run rl l1).2 l2).1,
                       (run (run rl l1).2 l2).2).
Proof.
  revert rl. induction l1 as [|[now k] l1 IH]; intros rl.
  - simpl. by destruct (run rl l2).
  - rewrite <- app_comm_cons, !run_cons, IH. reflexivity.
Qed.

Lemma admissions_app rl l1 l2 k :
  admissions rl (l1 ++ l2) k
  = admissions rl l1 k ++ admissions (run rl l1).2 l2 k.
Proof.
  revert rl. induction l1 as [|[now k'] l1 IH]; intros rl; [done|].
  rewrite <- app_comm_cons, !admissions_cons, run_cons, IH. cbn [snd].
  by rewrite app_assoc.
Qed.

Lemma ordered_app t l1 l2 :
  ordered t (l1 ++ l2) <-> ordered t l1 ∧ ordered (last_time t l1) l2.
Proof.
  revert t. induction l1 as [|[now k] l1 IH]; intros t; simpl; [tauto|].
  rewrite IH. tauto.
Qed.

Lemma run_limit rl calls : limit (run rl calls).2 = limit rl.
Proof.
  revert rl. induction calls as [|[now k] calls IH]; intros rl; [done|].
  rewrite run_cons. cbn [snd]. by rewrite IH, Allow_limit.
Qed.

Lemma run_window rl calls : window (run rl calls).2 = window rl.
Proof.
  revert rl. induction calls as [|[now k] calls IH]; intros rl; [done|].
  rewrite run_cons. cbn [snd]. by rewrite IH, Allow_window.
Qed.

Lemma tracks_Allow rl key a t now k :
  tracks rl key a t -> t <= now ->
  tracks (Allow rl now k).2 key
    (a ++ if decide (k = key) then if is_admitted (Allow rl now k).1 then [now] else []
          else []) now.
Proof.
  intros Ht Hle now' Hnow'. rewrite Allow_window.
  case_decide as Hk.
  - subst k.
    assert (Hv : later_than (now' - window rl) (prune (now + neg (window rl)) (requests rl !!! key))
                 = later_than (now' - window rl) a).
    { rewrite prune_later, later_than_later
        by (pose proof (neg_le (window rl)); lia).
      apply Ht. lia. }
    destruct (Allow_cases rl now key)
      as [[_ ->] | [(v0 & rest & _ & _ & ->) | (_ & _ & ->)]]; simpl.
    + rewrite lookup_total_insert_eq, !later_than_app. by rewrite Hv.
    + rewrite lookup_total_insert_eq, app_nil_r. exact Hv.
    + rewrite app_nil_r. apply Ht. lia.
  - rewrite Allow_other by done. rewrite app_nil_r. apply Ht. lia.
Qed.

Lemma tracks_run rl key a t calls :
  tracks rl key a t -> ordered t calls ->
  tracks (run rl calls).2 key (a ++ admissions rl calls key) (last_time t calls).
Proof.
  revert rl a t. induction calls as [|[now k] calls IH]; intros rl a t Ht Ho.
  - simpl. by rewrite app_nil_r.
  - destruct Ho as [Hle Ho]. rewrite run_cons, admissions_cons, app_assoc.
    cbn [snd last_time]. apply IH; [|done]. by apply (tracks_Allow rl key a t).
Qed.

Lemma tracks_new L W key t : tracks (NewRateLimiter L W) key [] t.
Proof. intros now _. unfold NewRateLimiter. simpl. by rewrite lookup_total_empty. Qed.

(** A call is admitted exactly when there is room in its window. *)
Lemma admitted_room L W t0 earlier now key :
  W ≠ minDuration ->
  ordered t0 (earlier ++ [(now, key)]) ->
  let rl := (run (NewRateLimiter L W) earlier).2 in
  is_admitted (Allow rl now key).1 = true
  <-> Z.of_nat (length (later_than (now - W)
                         (admissions (NewRateLimiter L W) earlier key))) < L.
Proof.
  intros HWm Ho rl. apply ordered_app in Ho as [Ho [Hle _]].
  pose proof (tracks_run (NewRateLimiter L W) key [] t0 earlier
                (tracks_new L W key t0) Ho) as Ht.
  simpl in Ht. fold rl in Ht. specialize (Ht now Hle).
  assert (HW : window rl = W) by (subst rl; by rewrite run_window).
  assert (HL : limit rl = L) by (subst rl; by rewrite run_limit).
  rewrite HW in Ht. rewrite <- Ht.
  replace (now - W) with (now + neg (window rl))
    by (rewrite HW, neg_opp by done; lia).
  rewrite <- prune_later.
  destruct (Allow_cases rl now key)
    as [[Hlt ->] | [(v0 & rest & _ & Hge & ->) | (E & Hl0 & ->)]]; simpl.
  - split; [intros _; lia|done].
  - split; [done|lia].
  - split; [done|]. rewrite E. simpl. lia.
Qed.

(** X3: the limiter is a sliding window.  For a window that is not the
    least duration, in a sequence of calls whose clock readings never go
    back, a call at [now] for a key is admitted exactly when fewer than
    [limit] earlier calls for that key were admitted after
    [now - window]. *)
Theorem admitted_iff_room L W t0 earlier now key :
  W ≠ minDuration ->
  ordered t0 (earlier ++ [(now, key)]) ->
  let rl := (run (NewRateLimiter L W) earlier).2 in
  is_admitted (Allow rl now key).1 = true
  <-> Z.of_nat (length (later_than (now - W)
                         (admissions (NewRateLimiter L W) earlier key))) < L.
Proof. apply admitted_room. Qed.

Lemma admitted_iff_room_witness :
  10 ≠ minDuration
  ∧ ordered 0 ([(3, "u"); (4, "u"); (5, "u")] ++ [(13, "u")])
  ∧ admissions (NewRateLimiter 2 10) [(3, "u"); (4, "u"); (5, "u")] "u" = [3; 4]
  ∧ is_admitted
      (Allow (run (NewRateLimiter 2 10) [(3, "u"); (4, "u"); (5, "u")]).2 13 "u").1
    = true.
Proof.
  assert (Ho : ordered 0 ([(3, "u"); (4, "u"); (5, "u")] ++ [(13, "u")])).
  { simpl. lia. }
  assert (Hw : 10 ≠ minDuration) by (by vm_compute).
  split; [exact Hw|]. split; [exact Ho|]. split; [reflexivity|].
  apply (admitted_iff_room 2 10 0 [(3, "u"); (4, "u"); (5, "u")] 13 "u" Hw Ho).
  vm_compute. reflexivity.
Defined.

Lemma filter_length_le (P Q : Z -> Prop) `{!∀ x, Decision (P x)} `{!∀ x, Decision (Q x)}
    (l : list Z) :
  (∀ x, P x -> Q x) -> (length (filter P l) <= length (filter Q l))%nat.
Proof.
  intros Himp. induction l as [|x l IH]; [done|].
  rewrite !filter_cons. repeat case_decide; simpl; try lia.
  exfalso. naive_solver.
Qed.

(** A window that is not positive holds nothing. *)
Lemma in_window_empty W T (l : list Z) : W <= 0 -> in_window W T l = [].
Proof.
  intros HW. unfold in_window. induction l as [|x l IH]; [done|].
  rewrite filter_cons. case_decide; [lia|done].
Qed.

(** The admissions within a window are bounded by the limit. *)
Lemma window_bound L W t0 calls key T :
  ordered t0 calls ->
  Z.of_nat (length (in_window W T (admissions (NewRateLimiter L W) calls key)))
  <= Z.max 0 L.
Proof.
  assert (Hmax : 0 <= Z.max 0 L ∧ L <= Z.max 0 L) by (split; apply Z.le_max_l || apply Z.le_max_r).
  revert Hmax. generalize (Z.max 0 L). intros M [HM0 HML].
  destruct (decide (W = minDuration)) as [->|HWm].
  { intros _. rewrite in_window_empty by (by vm_compute). simpl. lia. }
  revert T. induction calls as [|[now k] calls IH] using rev_ind; intros T Ho.
  { simpl. lia. }
  pose proof Ho as Ho'. apply ordered_app in Ho' as [Ho1 _].
  specialize (IH T Ho1).
  rewrite admissions_app. unfold in_window. rewrite filter_app, length_app.
  fold (in_window W T (admissions (NewRateLimiter L W) calls key)).
  rewrite admissions_cons. cbn [admissions]. rewrite app_nil_r.
  case_decide as Hk.
  2: { rewrite filter_nil. simpl. lia. }
  subst k.
  destruct (is_admitted (Allow (run (NewRateLimiter L W) calls).2 now key).1) eqn:Ea.
  2: { rewrite filter_nil. simpl. lia. }
  apply (admitted_room L W t0 calls now key HWm Ho) in Ea.
  rewrite filter_cons, filter_nil. case_decide as Hin; [|simpl; lia].
  assert (Hsub : (length (in_window W T (admissions (NewRateLimiter L W) calls key))
                  <= length (later_than (now - W)
                               (admissions (NewRateLimiter L W) calls key)))%nat).
  { apply filter_length_le. intros x. lia. }
  apply Nat2Z.inj_le in Hsub. simpl. lia.
Qed.

(** X4: no over-admission.  In a sequence of calls on a fresh limiter whose
    clock readings never go back, the calls admitted for one key within
    any window [(T - window, T]] are never more than [limit] (none when
    the limit is below 1). *)
Theorem at_most_limit_per_window L W t0 calls key T :
  ordered t0 calls ->
  Z.of_nat (length (in_window W T (admissions (NewRateLimiter L W) calls key)))
  <= Z.max 0 L.
Proof. apply window_bound. Qed.

Lemma at_most_limit_per_window_witness :
  ordered 0 [(3, "u"); (4, "u"); (5, "u"); (13, "u"); (14, "v"); (14, "u")]
  ∧ admissions (NewRateLimiter 2 10)
      [(3, "u"); (4, "u"); (5, "u"); (13, "u"); (14, "v"); (14, "u")] "u"
    = [3; 4; 13; 14]
  ∧ Z.of_nat (length (in_window 10 13
       (admissions (NewRateLimiter 2 10)
          [(3, "u"); (4, "u"); (5, "u"); (13, "u"); (14, "v"); (14, "u")] "u")))
    <= Z.max 0 2.
Proof.
  assert (Ho : ordered 0 [(3, "u"); (4, "u"); (5, "u"); (13, "u"); (14, "v"); (14, "u")]).
  { simpl. lia. }
  split; [exact Ho|]. split; [reflexivity|].
  apply (at_most_limit_per_window 2 10 0 _ "u" 13 Ho).
Defined.

(** *** Keys do not interfere *)

Lemma Allow_same_key rl1 rl2 now k :
  limit rl1 = limit rl2 -> window rl1 = window rl2 ->
  requests rl1 !!! k = requests rl2 !!! k ->
  (Allow rl1 now k).1 = (Allow rl2 now k).1
  ∧ requests (Allow rl1 now k).2 !!! k = requests (Allow rl2 now k).2 !!! k.
Proof.
  intros HL HW Hk. unfold Allow. cbv zeta. rewrite HL, HW, Hk.
  destruct (check (limit rl2) (window rl2) now (requests rl2 !!! k)) as [o [l|]];
    simpl; rewrite ?lookup_total_insert_eq; done.
Qed.

(** X5: keys are independent.  The outcomes of the calls for one key are
    those of the same calls made alone: calls for other keys, however
    many and whenever made, change nothing for it. *)
Theorem other_keys_do_not_interfere rl calls key :
  outcomes_for rl calls key
  = (run rl (filter (fun c => c.2 = key) calls)).1.
Proof.
  assert (H : ∀ calls rl1 rl2,
             limit rl1 = limit rl2 -> window rl1 = window rl2 ->
             requests rl1 !!! key = requests rl2 !!! key ->
             outcomes_for rl1 calls key
             = (run rl2 (filter (fun c => c.2 = key) calls)).1).
  { clear. induction calls as [|[now k] calls IH]; intros rl1 rl2 HL HW Hk; [done|].
    rewrite outcomes_for_cons, filter_cons. cbn [snd]. case_decide as Hkk.
    - subst k. rewrite run_cons. cbn [fst snd].
      destruct (Allow_same_key rl1 rl2 now key HL HW Hk) as [Ho Hr].
      rewrite Ho. cbn [app]. f_equal.
      apply IH; [by rewrite !Allow_limit|by rewrite !Allow_window|done].
    - cbn [app]. apply IH; [by rewrite Allow_limit|by rewrite Allow_window|].
      by rewrite Allow_other. }
  by apply H.
Qed.

End LimiterRunFacts.

(** ** Concurrent runs are sequential runs in the order of the mutex *)

Module LinearizationFacts.
Import Limiter LimiterFacts LimiterRuns LimiterRunFacts.
Import Concurrent ConcurrentFacts Linearization.

Lemma count_exists p (l : list goroutine) :
  (1 <= count p l)%nat -> ∃ (i : nat) g, l !! i = Some g ∧ p g = true.
Proof.
  induction l as [|g l IH]; simpl; [lia|].
  destruct (p g) eqn:E.
  - intros _. by exists 0%nat, g.
  - intros Hc. destruct IH as (i & g' & Hi & Hg); [simpl in Hc; lia|].
    by exists (S i), g'.
Qed.

Lemma count_zero p (l : list goroutine) (i : nat) g :
  count p l = 0%nat -> l !! i = Some g -> p g = false.
Proof.
  intros Hc Hi. destruct (p g) eqn:E; [|done].
  pose proof (count_pos p l i g Hi E). lia.
Qed.

Lemma last_time_snoc t calls now k :
  last_time t (calls ++ [(now, k)]) = now.
Proof.
  revert t. induction calls as [|[n k'] calls IH]; intros t; simpl; [done|].
  apply IH.
Qed.

Lemma calls_of_snoc userID log i now o :
  calls_of userID (log ++ [(i, now, o)]) = calls_of userID log ++ [(now, userID)].
Proof. unfold calls_of. by rewrite map_app. Qed.

Lemma outcomes_of_snoc log i now o :
  outcomes_of (log ++ [(i, now, o)]) = outcomes_of log ++ [o].
Proof. unfold outcomes_of. by rewrite map_app. Qed.

Lemma goroutines_of_snoc log i now o :
  goroutines_of (log ++ [(i, now, o)]) = goroutines_of log ++ [i].
Proof. unfold goroutines_of. by rewrite map_app. Qed.

Lemma goroutines_of_elem log (i : nat) :
  i ∈ goroutines_of log <-> ∃ now o, (i, now, o) ∈ log.
Proof.
  unfold goroutines_of. rewrite list_elem_of_In, in_map_iff. split.
  - intros ([[i' now] o] & Hi & Hin). simpl in Hi. subst i'.
    exists now, o. by apply list_elem_of_In.
  - intros (now & o & Hin). exists (i, now, o). split; [done|].
    by apply list_elem_of_In.
Qed.

Section Preservation.
Variable userID : string.
Variables (L W t0 : Z).

Lemma linearized_start N : linearized userID L W t0 (start L W N t0) [].
Proof.
  split; simpl.
  - constructor.
  - intros i o. split.
    + intros (now & Hin). by apply elem_of_nil in Hin.
    + destruct (replicate N AtLock !! i) as [g|] eqn:E; simpl; [|done].
      apply lookup_replicate in E as [-> _]. done.
  - done.
  - lia.
  - done.
  - by apply count_replicate.
  - intros i g [-> _]%lookup_replicate. exact I.
Qed.

(** The goroutine at [i] moved to [g'] without deciding anything new. *)
Lemma decided_same (pool : list goroutine) (i : nat) g g' :
  pool !! i = Some g -> decided g' = decided g ->
  ∀ (j : nat), <[i := g']> pool !! j ≫= decided = pool !! j ≫= decided.
Proof.
  intros Hi Hd j. destruct (decide (j = i)) as [->|Hne].
  - rewrite list_lookup_insert_eq by (by eapply lookup_lt_Some).
    rewrite Hi. simpl. done.
  - by rewrite list_lookup_insert_ne.
Qed.

Lemma linearized_step c c' log :
  linearized userID L W t0 c log -> step userID c c' ->
  ∃ log', linearized userID L W t0 c' log'.
Proof.
  intros [Hnd Hdec Hord Hlast Hrun Hmut Hloc] Hstep.
  inversion Hstep as [c0 d Hd | c0 i g mu' rl' g' Hi Hg]; subst; simpl in *.
  - (* time passes *)
    exists log. split; simpl; try done; try lia.
    intros i g Hi. specialize (Hloc i g Hi).
    destruct g; simpl in *; try done; intuition lia.
  - assert (Hothers : ∀ (j : nat) gj, in_cs g = true -> j ≠ i ->
               pool c !! j = Some gj -> in_cs gj = false).
    { intros j gj Hin Hne Hj. destruct (in_cs gj) eqn:E; [|done].
      exfalso. apply Hne. symmetry.
      apply (count_one_unique in_cs (pool c) i j g gj); try done.
      pose proof (count_pos in_cs _ _ _ Hi Hin).
      destruct (locked c); simpl in Hmut; lia. }
    assert (Hrest : ∀ (j : nat) gj c2 lo, in_cs g = true ->
              <[i := g']> (pool c) !! j = Some gj -> j ≠ i -> cs_ok userID c2 lo gj).
    { intros j gj c2 lo Hin Hj Hne. rewrite list_lookup_insert_ne in Hj by done.
      pose proof (Hothers j gj Hin Hne Hj). by destruct gj. }
    assert (Hme : ∀ (j : nat) gj, <[i := g']> (pool c) !! j = Some gj ->
              gj = g' ∨ j ≠ i).
    { intros j gj Hj. destruct (decide (j = i)) as [->|Hne]; [left|by right].
      rewrite list_lookup_insert_eq in Hj by (by eapply lookup_lt_Some).
      by simplify_eq. }
    assert (Hkeep : ∀ (j : nat) gj, <[i := g']> (pool c) !! j = Some gj -> j ≠ i ->
              cs_ok userID c (last_time t0 (calls_of userID log)) gj).
    { intros j gj Hj Hne. rewrite list_lookup_insert_ne in Hj by done. by apply Hloc in Hj. }
    pose proof (Hloc i g Hi) as Hlg.
    pose proof (count_insert in_cs _ _ _ g' Hi) as Hcnt.
    inversion Hg; subst; simpl in *.
    + (* Lock *)
      exists log. split; simpl; try done.
      * intros j o. rewrite (decided_same (pool c) i AtLock AtNow Hi eq_refl). apply Hdec.
      * match goal with H : false = locked c |- _ => rewrite <- H in Hmut end.
        simpl in Hmut. lia.
      * intros j gj Hj. destruct (Hme j gj Hj) as [->|Hne]; [done|]. by apply (Hkeep j).
    + (* time.Now() *)
      exists log. split; simpl; try done.
      * intros j o. rewrite (decided_same (pool c) i AtNow (AtLoad (clock c)) Hi eq_refl).
        apply Hdec.
      * lia.
      * intros j gj Hj. destruct (Hme j gj Hj) as [->|Hne]; [simpl; lia|]. by apply (Hkeep j).
    + (* reading the map *)
      exists log. split; simpl; try done.
      * intros j o.
        rewrite (decided_same (pool c) i (AtLoad now) (AtCheck now _) Hi eq_refl).
        apply Hdec.
      * lia.
      * intros j gj Hj. destruct (Hme j gj Hj) as [->|Hne]; [simpl; tauto|].
        by apply (Hkeep j).
    + (* the loop, the test and the store *)
      destruct Hlg as (Hlo & Hhi & ->).
      change (store (shared c) userID
                (check (limit (shared c)) (window (shared c)) now
                   (requests (shared c) !!! userID)).2)
        with (Allow (shared c) now userID).2 in *.
      change (check (limit (shared c)) (window (shared c)) now
                (requests (shared c) !!! userID)).1
        with (Allow (shared c) now userID).1 in *.
      set (o := (Allow (shared c) now userID).1) in *.
      exists (log ++ [(i, now, o)]).
      assert (Hfresh : i ∉ goroutines_of log).
      { intros Hin. apply goroutines_of_elem in Hin as (now' & o' & Hin).
        assert (Hex : ∃ n, (i, n, o') ∈ log) by (by exists now').
        apply Hdec in Hex. rewrite Hi in Hex. done. }
      split; simpl.
      * rewrite goroutines_of_snoc.
        apply NoDup_app. split; [done|]. split; [|by apply NoDup_singleton].
        intros x Hx ->%list_elem_of_singleton. done.
      * intros j o'. destruct (decide (j = i)) as [->|Hne].
        -- rewrite list_lookup_insert_eq by (by eapply lookup_lt_Some). simpl.
           split.
           ++ intros (n & Hin). apply elem_of_app in Hin as [Hin|Hin].
              ** exfalso. apply Hfresh. apply goroutines_of_elem. by exists n, o'.
              ** apply list_elem_of_singleton in Hin. by simplify_eq.
           ++ intros ?. simplify_eq. exists now. apply elem_of_app. right.
              by apply list_elem_of_singleton.
        -- rewrite list_lookup_insert_ne by done. rewrite <- Hdec. split.
           ++ intros (n & Hin). apply elem_of_app in Hin as [Hin|Hin]; [by exists n|].
              apply list_elem_of_singleton in Hin. by simplify_eq.
           ++ intros (n & Hin). exists n. apply elem_of_app. by left.
      * rewrite calls_of_snoc. apply ordered_app. split; [done|]. simpl. done.
      * rewrite calls_of_snoc. by rewrite last_time_snoc.
      * rewrite calls_of_snoc, outcomes_of_snoc, run_app, Hrun. reflexivity.
      * lia.
      * intros j gj Hj. destruct (Hme j gj Hj) as [->|Hne]; [done|].
        by apply (Hrest j).
    + (* the deferred Unlock *)
      exists log. split; simpl; try done.
      * intros j o'. rewrite (decided_same (pool c) i (AtUnlock o) (Done o) Hi eq_refl).
        apply Hdec.
      * match goal with H : true = locked c |- _ => rewrite <- H in Hmut end.
        simpl in Hmut. lia.
      * intros j gj Hj. destruct (Hme j gj Hj) as [->|Hne]; [done|]. by apply (Hkeep j).
Qed.

End Preservation.

Lemma step_pool_length userID c c' :
  step userID c c' -> length (pool c') = length (pool c).
Proof. inversion 1; subst; simpl; [done|]. by rewrite length_insert. Qed.

Lemma run_pool_length userID c c' :
  rtc (step userID) c c' -> length (pool c') = length (pool c).
Proof.
  induction 1 as [|c1 c2 c3 Hs _ IH]; [done|].
  rewrite IH. by eapply step_pool_length.
Qed.

Lemma reachable_run rl t calls :
  reachable rl t -> ordered t calls ->
  reachable (LimiterRuns.run rl calls).2 (last_time t calls).
Proof.
  revert rl t. induction calls as [|[now k] calls IH]; intros rl t Hr Ho; [done|].
  destruct Ho as [Hle Ho]. rewrite run_cons. cbn [snd last_time].
  apply IH; [|done]. by apply (reach_allow rl t).
Qed.

(** Every state reached by a run has a linearization. *)
Lemma linearization_exists userID L W N t0 c :
  rtc (step userID) (start L W N t0) c ->
  ∃ log, linearized userID L W t0 c log
    ∧ (finished c -> length log = N).
Proof.
  intros Hrun.
  assert (Hlin : ∃ log, linearized userID L W t0 c log).
  { revert c Hrun. apply (rtc_ind_r (fun c => ∃ log, linearized userID L W t0 c log)).
    - exists []. apply linearized_start.
    - intros c c' _ Hstep [log Hl]. by apply (linearized_step userID L W t0 c c' log). }
  destruct Hlin as [log Hl]. exists log. split; [done|].
  intros Hfin.
  pose proof (run_pool_length _ _ _ Hrun) as Hlen. simpl in Hlen.
  rewrite length_replicate in Hlen.
  destruct Hl as [Hnd Hdec _ _ _ _ _].
  assert (Hperm : goroutines_of log ≡ₚ seq 0 N).
  { apply NoDup_Permutation; [done|apply NoDup_seq|].
    intros i. rewrite goroutines_of_elem, elem_of_seq. split.
    - intros (now & o & Hin).
      assert (Hex : ∃ n, (i, n, o) ∈ log) by (by exists now).
      apply Hdec in Hex. destruct (pool c !! i) as [g|] eqn:E; [|done].
      apply lookup_lt_Some in E. lia.
    - intros [_ Hi]. simpl in Hi. rewrite <- Hlen in Hi.
      apply lookup_lt_is_Some in Hi as [g Hg].
      unfold finished in Hfin. rewrite Forall_lookup in Hfin.
      destruct (Hfin i g Hg) as [o ->].
      assert (Hd : pool c !! i ≫= decided = Some o) by (by rewrite Hg).
      apply Hdec in Hd as [now Hin]. by exists now, o. }
  apply Permutation_length in Hperm.
  unfold goroutines_of in Hperm. rewrite length_map, length_seq in Hperm. done.
Qed.

(** X6: every interleaving is a sequence of calls.  In every configuration
    that goroutines calling [Allow] can reach, under any schedule and for
    any limit and window, the calls that have passed their store can be
    listed in an order, with clock readings that never go back, such that
    making them one after the other on a fresh limiter gives each call the
    result it has and leaves the limiter as it is; once all goroutines
    have returned, the list has every one of them. *)
Theorem interleavings_are_sequential userID L W N t0 c :
  rtc (step userID) (start L W N t0) c ->
  ∃ log, linearized userID L W t0 c log
    ∧ (finished c -> length log = N).
Proof. apply linearization_exists. Qed.

Lemma interleavings_are_sequential_witness :
  ∃ c, Concurrent.run "u" schedule_all (start 2 60 3 100) = Some c
    ∧ ∃ log, linearized "u" 2 60 100 c log ∧ (finished c -> length log = 3%nat).
Proof.
  eexists. split; [vm_compute; reflexivity|].
  apply (interleavings_are_sequential "u" 2 60 3 100).
  apply run_sound with (s := schedule_all). vm_compute. reflexivity.
Defined.

(** X7: what holds of sequential calls holds under every interleaving.  In
    every configuration that concurrent goroutines can reach, the recorded
    sequence of every key is sorted and has at most [limit] entries, and
    the calls admitted so far, taken with the clock readings they made,
    are never more than [limit] within any window [(T - window, T]]. *)
Theorem concurrent_runs_keep_the_window userID L W N t0 c :
  rtc (step userID) (start L W N t0) c ->
  (∀ k, StronglySorted Z.le (requests (shared c) !!! k))
  ∧ (∀ k, Z.of_nat (length (requests (shared c) !!! k)) <= Z.max 0 L)
  ∧ ∃ log, linearized userID L W t0 c log
      ∧ ∀ T, Z.of_nat (length (in_window W T
                 (admissions (NewRateLimiter L W) (calls_of userID log) userID)))
             <= Z.max 0 L.
Proof.
  intros Hrun.
  destruct (linearization_exists userID L W N t0 c Hrun) as (log & Hl & _).
  pose proof (lin_ordered _ _ _ _ _ _ Hl) as Hord.
  pose proof (lin_run _ _ _ _ _ _ Hl) as Hr.
  assert (Hreach : reachable (shared c) (last_time t0 (calls_of userID log))).
  { replace (shared c)
      with (LimiterRuns.run (NewRateLimiter L W) (calls_of userID log)).2
      by (by rewrite Hr).
    apply reachable_run; [constructor|done]. }
  split; [intros k; apply (reachable_ok _ _ Hreach k)|].
  split.
  { intros k. pose proof (reachable_bounded _ _ Hreach k) as Hb.
    replace (limit (shared c)) with L in Hb; [done|].
    replace (shared c)
      with (LimiterRuns.run (NewRateLimiter L W) (calls_of userID log)).2
      by (by rewrite Hr).
    by rewrite run_limit. }
  exists log. split; [done|]. intros T.
  by apply (window_bound L W t0).
Qed.

Lemma concurrent_runs_keep_the_window_witness :
  ∃ c, Concurrent.run "u" schedule_late (start 1 1000 2 0) = Some c
    ∧ requests (shared c) !!! "u" = [1000]
    ∧ (∀ k, Z.of_nat (length (requests (shared c) !!! k)) <= Z.max 0 1).
Proof.
  eexists. split; [vm_compute; reflexivity|]. split; [reflexivity|].
  apply (concurrent_runs_keep_the_window "u" 1 1000 2 0).
  apply run_sound with (s := schedule_late). vm_compute. reflexivity.
Defined.

(** X8: the mutex never blocks everybody.  In every configuration that the
    goroutines can reach, either all of them have returned or one of them
    can take its next step: the mutex is held only by a goroutine that can
    go on to release it, also when its call panics. *)
Theorem no_deadlock userID L W N t0 c :
  rtc (step userID) (start L W N t0) c ->
  finished c ∨ can_step userID c.
Proof.
  intros Hrun.
  destruct (linearization_exists userID L W N t0 c Hrun) as (log & Hl & _).
  pose proof (lin_mutex _ _ _ _ _ _ Hl) as Hmut.
  destruct (locked c) eqn:Hmu; simpl in Hmut.
  - right. destruct (count_exists in_cs (pool c)) as (i & g & Hi & Hg); [lia|].
    unfold can_step. exists i. unfold exec. rewrite Hi, Hmu.
    destruct g; simpl in *; try done; eauto.
  - set (waiting := fun g => match g with AtLock => true | _ => false end).
    destruct (count waiting (pool c)) as [|n] eqn:Hw.
    + left. unfold finished. apply Forall_lookup. intros i g Hi.
      pose proof (count_zero in_cs (pool c) i g Hmut Hi) as Hg.
      pose proof (count_zero waiting (pool c) i g Hw Hi) as Hg'.
      destruct g; simpl in Hg, Hg'; try done. by eexists.
    + right. destruct (count_exists waiting (pool c)) as (i & g & Hi & Hg); [lia|].
      unfold can_step. exists i. unfold exec. rewrite Hi, Hmu.
      destruct g; simpl in *; try done; eauto.
Qed.

Lemma no_deadlock_witness :
  ∃ c, Concurrent.run "u" [Go 0; Go 0; Go 0]%nat (start 0 60 2 100) = Some c
    ∧ locked c = true
    ∧ (finished c ∨ can_step "u" c).
Proof.
  eexists. split; [vm_compute; reflexivity|]. split; [reflexivity|].
  apply (no_deadlock "u" 0 60 2 100).
  apply run_sound with (s := [Go 0; Go 0; Go 0]%nat). vm_compute. reflexivity.
Defined.

End LinearizationFacts.

(** ** Further properties of the completion client *)

Module ClientMoreFacts.
Import Client ClientFacts ClientNotions.

(** The five ways [Complete] goes. *)
Lemma Complete_cases env c messages tools searchFn w :
  let first := call env c messages tools w in
  let r := Complete env c messages tools searchFn w in
  (∃ e, first.1 = inl e ∧ r = (inl e, first.2))
  ∨ (∃ resp, first.1 = inr resp ∧ chatResponse.Choices resp = []
       ∧ r = (inl (Errorf "réponse vide du LLM"), first.2))
  ∨ (∃ resp msg rest, first.1 = inr resp ∧ chatResponse.Choices resp = msg :: rest
       ∧ honoured env first.1 searchFn = []
       ∧ r = (inr (CompletionResult.mk (Message.Content msg) false None ""), first.2))
  ∨ (∃ resp msg rest tc tcs f err,
       first.1 = inr resp ∧ chatResponse.Choices resp = msg :: rest
       ∧ Message.ToolCalls msg = tc :: tcs ∧ searchFn = Some f
       ∧ json_Unmarshal_SearchArgs env (FunctionCall.Arguments (ToolCall.Function_ tc))
         = inl err
       ∧ r = (inl (Errorf_w "arguments outil invalides: " err), first.2))
  ∨ (∃ resp msg rest tc tcs f args,
       first.1 = inr resp ∧ chatResponse.Choices resp = msg :: rest
       ∧ Message.ToolCalls msg = tc :: tcs ∧ searchFn = Some f
       ∧ json_Unmarshal_SearchArgs env (FunctionCall.Arguments (ToolCall.Function_ tc))
         = inr args
       ∧ let query := SearchArgs.Query args in
         let messages2 := messages ++ [assistant_turn msg; tool_turn tc (f query).1] in
         let r2 := call env c messages2 [] (searched first.2 query) in
         r = (second_phase (f query).2 query r2.1, r2.2)).
Proof.
  cbv zeta.
  destruct (call env c messages tools w) as [[e|resp] w1] eqn:E1.
  { left. exists e. split; [done|]. unfold Complete, bind. by rewrite E1. }
  right. simpl.
  destruct (chatResponse.Choices resp) as [|msg rest] eqn:E2.
  { left. exists resp. repeat split; try done. unfold Complete, bind.
    by rewrite E1, E2. }
  right.
  destruct (Message.ToolCalls msg) as [|tc tcs] eqn:E3.
  { left. exists resp, msg, rest. split; [done|]. split; [done|].
    split; [unfold honoured; simpl; by rewrite ?E2, ?E3|].
    apply (Complete_no_round env c messages tools w w1 resp msg rest E1 E2).
    by rewrite E3. }
  destruct searchFn as [f|].
  2: { left. exists resp, msg, rest. split; [done|]. split; [done|].
       split; [unfold honoured; simpl; by rewrite ?E2, ?E3|].
       apply (Complete_no_round env c messages tools w w1 resp msg rest E1 E2).
       by rewrite E3. }
  destruct (String.eqb_spec (FunctionCall.Name (ToolCall.Function_ tc)) "search_internet")
    as [Hn|Hn].
  2: { left. exists resp, msg, rest. split; [done|]. split; [done|].
       split.
       - unfold honoured. simpl. rewrite ?E2, ?E3. simpl.
         by apply String.eqb_neq in Hn as ->.
       - apply (Complete_no_round env c messages tools w w1 resp msg rest E1 E2).
         by rewrite E3. }
  right.
  destruct (json_Unmarshal_SearchArgs env (FunctionCall.Arguments (ToolCall.Function_ tc)))
    as [err|args] eqn:E4.
  - left. exists resp, msg, rest, tc, tcs, f, err. repeat split; try done.
    by apply (Complete_bad_arguments env c messages tools w w1 resp msg rest E1 E2 tc tcs).
  - right. exists resp, msg, rest, tc, tcs, f, args. repeat split; try done.
    by apply (Complete_round env c messages tools w w1 resp msg rest E1 E2 tc tcs).
Qed.

(** What one [call] sends and how it fails. *)
Lemma call_sends env c messages tools w :
  let r := call env c messages tools w in
  (∃ reqs, sent r.2 = sent w ++ reqs ∧ (length reqs <= 1)%nat
           ∧ Forall (request_by env c) reqs)
  ∧ (∀ e, r.1 = inl e -> transport_error env c e).
Proof.
  cbv zeta. unfold call, bind, log_call, lift, send, fail, ret. simpl.
  destruct (json_Marshal env _) as [e|body] eqn:Em; simpl.
  { split; [exists []; rewrite app_nil_r; split; [done|split; [simpl; lia|constructor]]|].
    intros e' ?; simplify_eq. by eapply te_marshal. }
  destruct (http_NewRequest env _ _ _) as [e|] eqn:En; simpl.
  { split; [exists []; rewrite app_nil_r; split; [done|split; [simpl; lia|constructor]]|].
    intros e' ?; simplify_eq. by eapply te_request. }
  assert (Hby : request_by env c (request_of c body)).
  { by exists messages, tools, body. }
  split.
  { exists [request_of c body]. unfold request_of.
    destruct (http_Do env _ _) as [e|st e|st body']; simpl;
      [|
       |destruct (negb _); simpl; [|destruct (json_Unmarshal_chatResponse env _)]];
      (split; [done|split; [simpl; lia|by constructor]]). }
  destruct (http_Do env _ _) as [e|st e|st body'] eqn:Ed; simpl.
  - intros e' ?; simplify_eq. by eapply te_network.
  - intros e' ?; simplify_eq. by eapply te_read.
  - destruct (Z.eqb_spec st 200) as [->|Hst]; simpl.
    + destruct (json_Unmarshal_chatResponse env body') as [e|r] eqn:Eu; simpl; [|done].
      intros e' ?; simplify_eq. by eapply te_decode.
    + intros e' ?; simplify_eq. by eapply te_status.
Qed.

(** The transport calls of [Complete]: the one asked for, and at most one
    more, without tools. *)
Lemma Complete_calls env c messages tools searchFn w :
  ∃ rest, calls (Complete env c messages tools searchFn w).2
          = calls w ++ (messages, tools) :: rest
    ∧ (length rest <= 1)%nat
    ∧ Forall (fun call => call.2 = []) rest.
Proof.
  pose proof (call_logs env c messages tools w) as [Hc1 _].
  destruct (Complete_cases env c messages tools searchFn w)
    as [(e & _ & E) | [(resp & _ & _ & E) | [(resp & msg & rest & _ & _ & _ & E)
       | [(resp & msg & rest & tc & tcs & f & err & _ & _ & _ & _ & _ & E)
       | (resp & msg & rest & tc & tcs & f & args & _ & _ & _ & Hf & _ & E)]]]];
    cbv zeta in E; rewrite E; cbn [snd];
    try (exists []; rewrite Hc1; split; [done|split; [simpl; lia|constructor]]).
  match goal with |- context [call env c ?m [] ?w0] =>
    pose proof (call_logs env c m [] w0) as [Hc2 _] end.
  rewrite Hc2. unfold searched. cbn [calls]. rewrite Hc1, <- app_assoc.
  eexists [_]. split; [done|]. split; [simpl; lia|]. by repeat constructor.
Qed.

(** What one [Complete] costs: at most two requests and one search. *)
Lemma Complete_cost env c messages tools searchFn w :
  let w' := (Complete env c messages tools searchFn w).2 in
  ∃ reqs queries,
    sent w' = sent w ++ reqs ∧ (length reqs <= 2)%nat
    ∧ searches w' = searches w ++ queries ∧ (length queries <= 1)%nat.
Proof.
  cbv zeta.
  destruct (call_sends env c messages tools w) as [(reqs1 & Hs1 & Hl1 & _) _].
  cbv zeta in Hs1.
  pose proof (call_logs env c messages tools w) as [_ Hq1].
  destruct (Complete_cases env c messages tools searchFn w)
    as [(e1 & _ & E) | [(resp & _ & _ & E) | [(resp & msg & rest & _ & _ & _ & E)
       | [(resp & msg & rest & tc & tcs & f & err & _ & _ & _ & _ & _ & E)
       | (resp & msg & rest & tc & tcs & f & args & _ & _ & _ & _ & _ & E)]]]];
    cbv zeta in E; rewrite E; cbn [snd];
    try (exists reqs1, []; rewrite Hs1, Hq1, app_nil_r;
         split; [done|split; [lia|split; [done|simpl; lia]]]).
  match goal with |- context [call env c ?m [] ?w0] =>
    destruct (call_sends env c m [] w0) as [(reqs2 & Hs2 & Hl2 & _) _];
    pose proof (call_logs env c m [] w0) as [_ Hq2] end.
  cbv zeta in Hs2. unfold searched in *. cbn [sent searches] in Hs2, Hq2.
  eexists (reqs1 ++ reqs2), [_]. rewrite Hs2, Hq2, Hs1, Hq1, length_app, <- app_assoc.
  split; [done|]. split; [lia|]. split; [done|]. simpl. lia.
Qed.

(** A result that says a search was used: the executor was given the
    query of the result, its text went into the tool turn of the second
    call, its error into the result. *)
Lemma Complete_searched env c messages tools f w res w' :
  Complete env c messages tools (Some f) w = (inr res, w') ->
  CompletionResult.WebSearchUsed res = true ->
  let query := CompletionResult.WebSearchQuery res in
  CompletionResult.WebSearchError res = (f query).2
  ∧ ∃ msg tc,
      calls w' = calls w ++ [(messages, tools);
                             (messages ++ [assistant_turn msg; tool_turn tc (f query).1],
                              [])].
Proof.
  intros HC Hu. cbv zeta.
  pose proof (call_logs env c messages tools w) as [Hc1 _].
  destruct (Complete_cases env c messages tools (Some f) w)
    as [(e & _ & E) | [(resp & _ & _ & E) | [(resp & msg & rest & _ & _ & _ & E)
       | [(resp & msg & rest & tc & tcs & f' & err & _ & _ & _ & _ & _ & E)
       | (resp & msg & rest & tc & tcs & f' & args & _ & _ & _ & Hf & _ & E)]]]];
    cbv zeta in E; rewrite E in HC; try discriminate HC.
  { injection HC as <- <-. discriminate Hu. }
  injection Hf as <-. revert HC.
  match goal with |- context [call env c ?m [] ?w0] =>
    pose proof (call_logs env c m [] w0) as [Hc2 _];
    destruct (call env c m [] w0) as [[e2|resp2] w2] eqn:E2 end;
    simpl in *; [done|].
  destruct (chatResponse.Choices resp2) as [|m2 rest2]; [done|].
  intros HC. injection HC as <- <-. simpl.
  split; [done|]. exists msg, tc. by rewrite Hc2, Hc1, <- app_assoc.
Qed.

(** X9: a result tells truly what happened.  Whenever [Complete] returns a
    result, either [WebSearchUsed] is false, there is no search error and
    no query, one transport call was made and the executor was not
    invoked; or [WebSearchUsed] is true, an executor was given and was
    invoked once, with [WebSearchQuery], [WebSearchError] is the error it
    returned, and a second transport call, without tools, was made. *)
Theorem result_is_consistent env c messages tools searchFn w res w' :
  Complete env c messages tools searchFn w = (inr res, w') ->
  (CompletionResult.WebSearchUsed res = false
   ∧ CompletionResult.WebSearchError res = None
   ∧ CompletionResult.WebSearchQuery res = ""
   ∧ calls w' = calls w ++ [(messages, tools)]
   ∧ searches w' = searches w)
  ∨ (CompletionResult.WebSearchUsed res = true
     ∧ searches w' = searches w ++ [CompletionResult.WebSearchQuery res]
     ∧ (∃ f, searchFn = Some f
          ∧ CompletionResult.WebSearchError res
            = (f (CompletionResult.WebSearchQuery res)).2)
     ∧ ∃ messages2, calls w' = calls w ++ [(messages, tools); (messages2, [])]).
Proof.
  intros HC.
  pose proof (call_logs env c messages tools w) as [Hc1 Hs1].
  destruct (Complete_cases env c messages tools searchFn w)
    as [(e & _ & E) | [(resp & _ & _ & E) | [(resp & msg & rest & _ & _ & _ & E)
       | [(resp & msg & rest & tc & tcs & f & err & _ & _ & _ & _ & _ & E)
       | (resp & msg & rest & tc & tcs & f & args & _ & _ & _ & Hf & _ & E)]]]];
    cbv zeta in E; rewrite E in HC; try discriminate HC.
  - left. injection HC as <- <-. by rewrite Hc1, Hs1.
  - right. revert HC.
    match goal with |- context [call env c ?m [] ?w0] =>
      pose proof (call_logs env c m [] w0) as [Hc2 Hs2];
      destruct (call env c m [] w0) as [[e2|resp2] w2] eqn:E2 end;
      simpl in *; [done|].
    destruct (chatResponse.Choices resp2) as [|m2 rest2]; [done|].
    intros HC. injection HC as <- <-. simpl.
    rewrite Hc2, Hs2, Hc1, Hs1, <- app_assoc. simpl.
    split; [done|]. split; [done|]. split; [by exists f|]. by eexists.
Qed.

Lemma result_is_consistent_witness :
  let env := Demo.service [Response 200 "propose"; Response 200 "answer"]
               "search_internet" Demo.query_x in
  ∃ res w', Complete env Demo.client Demo.history [SearchToolDef]
              (Some Demo.failing) world0 = (inr res, w')
    ∧ CompletionResult.WebSearchUsed res = true
    ∧ searches w' = ["x"]
    ∧ CompletionResult.WebSearchError res = Some (ErrLib "tavily: timeout").
Proof.
  cbv zeta. eexists _, _. split; [vm_compute; reflexivity|].
  pose (env := Demo.service [Response 200 "propose"; Response 200 "answer"]
                 "search_internet" Demo.query_x).
  destruct (result_is_consistent env Demo.client Demo.history [SearchToolDef]
              (Some Demo.failing) world0 _ _ eq_refl)
    as [(Hu & _) | (Hu & Hs & _ & _)]; [discriminate Hu|].
  split; [reflexivity|]. split; reflexivity.
Defined.

(** The errors of [Complete] are those of [call] and its own three. *)
Lemma Complete_error_cause env c messages tools searchFn w e :
  (Complete env c messages tools searchFn w).1 = inl e ->
  transport_error env c e ∨ protocol_error env e.
Proof.
  intros HC.
  destruct (call_sends env c messages tools w) as [_ He1]. cbv zeta in He1.
  destruct (Complete_cases env c messages tools searchFn w)
    as [(e1 & E1 & E) | [(resp & _ & _ & E) | [(resp & msg & rest & _ & _ & _ & E)
       | [(resp & msg & rest & tc & tcs & f & err & _ & _ & _ & _ & Hd & E)
       | (resp & msg & rest & tc & tcs & f & args & _ & _ & _ & _ & _ & E)]]]];
    cbv zeta in E; rewrite E in HC; simpl in HC; try discriminate HC.
  - injection HC as <-. left. by apply He1.
  - injection HC as <-. right. constructor.
  - injection HC as <-. right. by eapply pe_arguments.
  - revert HC.
    match goal with |- context [call env c ?m [] ?w0] =>
      destruct (call_sends env c m [] w0) as [_ He2]; cbv zeta in He2;
      destruct (call env c m [] w0) as [[e2|resp2] w2] eqn:E2 end;
      simpl in *.
    + intros HC. injection HC as <-. left. by apply He2.
    + destruct (chatResponse.Choices resp2); [|done].
      intros HC. injection HC as <-. right. constructor.
Qed.

(** The error of [Complete] does not depend on the errors of the
    executor: an executor that gives the same texts leads to the same
    error. *)
Lemma Complete_error_ignores_executor env c messages tools f g w e :
  (∀ query, (g query).1 = (f query).1) ->
  (Complete env c messages tools (Some f) w).1 = inl e ->
  (Complete env c messages tools (Some g) w).1 = inl e.
Proof.
  intros Hfg.
  destruct (call env c messages tools w) as [[e1|resp] w1] eqn:E1.
  { intros He.
    rewrite (Complete_first_error env c messages tools (Some f) w e1) in He
      by (by rewrite E1).
    rewrite (Complete_first_error env c messages tools (Some g) w e1)
      by (by rewrite E1).
    exact He. }
  destruct (chatResponse.Choices resp) as [|msg rest] eqn:E2.
  { unfold Complete, bind. by rewrite E1, E2. }
  destruct (Message.ToolCalls msg) as [|tc tcs] eqn:E3.
  { rewrite (Complete_no_round env c messages tools w w1 resp msg rest E1 E2)
      by (by rewrite E3). done. }
  destruct (String.eqb_spec (FunctionCall.Name (ToolCall.Function_ tc)) "search_internet")
    as [Hn|Hn].
  2: { rewrite (Complete_no_round env c messages tools w w1 resp msg rest E1 E2)
         by (by rewrite E3). done. }
  destruct (json_Unmarshal_SearchArgs env (FunctionCall.Arguments (ToolCall.Function_ tc)))
    as [err|args] eqn:E4.
  - rewrite (Complete_bad_arguments env c messages tools w w1 resp msg rest E1 E2
               tc tcs f E3 Hn err E4).
    by rewrite (Complete_bad_arguments env c messages tools w w1 resp msg rest E1 E2
                  tc tcs g E3 Hn err E4).
  - rewrite (Complete_round env c messages tools w w1 resp msg rest E1 E2
               tc tcs f E3 Hn args E4).
    rewrite (Complete_round env c messages tools w w1 resp msg rest E1 E2
               tc tcs g E3 Hn args E4).
    cbv zeta. cbn [fst]. rewrite Hfg.
    destruct (call env c _ [] _) as [[e2|resp2] w2]; simpl; [done|].
    by destruct (chatResponse.Choices resp2).
Qed.

(** X10: where the errors of [Complete] come from.  An error returned by
    [Complete] is one that [call] makes of a failure below it (the
    [APIError] of a response whose status is not 200, given to a request
    of this client, or a library error under one of the five prefixes of
    [call]), or one of the two errors of an empty response, or the wrapped
    error of arguments that do not decode.  It owes nothing to the errors
    of the executor: with any executor that returns the same texts,
    whatever errors it returns with them, [Complete] returns the same
    error. *)
Theorem errors_have_a_cause env c messages tools searchFn w e :
  (Complete env c messages tools searchFn w).1 = inl e ->
  (transport_error env c e ∨ protocol_error env e)
  ∧ (∀ f g, searchFn = Some f ->
       (∀ query, (g query).1 = (f query).1) ->
       (Complete env c messages tools (Some g) w).1 = inl e).
Proof.
  intros He. split; [by eapply Complete_error_cause|].
  intros f g -> Hfg. by apply (Complete_error_ignores_executor env c messages tools f g).
Qed.

Lemma errors_have_a_cause_witness :
  let env := Demo.service [Response 200 "propose"; Response 503 "busy"]
               "search_internet" Demo.query_x in
  let g := fun _ : string => ("result", Some (ErrLib "tavily: timeout")) in
  (Complete env Demo.client Demo.history [SearchToolDef] (Some Demo.found) world0).1
  = inl (ErrAPI (APIError.mk 503 "busy"))
  ∧ (transport_error env Demo.client (ErrAPI (APIError.mk 503 "busy"))
     ∨ protocol_error env (ErrAPI (APIError.mk 503 "busy")))
  ∧ (Complete env Demo.client Demo.history [SearchToolDef] (Some g) world0).1
    = inl (ErrAPI (APIError.mk 503 "busy")).
Proof.
  cbv zeta. split; [vm_compute; reflexivity|].
  destruct (errors_have_a_cause
              (Demo.service [Response 200 "propose"; Response 503 "busy"]
                 "search_internet" Demo.query_x)
              Demo.client Demo.history [SearchToolDef]
              (Some Demo.found) world0 (ErrAPI (APIError.mk 503 "busy")))
    as [Hcause Hsame]; [vm_compute; reflexivity|].
  split; [exact Hcause|].
  apply (Hsame Demo.found); [reflexivity|]. intros query. reflexivity.
Defined.

(** The requests of one [Complete]. *)
Lemma Complete_requests env c messages tools searchFn w :
  let w' := (Complete env c messages tools searchFn w).2 in
  ∃ reqs, sent w' = sent w ++ reqs
    ∧ (length reqs <= 2)%nat
    ∧ (length (sent w') - length (sent w) <= length (calls w') - length (calls w))%nat
    ∧ Forall (fun req => request_by env c req ∧ Method req = "POST"
                         ∧ URL req = baseURL c
                         ∧ Header req = [("Content-Type", "application/json");
                                         ("Authorization", "Bearer " +:+ apiKey c)])
        reqs.
Proof.
  cbv zeta.
  assert (Hwf : ∀ reqs, Forall (request_by env c) reqs ->
            Forall (fun req => request_by env c req ∧ Method req = "POST"
                         ∧ URL req = baseURL c
                         ∧ Header req = [("Content-Type", "application/json");
                                         ("Authorization", "Bearer " +:+ apiKey c)])
              reqs).
  { intros reqs H. eapply Forall_impl; [exact H|].
    intros req Hby. split; [done|]. by destruct Hby as (m & t & body & _ & ->). }
  destruct (call_sends env c messages tools w) as [(reqs1 & Hs1 & Hl1 & Hb1) _].
  cbv zeta in Hs1.
  pose proof (call_logs env c messages tools w) as [Hc1 _].
  destruct (Complete_cases env c messages tools searchFn w)
    as [(e1 & _ & E) | [(resp & _ & _ & E) | [(resp & msg & rest & _ & _ & _ & E)
       | [(resp & msg & rest & tc & tcs & f & err & _ & _ & _ & _ & _ & E)
       | (resp & msg & rest & tc & tcs & f & args & _ & _ & _ & _ & _ & E)]]]];
    cbv zeta in E; rewrite E; simpl;
    try (exists reqs1; rewrite Hs1, Hc1, !length_app; simpl;
         split; [done|split; [lia|split; [lia|by apply Hwf]]]).
  match goal with |- context [call env c ?m [] ?w0] =>
    destruct (call_sends env c m [] w0) as [(reqs2 & Hs2 & Hl2 & Hb2) _];
    pose proof (call_logs env c m [] w0) as [Hc2 _] end.
  cbv zeta in Hs2. simpl in Hs2, Hc2.
  exists (reqs1 ++ reqs2). rewrite Hs2, Hc2. unfold searched. simpl.
  rewrite Hs1, Hc1, !length_app, <- app_assoc. simpl.
  split; [done|]. split; [lia|]. split; [lia|].
  apply Hwf. by apply Forall_app.
Qed.

(** X11: what [Complete] sends.  During [Complete] at most two HTTP
    requests are sent, never more than transport calls are made; each is a
    POST to the client's base URL that carries the JSON content type and
    the bearer key, with for body the marshalled request of some
    conversation under the client's model. *)
Theorem requests_are_well_formed env c messages tools searchFn w :
  let w' := (Complete env c messages tools searchFn w).2 in
  ∃ reqs, sent w' = sent w ++ reqs
    ∧ (length reqs <= 2)%nat
    ∧ (length (sent w') - length (sent w) <= length (calls w') - length (calls w))%nat
    ∧ Forall (fun req => request_by env c req ∧ Method req = "POST"
                         ∧ URL req = baseURL c
                         ∧ Header req = [("Content-Type", "application/json");
                                         ("Authorization", "Bearer " +:+ apiKey c)])
        reqs.
Proof. apply Complete_requests. Qed.

End ClientMoreFacts.

(** ** Properties of the web search client *)

Module SearchFacts.
Import Search.

Lemma snippets_loop_fold results snippets n k :
  (k + n <= length results)%nat ->
  fold_left
    (fun acc i =>
       match acc with
       | None => None
       | Some snippets =>
           match results !! i with
           | None => None
           | Some r => Some (snippets ++ [snippet r])
           end
       end)
    (seq k n) (Some snippets)
  = Some (snippets ++ map snippet (take n (drop k results))).
Proof.
  revert snippets k. induction n as [|n IH]; intros snippets k Hk; simpl.
  { by rewrite app_nil_r. }
  destruct (lookup_lt_is_Some_2 results k) as [r Hr]; [lia|].
  rewrite Hr, IH by lia.
  rewrite (drop_S _ _ _ Hr). simpl. by rewrite <- app_assoc.
Qed.

(** The loop never leaves the slice: it gives the snippets of the first
    three results. *)
Lemma snippets_loop_take results :
  snippets_loop results (Nat.min 3 (length results))
  = Some (map snippet (take 3 results)).
Proof.
  unfold snippets_loop. rewrite snippets_loop_fold by lia.
  rewrite drop_0, app_nil_l. f_equal. f_equal.
  destruct (Nat.min_spec 3 (length results)) as [[_ ->]|[Hle ->]]; [done|].
  by rewrite !take_ge by lia.
Qed.

Lemma Join_nonempty x rest sep : x ≠ "" -> Join (x :: rest) sep ≠ "".
Proof.
  intros Hx. simpl. destruct rest; [done|].
  destruct x; [done|]. simpl. discriminate.
Qed.

Lemma Join_head x rest sep a s :
  x = String a s -> ∃ s', Join (x :: rest) sep = String a s'.
Proof.
  intros ->. simpl. destruct rest; [by eexists|]. simpl. by eexists.
Qed.

Lemma fallbackMessage_head : ∃ s, fallbackMessage = String "E" s.
Proof. eexists. vm_compute. reflexivity. Qed.

(** What [Search] returns, by cases on the environment. *)
Lemma Search_cases env c query :
  (∃ err, Search env c query = Some (fallbackMessage, Some err))
  ∨ (∃ body resp results,
       request_of env c query body
       ∧ http_Do env (Timeout c)
           (Client.mkHttpRequest "POST" "https://api.tavily.com/search"
              [("Content-Type", "application/json")] body) = inr resp
       ∧ StatusCode resp = 200
       ∧ json_Decode env (Body resp) = inr (mkTavilyResponse results)
       ∧ Search env c query
         = Some (match results with
                 | [] => "Aucune information récente trouvée sur le web."
                 | _ :: _ => Join (map snippet (take 3 results)) Client.LF
                 end, None)).
Proof.
  unfold Search, request_of.
  destruct (json_Marshal env _) as [e|body] eqn:Em; [left; by eexists|].
  destruct (http_NewRequest env _ _ _) as [e|] eqn:En; [left; by eexists|].
  destruct (http_Do env _ _) as [e|resp] eqn:Ed; [left; by eexists|].
  destruct (Z.eqb_spec (StatusCode resp) 200) as [Hs|Hs]; simpl;
    [|left; by eexists].
  destruct (json_Decode env _) as [e|[results]] eqn:Ej; [left; by eexists|].
  right. exists body, resp, results.
  split; [done|]. split; [done|]. split; [done|]. split; [done|].
  cbn [Results]. rewrite snippets_loop_take.
  destruct results as [|r0 rest]; [done|].
  by destruct rest as [|r1 [|r2 rest]].
Qed.

(** X12: [Search] always returns, and never an empty text.  The loop over
    the results never indexes outside the slice, so there is no panic;
    the text is the fallback message, the message that nothing was found,
    or the snippets, none of which is empty. *)
Theorem Search_returns_text env c query :
  ∃ text err, Search env c query = Some (text, err) ∧ text ≠ "".
Proof.
  destruct (Search_cases env c query)
    as [(err & ->) | (body & resp & results & _ & _ & _ & _ & ->)].
  - eexists _, _. split; [done|]. by destruct fallbackMessage_head as [s ->].
  - eexists _, _. split; [done|].
    destruct results as [|r0 rest]; [done|].
    destruct rest as [|r1 [|r2 rest]]; by apply Join_nonempty.
Qed.

(** X13: the text tells whether the search failed.  The text returned by
    [Search] is the fallback message exactly when an error is returned
    with it: no successful search gives the fallback message, whatever the
    titles and contents of the results. *)
Theorem fallback_exactly_on_error env c query text err :
  Search env c query = Some (text, err) ->
  text = fallbackMessage ↔ err ≠ None.
Proof.
  intros HS.
  destruct (Search_cases env c query)
    as [(err' & E) | (body & resp & results & _ & _ & _ & _ & E)];
    rewrite E in HS; injection HS as <- <-; [done|].
  split; [|done]. intros Hf. exfalso.
  destruct fallbackMessage_head as [s Hs]. rewrite Hs in Hf.
  destruct results as [|r0 rest]; [discriminate Hf|].
  destruct (Join_head (snippet r0) (map snippet (take 2 rest)) Client.LF "-"
              (" " +:+ Title r0 +:+ ": " +:+ Content r0) eq_refl) as [s' Hj].
  change (take 3 (r0 :: rest)) with (r0 :: take 2 rest) in Hf.
  rewrite map_cons, Hj in Hf. discriminate Hf.
Qed.

Lemma fallback_exactly_on_error_witness :
  Search (refusing 429) (NewClient "key") "dofus"
  = Some (fallbackMessage, Some (Client.Errorf "API Tavily HTTP 429"))
  ∧ (fallbackMessage = fallbackMessage
     ↔ Some (Client.Errorf "API Tavily HTTP 429") ≠ None).
Proof.
  split; [vm_compute; reflexivity|].
  apply (fallback_exactly_on_error (refusing 429) (NewClient "key") "dofus").
  vm_compute. reflexivity.
Defined.

(** X14: what a successful search is.  When [Search] returns no error,
    the service answered 200 to one POST of the marshalled request (the
    client's key, the query, depth basic, no answer) at the search URL,
    the body decoded, and the text is made of the first three results
    only, one line [- title: content] each, or says that nothing was
    found when there is no result. *)
Theorem successful_search env c query text :
  Search env c query = Some (text, None) ->
  ∃ body resp results,
    request_of env c query body
    ∧ http_Do env (Timeout c)
        (Client.mkHttpRequest "POST" "https://api.tavily.com/search"
           [("Content-Type", "application/json")] body) = inr resp
    ∧ StatusCode resp = 200
    ∧ json_Decode env (Body resp) = inr (mkTavilyResponse results)
    ∧ text = match results with
             | [] => "Aucune information récente trouvée sur le web."
             | _ :: _ => Join (map snippet (take 3 results)) Client.LF
             end.
Proof.
  intros HS.
  destruct (Search_cases env c query)
    as [(err' & E) | (body & resp & results & H1 & H2 & H3 & H4 & E)];
    rewrite E in HS; [discriminate HS|].
  injection HS as <-. by exists body, resp, results.
Qed.

Lemma successful_search_witness :
  Search (answering four_results) (NewClient "key") "dofus"
  = Some ("- a: 1" +:+ Client.LF +:+ "- b: 2" +:+ Client.LF +:+ "- c: 3", None)
  ∧ ∃ body resp results,
      request_of (answering four_results) (NewClient "key") "dofus" body
      ∧ http_Do (answering four_results) (Timeout (NewClient "key"))
          (Client.mkHttpRequest "POST" "https://api.tavily.com/search"
             [("Content-Type", "application/json")] body) = inr resp
      ∧ StatusCode resp = 200
      ∧ json_Decode (answering four_results) (Body resp)
        = inr (mkTavilyResponse results)
      ∧ "- a: 1" +:+ Client.LF +:+ "- b: 2" +:+ Client.LF +:+ "- c: 3"
        = match results with
          | [] => "Aucune information récente trouvée sur le web."
          | _ :: _ => Join (map snippet (take 3 results)) Client.LF
          end.
Proof.
  split; [vm_compute; reflexivity|].
  apply (successful_search (answering four_results) (NewClient "key") "dofus").
  vm_compute. reflexivity.
Defined.

End SearchFacts.

(** ** Properties of the configuration *)

Module ConfigFacts.
Import Config.

(** The five checks of [Load], one after the other. *)
Lemma Load_result godotenv_Load environ :
  let environ' := godotenv_Load environ in
  match (Load godotenv_Load environ).1 with
  | inr cfg =>
      missing environ' = []
      ∧ fields cfg = map (Getenv environ') variables
      ∧ Forall (fun v => v ≠ "") (fields cfg)
  | inl e =>
      ∃ v, head (missing environ') = Some v
           ∧ e = Client.Errorf (v +:+ " manquant dans l'environnement")
  end
  ∧ (Load godotenv_Load environ).2 = environ'.
Proof.
  cbv zeta. unfold Load, missing, variables, fields. cbn [DiscordToken DeepSeekKey
    TavilyKey DeepSeekURL DeepSeekModel].
  generalize (godotenv_Load environ). clear environ. intros environ.
  rewrite !filter_cons, filter_nil.
  destruct (String.eqb_spec (Getenv environ "DISCORD_TOKEN") "") as [E1|E1];
    [rewrite decide_True by done; split; [by eexists|done]
    |rewrite (decide_False (P := Getenv environ "DISCORD_TOKEN" = "")) by done].
  destruct (String.eqb_spec (Getenv environ "DEEPSEEK_API_KEY") "") as [E2|E2];
    [rewrite decide_True by done; split; [by eexists|done]
    |rewrite (decide_False (P := Getenv environ "DEEPSEEK_API_KEY" = "")) by done].
  destruct (String.eqb_spec (Getenv environ "TAVILY_API_KEY") "") as [E3|E3];
    [rewrite decide_True by done; split; [by eexists|done]
    |rewrite (decide_False (P := Getenv environ "TAVILY_API_KEY" = "")) by done].
  destruct (String.eqb_spec (Getenv environ "DEEPSEEK_URL") "") as [E4|E4];
    [rewrite decide_True by done; split; [by eexists|done]
    |rewrite (decide_False (P := Getenv environ "DEEPSEEK_URL" = "")) by done].
  destruct (String.eqb_spec (Getenv environ "DEEPSEEK_MODEL") "") as [E5|E5];
    [rewrite decide_True by done; split; [by eexists|done]
    |rewrite (decide_False (P := Getenv environ "DEEPSEEK_MODEL" = "")) by done].
  split; [|done]. split; [done|]. split; [done|].
  cbn [fst DiscordToken DeepSeekKey TavilyKey DeepSeekURL DeepSeekModel].
  repeat constructor; done.
Qed.

Lemma Load_fields godotenv_Load environ cfg :
  (Load godotenv_Load environ).1 = inr cfg ->
  fields cfg = map (Getenv (godotenv_Load environ)) variables
  ∧ Forall (fun v => v ≠ "") (fields cfg).
Proof.
  intros H. pose proof (Load_result godotenv_Load environ) as [Hr _].
  cbv zeta in Hr. rewrite H in Hr. by destruct Hr as (_ & ? & ?).
Qed.

(** X15: [Load] checks every variable.  With the environment that
    [godotenv.Load] leaves, [Load] returns a configuration exactly when
    none of the five variables is missing; its fields are then the values
    of the variables, in order, and none is empty.  Otherwise the error
    names the first missing variable, in the order of the fields. *)
Theorem Load_checks_every_variable godotenv_Load environ :
  let environ' := godotenv_Load environ in
  match (Load godotenv_Load environ).1 with
  | inr cfg =>
      missing environ' = []
      ∧ fields cfg = map (Getenv environ') variables
      ∧ Forall (fun v => v ≠ "") (fields cfg)
  | inl e =>
      ∃ v, head (missing environ') = Some v
           ∧ e = Client.Errorf (v +:+ " manquant dans l'environnement")
  end
  ∧ (Load godotenv_Load environ).2 = environ'.
Proof. apply Load_result. Qed.

End ConfigFacts.

(** ** Properties of the bot's handlers *)

Module BotFacts.
Import Discord Bot BotNotions.

Lemma length_append (s t : string) :
  String.length (s +:+ t) = (String.length s + String.length t)%nat.
Proof. induction s as [|a s IH]; simpl; [done|by rewrite IH]. Qed.

Lemma length_substring0 (n : nat) (s : string) :
  (n <= String.length s)%nat -> String.length (String.substring 0 n s) = n.
Proof.
  revert s. induction n as [|n IH]; intros s Hn.
  { by destruct s. }
  destruct s as [|a s]; simpl in *; [lia|]. rewrite IH; [done|lia].
Qed.

Lemma int64_small z : - 2 ^ 63 <= z < 2 ^ 63 -> int64 z = z.
Proof. intros Hz. unfold int64. rewrite Z.mod_small; lia. Qed.

Lemma int64_range z : - 2 ^ 63 <= int64 z < 2 ^ 63.
Proof.
  unfold int64. pose proof (Z.mod_pos_bound (z + 2 ^ 63) (2 ^ 64)). lia.
Qed.

(** X16: [truncate] keeps to the limit.  For a limit of at least 3,
    [truncate] returns, a string of at most [maxLen] bytes: [s] itself
    when it fits, and otherwise the first [maxLen - 3] bytes of [s]
    followed by three dots, [maxLen] bytes in all. *)
Theorem truncate_keeps_to_the_limit (s : string) (maxLen : Z) :
  3 <= maxLen < 2 ^ 63 ->
  ∃ t, truncate s maxLen = Some t
       ∧ Z.of_nat (String.length t) <= maxLen
       ∧ (Z.of_nat (String.length s) <= maxLen -> t = s)
       ∧ (maxLen < Z.of_nat (String.length s) ->
          t = String.substring 0 (Z.to_nat (maxLen - 3)) s +:+ "..."
          ∧ Z.of_nat (String.length t) = maxLen).
Proof.
  intros Hm. unfold truncate.
  destruct (Z.leb_spec (Z.of_nat (String.length s)) maxLen) as [Hle|Hgt].
  { exists s. split; [done|]. split; [done|]. split; [done|lia]. }
  rewrite int64_small by lia.
  destruct (Z.ltb_spec (maxLen - 3) 0) as [?|_]; [lia|].
  destruct (Z.ltb_spec (Z.of_nat (String.length s)) (maxLen - 3)) as [?|_]; [lia|].
  simpl. eexists. split; [done|].
  assert (Hlen : Z.of_nat (String.length
            (String.substring 0 (Z.to_nat (maxLen - 3)) s +:+ "...")) = maxLen).
  { rewrite length_append, length_substring0 by lia. simpl. lia. }
  split; [lia|]. split; [lia|]. done.
Qed.

Lemma truncate_keeps_to_the_limit_witness :
  ∃ t, truncate "Bonjour tout le monde" 10 = Some t
       ∧ Z.of_nat (String.length t) <= 10
       ∧ (Z.of_nat (String.length "Bonjour tout le monde") <= 10
          -> t = "Bonjour tout le monde")
       ∧ (10 < Z.of_nat (String.length "Bonjour tout le monde") ->
          t = String.substring 0 (Z.to_nat (10 - 3)) "Bonjour tout le monde" +:+ "..."
          ∧ Z.of_nat (String.length t) = 10).
Proof. apply (truncate_keeps_to_the_limit "Bonjour tout le monde" 10). lia. Defined.

(** X17: when [truncate] panics.  For a limit that is a Go [int],
    [truncate] panics exactly when the limit is below 3 and the string is
    longer than the limit: the slice [s[:maxLen-3]] then has a negative
    bound, or one beyond the string after the subtraction wrapped. *)
Theorem truncate_panics_below_three (s : string) (maxLen : Z) :
  - 2 ^ 63 <= maxLen < 2 ^ 63 ->
  Z.of_nat (String.length s) < 2 ^ 63 - 3 ->
  truncate s maxLen = None
  ↔ maxLen < 3 ∧ maxLen < Z.of_nat (String.length s).
Proof.
  intros Hm Hs. unfold truncate.
  destruct (Z.leb_spec (Z.of_nat (String.length s)) maxLen) as [Hle|Hgt].
  { split; [done|lia]. }
  destruct (Z_lt_le_dec maxLen 3) as [Hlt|Hge].
  - split; [done|]. intros _.
    destruct (Z_lt_le_dec (maxLen - 3) (- 2 ^ 63)) as [Hw|Hw].
    + assert (int64 (maxLen - 3) = maxLen - 3 + 2 ^ 64) as ->.
      { unfold int64. rewrite <- (Z_mod_plus_full _ 1), Z.mod_small; lia. }
      destruct (Z.ltb_spec (maxLen - 3 + 2 ^ 64) 0) as [_|_]; [done|].
      destruct (Z.ltb_spec (Z.of_nat (String.length s)) (maxLen - 3 + 2 ^ 64))
        as [_|?]; [done|lia].
    + rewrite int64_small by lia.
      destruct (Z.ltb_spec (maxLen - 3) 0) as [_|?]; [done|lia].
  - rewrite int64_small by lia.
    destruct (Z.ltb_spec (maxLen - 3) 0) as [?|_]; [lia|].
    destruct (Z.ltb_spec (Z.of_nat (String.length s)) (maxLen - 3)) as [?|_]; [lia|].
    simpl. split; [done|lia].
Qed.

Lemma truncate_panics_below_three_witness :
  truncate "abc" 2 = None ↔ 2 < 3 ∧ 2 < Z.of_nat (String.length "abc").
Proof. apply (truncate_panics_below_three "abc" 2); simpl; lia. Defined.

Lemma index_middle (a b : list Message.t) (x : Message.t) (i : Z) :
  i = Z.of_nat (length a) -> index (a ++ x :: b) i = Some x.
Proof.
  intros ->. unfold index. rewrite length_app. simpl.
  destruct (Z.ltb_spec (Z.of_nat (length a)) 0) as [?|_]; [lia|].
  destruct (Z.leb_spec (Z.of_nat (length a + S (length b))) (Z.of_nat (length a)))
    as [?|_]; [lia|].
  simpl. rewrite Nat2Z.id. by apply list_lookup_middle.
Qed.

Lemma assign_middle (a b : list Message.t) (x y : Message.t) (i : Z) :
  i = Z.of_nat (length a) -> assign (a ++ x :: b) i y = Some (a ++ y :: b).
Proof.
  intros ->. unfold assign. rewrite length_app. simpl.
  destruct (Z.ltb_spec (Z.of_nat (length a)) 0) as [?|_]; [lia|].
  destruct (Z.leb_spec (Z.of_nat (length a + S (length b))) (Z.of_nat (length a)))
    as [?|_]; [lia|].
  simpl. rewrite Nat2Z.id.
  replace (length a) with (length a + 0)%nat at 1 by lia.
  by rewrite insert_app_r.
Qed.

(** The reversing loop stays inside the slice and reverses it. *)
Lemma reverse_loop_middle fuel (a m b : list Message.t) :
  (length m <= fuel)%nat ->
  reverse_loop fuel (Z.of_nat (length a)) (Z.of_nat (length a + length m) - 1)
    (a ++ m ++ b)
  = Some (a ++ reverse m ++ b).
Proof.
  revert a m b. induction fuel as [|fuel IH]; intros a m b Hm.
  { destruct m; [|simpl in Hm; lia]. cbn [reverse_loop].
    destruct (Z.ltb_spec (Z.of_nat (length a))
                (Z.of_nat (length a + length (@nil Message.t)) - 1)) as [H|_];
      [simpl in H; lia|done]. }
  cbn [reverse_loop].
  destruct m as [|x m].
  { destruct (Z.ltb_spec (Z.of_nat (length a))
                (Z.of_nat (length a + length (@nil Message.t)) - 1)) as [H|_];
      [simpl in H; lia|done]. }
  destruct m as [|y m _] using rev_ind.
  { destruct (Z.ltb_spec (Z.of_nat (length a))
                (Z.of_nat (length a + length [x]) - 1)) as [H|_];
      [simpl in H; lia|done]. }
  simpl in Hm. rewrite length_app in Hm. simpl in Hm.
  destruct (Z.ltb_spec (Z.of_nat (length a))
              (Z.of_nat (length a + length (x :: m ++ [y])) - 1)) as [_|H];
    [|simpl in H; rewrite length_app in H; simpl in H; lia].
  assert (Hj : Z.of_nat (length a + length (x :: m ++ [y])) - 1
               = Z.of_nat (length (a ++ x :: m))).
  { simpl. rewrite !length_app. simpl. lia. }
  rewrite Hj.
  replace (a ++ (x :: m ++ [y]) ++ b) with ((a ++ x :: m) ++ y :: b)
    by (by rewrite <- !app_assoc; simpl; rewrite <- app_assoc).
  rewrite (index_middle (a ++ x :: m) b y) by done.
  replace ((a ++ x :: m) ++ y :: b) with (a ++ x :: (m ++ y :: b))
    by (by rewrite <- !app_assoc).
  rewrite (index_middle a (m ++ y :: b) x) by done.
  rewrite (assign_middle a (m ++ y :: b) x y) by done.
  replace (a ++ y :: m ++ y :: b) with ((a ++ y :: m) ++ y :: b)
    by (by rewrite <- !app_assoc).
  rewrite (assign_middle (a ++ y :: m) b y x)
    by (rewrite !length_app; simpl; lia).
  replace ((a ++ y :: m) ++ x :: b) with ((a ++ [y]) ++ m ++ (x :: b))
    by (by rewrite <- !app_assoc).
  replace (Z.of_nat (length a) + 1) with (Z.of_nat (length (a ++ [y])))
    by (rewrite length_app; simpl; lia).
  replace (Z.of_nat (length (a ++ x :: m)) - 1)
    with (Z.of_nat (length (a ++ [y]) + length m) - 1)
    by (rewrite !length_app; simpl; lia).
  rewrite IH by lia.
  rewrite reverse_cons, reverse_app. simpl.
  by rewrite <- !app_assoc.
Qed.

Lemma reverse_loop_reverse (msgs : list Message.t) :
  reverse_loop (length msgs) 0 (Z.of_nat (length msgs) - 1) msgs
  = Some (reverse msgs).
Proof.
  pose proof (reverse_loop_middle (length msgs) [] msgs [] (le_n _)) as H.
  simpl in H. by rewrite !app_nil_r in H.
Qed.

Lemma history_loop_turns env msgs history :
  history_loop env (State_User_ID (session env)) msgs history
  = history ++ omap (turn env) msgs.
Proof.
  revert history. induction msgs as [|msg msgs IH]; intros history; simpl.
  { by rewrite app_nil_r. }
  unfold turn at 1.
  destruct (Message.Author msg) as [author|]; [|by rewrite IH].
  destruct (String.eqb_spec (Message.Content msg) "") as [Hc|Hc].
  { rewrite decide_True by done. by rewrite IH. }
  rewrite (decide_False (P := Message.Content msg = "")) by done.
  destruct (String.eqb_spec (User.ID author) (State_User_ID (session env))) as [Hb|Hb].
  { rewrite decide_True by done. by rewrite IH, <- app_assoc. }
  rewrite (decide_False (P := User.ID author = _)) by done.
  destruct (String.eqb_spec (stripBotMention env (Message.Content msg)) "") as [Hs|Hs].
  { rewrite decide_True by done. by rewrite IH. }
  rewrite (decide_False (P := stripBotMention env _ = "")) by done.
  by rewrite IH, <- app_assoc.
Qed.

(** What [fetchChannelHistory] returns and does. *)
Lemma fetchChannelHistory_returns env channelID beforeID limit w :
  ∃ w',
    fetchChannelHistory env channelID beforeID limit w
    = Some (match ChannelMessages_result (session env) (length (discord w))
                    channelID limit beforeID with
            | inl _ => []
            | inr msgs => omap (turn env) (reverse msgs)
            end, w')
    ∧ rateLimiter w' = rateLimiter w
    ∧ completions w' = completions w
    ∧ discord w' = discord w ++ [ChannelMessages channelID limit beforeID "" ""].
Proof.
  unfold fetchChannelHistory, bind, on_session, log, ret.
  destruct (ChannelMessages_result _ _ _ _ _) as [err|msgs]; simpl.
  { by eexists. }
  rewrite reverse_loop_reverse. simpl. rewrite history_loop_turns.
  by eexists.
Qed.

Lemma replyToMessage_returns env m content w :
  ∃ w',
    replyToMessage env m content w = Some (tt, w')
    ∧ rateLimiter w' = rateLimiter w
    ∧ completions w' = completions w
    ∧ discord w'
      = discord w ++ [ChannelMessageSendComplex (Message.ChannelID m) content m].
Proof.
  unfold replyToMessage, bind, on_session, log, ret.
  destruct (ChannelMessageSendComplex_result _ _ _ _); simpl; by eexists.
Qed.

Lemma handleAIError_returns env m err w :
  ∃ w',
    handleAIError env m err w = Some (tt, w')
    ∧ rateLimiter w' = rateLimiter w
    ∧ completions w' = completions w
    ∧ discord w'
      = discord w
        ++ [ChannelMessageSendComplex (Message.ChannelID m)
              (match errors_As_APIError err with
               | Some apiErr => Client.UserMessage apiErr
               | None => generic_message
               end) m].
Proof.
  unfold handleAIError, bind, log.
  destruct (errors_As_APIError err) as [apiErr|].
  - destruct (replyToMessage_returns env m (Client.UserMessage apiErr)
               (mkWorld (rateLimiter w) (completions w) (discord w)
                  (logs w ++ [(LevelError, "Erreur API IA",
                     [Int_ "status" (Client.APIError.StatusCode apiErr);
                      String_ "body" (Client.APIError.Body apiErr)])])))
      as (w' & -> & ? & ? & ?).
    by exists w'.
  - destruct (replyToMessage_returns env m generic_message
               (mkWorld (rateLimiter w) (completions w) (discord w)
                  (logs w ++ [(LevelError, "Erreur API IA",
                     [String_ "error" (Error err)])])))
      as (w' & E & ? & ? & ?).
    exists w'. split; [exact E|done].
Qed.

Lemma UserMessage_short a : (String.length (Client.UserMessage a) <= 2000)%nat.
Proof.
  destruct (decide (Client.APIError.StatusCode a ∈ Client.known_codes)) as [Hk|Hk].
  - unfold Client.UserMessage. unfold Client.known_codes in Hk.
    repeat (apply elem_of_cons in Hk as [->|Hk]; [vm_compute; lia|]).
    by apply elem_of_nil in Hk.
  - rewrite ClientFacts.UserMessage_unknown by done. vm_compute. lia.
Qed.

Lemma truncate_keeps_to_the_limit_aux s :
  ∃ t, truncate s 2000 = Some t ∧ (String.length t <= 2000)%nat.
Proof.
  unfold truncate.
  destruct (Z.leb_spec (Z.of_nat (String.length s)) 2000) as [Hle|Hgt].
  { exists s. split; [done|lia]. }
  rewrite int64_small by lia.
  destruct (Z.ltb_spec (2000 - 3) 0) as [?|_]; [lia|].
  destruct (Z.ltb_spec (Z.of_nat (String.length s)) (2000 - 3)) as [?|_]; [lia|].
  simpl. eexists. split; [done|].
  rewrite length_append, length_substring0 by lia. simpl. lia.
Qed.

Lemma handleAIResponse_returns env b m author w :
  Message.Author m = Some author ->
  let history :=
    match ChannelMessages_result (session env) (S (length (discord w)))
            (Message.ChannelID m) 20 (Message.ID m) with
    | inl _ => []
    | inr msgs => omap (turn env) (reverse msgs)
    end in
  let r := Client.Complete (ai env) (aiClient b) (conversation env author m history)
             [Client.SearchToolDef]
             (Some (executor env b (length (Client.searches (completions w)))))
             (completions w) in
  ∃ w' content,
    handleAIResponse env b m w = Some (tt, w')
    ∧ rateLimiter w' = rateLimiter w
    ∧ completions w' = r.2
    ∧ discord w'
      = discord w
        ++ [ChannelTyping (Message.ChannelID m);
            ChannelMessages (Message.ChannelID m) 20 (Message.ID m) "" "";
            ChannelMessageSendComplex (Message.ChannelID m) content m]
    ∧ match r.1 with
      | inl err =>
          content = match errors_As_APIError err with
                    | Some apiErr => Client.UserMessage apiErr
                    | None => generic_message
                    end
      | inr result => truncate (Client.CompletionResult.Reply result) 2000 = Some content
      end
    ∧ (String.length content <= 2000)%nat.
Proof.
  intros HA. cbv zeta. unfold handleAIResponse, bind at 1, on_session at 1.
  rewrite HA.
  assert (HW : ∃ preview, truncateWords env (stripBotMention env (Message.Content m)) 10
                 = Some preview).
  { unfold truncateWords. destruct (_ <=? 10); [by eexists|]. simpl. by eexists. }
  destruct HW as [preview ->].
  unfold bind at 1, log at 1.
  cbn [rateLimiter completions discord logs].
  match goal with |- context [bind _ _ ?w1] =>
    destruct (fetchChannelHistory_returns env (Message.ChannelID m) (Message.ID m) 20 w1)
      as (w2 & Hf & Hr2 & Hc2 & Hd2) end.
  cbn [rateLimiter completions discord logs] in Hf, Hr2, Hc2, Hd2.
  rewrite length_app, Nat.add_1_r in Hf.
  unfold bind at 1. rewrite Hf. clear Hf.
  set (history := match ChannelMessages_result _ _ _ _ _ with
                  | inl _ => [] | inr msgs => omap (turn env) (reverse msgs) end).
  change (([] ++ [Client.Message.mk "system" systemPrompt [] ""]) ++ history ++ _)
    with (conversation env author m history).
  unfold bind at 1, complete at 1. rewrite Hc2.
  set (r := Client.Complete _ _ _ _ _ _).
  destruct r as [[err|result] cw]; cbn [fst snd].
  - destruct (handleAIError_returns env m err
                (mkWorld (rateLimiter w2) cw (discord w2) (logs w2)))
      as (w' & E & Hr & Hc & Hd).
    cbn [rateLimiter completions discord logs] in Hr, Hc, Hd.
    exists w'. eexists. split; [exact E|]. split; [congruence|]. split; [done|].
    split; [by rewrite Hd, Hd2, <- !app_assoc|]. split; [done|].
    destruct (errors_As_APIError err); [apply UserMessage_short|vm_compute; lia].
  - destruct (truncate_keeps_to_the_limit_aux (Client.CompletionResult.Reply result))
      as (content & Ht & Hlen).
    set (w3 := mkWorld (rateLimiter w2) cw (discord w2) (logs w2)).
    assert (HL : ∃ w4, (if Client.CompletionResult.WebSearchUsed result
          then
           match Client.CompletionResult.WebSearchError result with
           | Some serr =>
               log LevelError "Recherche web échouée"
                 [String_ "user" (User.Username author);
                  String_ "query"
                    (Client.CompletionResult.WebSearchQuery result);
                  String_ "error" (Error serr)]
           | None =>
               log LevelInfo "Recherche web utilisée"
                 [String_ "user" (User.Username author);
                  String_ "query"
                    (Client.CompletionResult.WebSearchQuery result)]
           end
          else ret ()) w3 = Some (tt, w4)
          ∧ rateLimiter w4 = rateLimiter w2 ∧ completions w4 = cw
          ∧ discord w4 = discord w2).
    { destruct (Client.CompletionResult.WebSearchUsed result);
        [destruct (Client.CompletionResult.WebSearchError result)|];
        by eexists. }
    destruct HL as (w4 & HL & Hr4 & Hc4 & Hd4).
    unfold bind at 1. rewrite HL, Ht.
    destruct (replyToMessage_returns env m content w4) as (w' & E & Hr & Hc & Hd).
    exists w', content. split; [exact E|]. split; [congruence|]. split; [congruence|].
    split; [by rewrite Hd, Hd4, Hd2, <- !app_assoc|]. split; [done|]. done.
Qed.

(** X18: the history is the channel in chronological order.
    [fetchChannelHistory] always returns, after one call of
    [ChannelMessages]; the reversing loop never leaves the slice.  The
    history is made of the messages Discord returned, taken from the
    oldest to the newest, each turned into an assistant turn when the bot
    wrote it and into a user turn otherwise, without those that have no
    author or no content, or nothing but a mention of the bot; it is empty
    when Discord returned an error.  Every turn has a role among assistant
    and user, a content that is not empty, and carries no tool call. *)
Theorem history_is_chronological env channelID beforeID limit w :
  let answer := ChannelMessages_result (session env) (length (discord w))
                  channelID limit beforeID in
  ∃ history w',
    fetchChannelHistory env channelID beforeID limit w = Some (history, w')
    ∧ discord w' = discord w ++ [ChannelMessages channelID limit beforeID "" ""]
    ∧ history = match answer with
                | inl _ => []
                | inr msgs => omap (turn env) (reverse msgs)
                end
    ∧ (length history <= match answer with
                         | inl _ => 0
                         | inr msgs => length msgs
                         end)%nat
    ∧ Forall (fun h => (Client.Message.Role h = "assistant"
                        ∨ Client.Message.Role h = "user")
                       ∧ Client.Message.Content h ≠ ""
                       ∧ Client.Message.ToolCalls h = []
                       ∧ Client.Message.ToolCallID h = "") history.
Proof.
  cbv zeta.
  destruct (fetchChannelHistory_returns env channelID beforeID limit w)
    as (w' & E & _ & _ & Hd).
  eexists _, w'. split; [exact E|]. split; [exact Hd|]. split; [done|].
  destruct (ChannelMessages_result _ _ _ _ _) as [err|msgs]; [by split|].
  split.
  { rewrite <- (length_reverse msgs). generalize (reverse msgs). intros l.
    induction l as [|x l IH]; simpl; [done|].
    change (list_omap _ _ (turn env) l) with (omap (turn env) l).
    destruct (turn env x); simpl; lia. }
  apply Forall_forall. intros h Hh.
  apply list_elem_of_omap in Hh as (msg & _ & Hturn).
  unfold turn in Hturn.
  destruct (Message.Author msg) as [author|]; [|done].
  destruct (decide (Message.Content msg = "")) as [|Hc]; [done|].
  destruct (decide (User.ID author = _)); [by simplify_eq; auto|].
  destruct (decide (stripBotMention env (Message.Content msg) = "")) as [|Hs]; [done|].
  simplify_eq. simpl. split; [by right|]. split; [|done].
  discriminate.
Qed.

Lemma mentioned_elem botID mentions :
  mentioned botID mentions = true ↔ ∃ u, u ∈ mentions ∧ User.ID u = botID.
Proof.
  induction mentions as [|u rest IH]; simpl.
  { split; [done|]. intros (u & Hu & _). by apply elem_of_nil in Hu. }
  destruct (String.eqb_spec (User.ID u) botID) as [Hb|Hb].
  - split; [|done]. intros _. exists u. split; [left|done].
  - rewrite IH. split.
    + intros (u' & Hu' & ?). exists u'. split; [by right|done].
    + intros (u' & Hu' & ?). apply elem_of_cons in Hu' as [->|Hu']; [done|].
      by exists u'.
Qed.

(** X19: when the bot stays silent.  The handler of a message leaves
    everything as it was (no call on the session, no call of the limiter
    or of the completion client, nothing logged) exactly when the message
    was written by the bot itself or mentions no user with the bot's
    identifier; in every other case it changes something or panics. *)
Theorem silent_unless_mentioned env b now m author w :
  Message.Author m = Some author ->
  onMessageCreate env b now m w = Some (tt, w)
  ↔ User.ID author = State_User_ID (session env)
    ∨ ∀ u, u ∈ Message.Mentions m -> User.ID u ≠ State_User_ID (session env).
Proof.
  intros HA.
  assert (Hm : isMentioned env m = false
               ↔ ∀ u, u ∈ Message.Mentions m
                      -> User.ID u ≠ State_User_ID (session env)).
  { unfold isMentioned. cbv zeta. rewrite <- not_true_iff_false, mentioned_elem.
    split; [intros H u Hu Hid; apply H; by exists u|].
    intros H (u & Hu & Hid). by apply (H u). }
  rewrite <- Hm. clear Hm.
  unfold onMessageCreate. rewrite HA.
  destruct (String.eqb_spec (User.ID author) (State_User_ID (session env)));
    [split; [by left|done]|].
  destruct (isMentioned env m); [|split; [by right|done]].
  cbn [negb]. split; [|by intros [?|?]]. intros E. exfalso. revert E.
  unfold bind at 1, allow.
  destruct (Limiter.Allow (rateLimiter w) now (User.ID author))
    as [[allowed retryAfter|] rl]; [|done].
  destruct allowed; cbn [negb].
  - match goal with |- context [handleAIResponse env b m ?w1] =>
      destruct (handleAIResponse_returns env b m author w1 HA)
        as (w' & content & Eh & _ & _ & Hd & _) end.
    rewrite Eh. intros [= ->]. cbn [discord] in Hd.
    apply (f_equal length) in Hd. rewrite length_app in Hd. simpl in Hd. lia.
  - match goal with |- context [replyToMessage env m ?c ?w1] =>
      destruct (replyToMessage_returns env m c w1) as (w' & Er & _ & _ & Hd) end.
    rewrite Er. intros [= ->]. cbn [discord] in Hd.
    apply (f_equal length) in Hd. rewrite length_app in Hd. simpl in Hd. lia.
Qed.

Lemma silent_unless_mentioned_witness :
  onMessageCreate (demo_env []) demo_bot 0
    (Message.mk "m4" "c1" "g1" "salut tout le monde" (Some bob) [bob]) world0
  = Some (tt, world0)
  ↔ User.ID bob = State_User_ID (session (demo_env []))
    ∨ ∀ u, u ∈ [bob] -> User.ID u ≠ State_User_ID (session (demo_env [])).
Proof.
  apply (silent_unless_mentioned (demo_env []) demo_bot 0
           (Message.mk "m4" "c1" "g1" "salut tout le monde" (Some bob) [bob]) bob).
  reflexivity.
Defined.

(** X20: a user over the limit is told to wait, and nothing else.  When
    [Allow] denies the author of a mention, the handler sends one reply,
    to that message, which gives the time to wait that [Allow] returned;
    the completion client is not called and the history is not fetched. *)
Theorem denied_user_is_told_to_wait env b now m author w retryAfter rl :
  Message.Author m = Some author ->
  User.ID author ≠ State_User_ID (session env) ->
  isMentioned env m = true ->
  Limiter.Allow (rateLimiter w) now (User.ID author)
  = (Limiter.Returned false retryAfter, rl) ->
  ∃ w',
    onMessageCreate env b now m w = Some (tt, w')
    ∧ rateLimiter w' = rl
    ∧ completions w' = completions w
    ∧ discord w'
      = discord w
        ++ [ChannelMessageSendComplex (Message.ChannelID m)
              ("⏳ Hop là, tu t'es pris pour Flasho ?! Attends encore "
               +:+ Sprintf_seconds (lib env) retryAfter
               +:+ " secondes et là j'accepterai de t'écouter.") m].
Proof.
  intros HA Hb Hm HAllow. unfold onMessageCreate. rewrite HA.
  destruct (String.eqb_spec (User.ID author) (State_User_ID (session env)));
    [done|].
  rewrite Hm. cbn [negb]. unfold bind at 1, allow. rewrite HAllow. cbn [negb].
  match goal with |- context [replyToMessage env m ?c ?w1] =>
    destruct (replyToMessage_returns env m c w1) as (w' & E & Hr & Hc & Hd) end.
  exists w'. split; [exact E|]. done.
Qed.

Lemma denied_user_is_told_to_wait_witness :
  let w := mkWorld (Limiter.set_requests (rateLimiter world0) "42" [1; 2; 3; 4; 5])
             Client.world0 [] [] in
  ∃ w',
    onMessageCreate (demo_env []) demo_bot 6 mention w = Some (tt, w')
    ∧ rateLimiter w' = rateLimiter w
    ∧ completions w' = completions w
    ∧ discord w'
      = discord w
        ++ [ChannelMessageSendComplex "c1"
              ("⏳ Hop là, tu t'es pris pour Flasho ?! Attends encore "
               +:+ "12.0"
               +:+ " secondes et là j'accepterai de t'écouter.") mention].
Proof.
  cbv zeta.
  apply (denied_user_is_told_to_wait (demo_env []) demo_bot 6 mention bob _
           59999999995); [reflexivity|discriminate|reflexivity|].
  vm_compute. reflexivity.
Defined.

(** X21: every mention is answered once.  For a limiter whose limit is at
    least 1, the handler of a message that mentions the bot, written by
    another user, does not panic and sends exactly one reply: to that
    message, in its channel, as the last call it makes on the session.
    The limit of the limiter is left as it was, so that this holds for
    every later message too. *)
Theorem every_mention_is_answered_once env b now m author w :
  Message.Author m = Some author ->
  User.ID author ≠ State_User_ID (session env) ->
  isMentioned env m = true ->
  0 < Limiter.limit (rateLimiter w) ->
  ∃ w' calls content,
    onMessageCreate env b now m w = Some (tt, w')
    ∧ discord w' = discord w ++ calls
    ∧ replies calls = [(Message.ChannelID m, content, m)]
    ∧ last calls = Some (ChannelMessageSendComplex (Message.ChannelID m) content m)
    ∧ Limiter.limit (rateLimiter w') = Limiter.limit (rateLimiter w).
Proof.
  intros HA Hb Hm Hlim. unfold onMessageCreate. rewrite HA.
  destruct (String.eqb_spec (User.ID author) (State_User_ID (session env)));
    [done|].
  rewrite Hm. cbn [negb]. unfold bind at 1, allow.
  pose proof (LimiterRunFacts.Allow_limit (rateLimiter w) now (User.ID author)) as HL.
  destruct (LimiterRunFacts.Allow_cases (rateLimiter w) now (User.ID author))
    as [[_ E] | [(v0 & rest & _ & _ & E) | (_ & ? & _)]]; [| |lia];
    rewrite E in HL |- *; cbn [negb snd] in *.
  - match goal with |- context [handleAIResponse env b m ?w1] =>
      destruct (handleAIResponse_returns env b m author w1 HA)
        as (w' & content & Eh & Hr & _ & Hd & _) end.
    cbn [rateLimiter discord] in Hr, Hd.
    eexists w', _, content. split; [exact Eh|]. split; [exact Hd|].
    split; [done|]. split; [done|]. by rewrite Hr.
  - match goal with |- context [replyToMessage env m ?c ?w1] =>
      destruct (replyToMessage_returns env m c w1) as (w' & Er & Hr & _ & Hd) end.
    cbn [rateLimiter discord] in Hr, Hd.
    eexists w', [_], _. split; [exact Er|]. split; [exact Hd|].
    split; [done|]. split; [done|]. by rewrite Hr.
Qed.

Lemma every_mention_is_answered_once_witness :
  ∃ w' calls content,
    onMessageCreate (demo_env [Client.Response 200 "answer"]) demo_bot 0 mention world0
    = Some (tt, w')
    ∧ discord w' = discord world0 ++ calls
    ∧ replies calls = [("c1", content, mention)]
    ∧ last calls = Some (ChannelMessageSendComplex "c1" content mention)
    ∧ Limiter.limit (rateLimiter w') = Limiter.limit (rateLimiter world0).
Proof.
  apply (every_mention_is_answered_once _ demo_bot 0 mention bob world0);
    [reflexivity|discriminate|reflexivity|reflexivity].
Defined.

(** X22: what the model is asked.  [handleAIResponse] makes one
    completion.  Its first call is given the system prompt, then the
    history of the channel before the message, fetched with a limit of 20,
    then the message itself as a user turn under the author's name, with
    the search tool as only tool; at most one more call follows, without
    tools.  The limiter is not touched. *)
Theorem model_is_asked_with_the_history env b m author w :
  Message.Author m = Some author ->
  let history :=
    match ChannelMessages_result (session env) (S (length (discord w)))
            (Message.ChannelID m) 20 (Message.ID m) with
    | inl _ => []
    | inr msgs => omap (turn env) (reverse msgs)
    end in
  ∃ w' rest,
    handleAIResponse env b m w = Some (tt, w')
    ∧ Client.calls (completions w')
      = Client.calls (completions w)
        ++ (Client.Message.mk "system" systemPrompt [] ""
            :: history
            ++ [Client.Message.mk "user"
                  ("[" +:+ User.Username author +:+ "] "
                   +:+ stripBotMention env (Message.Content m)) [] ""],
            [Client.SearchToolDef]) :: rest
    ∧ (length rest <= 1)%nat
    ∧ Forall (fun call => call.2 = []) rest
    ∧ rateLimiter w' = rateLimiter w.
Proof.
  intros HA. cbv zeta.
  destruct (handleAIResponse_returns env b m author w HA)
    as (w' & content & Eh & Hr & Hc & _).
  cbv zeta in Hc.
  match type of Hc with _ = (Client.Complete ?e ?c ?ms ?ts ?f ?cw).2 =>
    destruct (ClientMoreFacts.Complete_calls e c ms ts f cw) as (rest & Hcalls & Hlen & Hno)
  end.
  exists w', rest. split; [exact Eh|]. rewrite Hc, Hcalls. done.
Qed.

Lemma model_is_asked_with_the_history_witness :
  ∃ w' rest,
    handleAIResponse (demo_env [Client.Response 200 "answer"]) demo_bot mention world0
    = Some (tt, w')
    ∧ Client.calls (completions w')
      = Client.calls (completions world0)
        ++ ([Client.Message.mk "system" systemPrompt [] "";
             Client.Message.mk "user" "[bob] salut" [] "";
             Client.Message.mk "assistant" "Va voir au Zaap." [] "";
             Client.Message.mk "user" "[bob] c'est quoi la meta ?" [] ""],
            [Client.SearchToolDef]) :: rest
    ∧ (length rest <= 1)%nat
    ∧ Forall (fun call => call.2 = []) rest
    ∧ rateLimiter w' = rateLimiter world0.
Proof.
  apply (model_is_asked_with_the_history
           (demo_env [Client.Response 200 "answer"]) demo_bot mention bob world0).
  reflexivity.
Defined.

(** X23: no reply is longer than Discord takes.  [handleAIResponse] does
    not panic and ends with one reply to the message, after the typing
    indicator and the request for the history.  The reply is the answer
    of the completion cut by [truncate] at 2000 bytes when the completion
    succeeded; when it failed, it is the message of [UserMessage] for the
    [APIError] that the error holds, and the general message when it
    holds none.  In every case the reply has at most 2000 bytes. *)
Theorem replies_fit_in_a_message env b m author w :
  Message.Author m = Some author ->
  let history :=
    match ChannelMessages_result (session env) (S (length (discord w)))
            (Message.ChannelID m) 20 (Message.ID m) with
    | inl _ => []
    | inr msgs => omap (turn env) (reverse msgs)
    end in
  let r := Client.Complete (ai env) (aiClient b) (conversation env author m history)
             [Client.SearchToolDef]
             (Some (executor env b (length (Client.searches (completions w)))))
             (completions w) in
  ∃ w' content,
    handleAIResponse env b m w = Some (tt, w')
    ∧ completions w' = r.2
    ∧ discord w'
      = discord w
        ++ [ChannelTyping (Message.ChannelID m);
            ChannelMessages (Message.ChannelID m) 20 (Message.ID m) "" "";
            ChannelMessageSendComplex (Message.ChannelID m) content m]
    ∧ match r.1 with
      | inl err =>
          content = match errors_As_APIError err with
                    | Some apiErr => Client.UserMessage apiErr
                    | None => generic_message
                    end
      | inr result => truncate (Client.CompletionResult.Reply result) 2000 = Some content
      end
    ∧ (String.length content <= 2000)%nat.
Proof.
  intros HA. cbv zeta.
  destruct (handleAIResponse_returns env b m author w HA)
    as (w' & content & Eh & Hr & Hc & Hd & Hcontent & Hlen).
  by exists w', content.
Qed.

Lemma replies_fit_in_a_message_witness :
  ∃ w',
    handleAIResponse (demo_env [Client.Response 200 "answer"]) demo_bot mention world0
    = Some (tt, w')
    ∧ discord w'
      = [ChannelTyping "c1"; ChannelMessages "c1" 20 "m3" "" "";
         ChannelMessageSendComplex "c1" "Va voir au Zaap." mention].
Proof.
  destruct (replies_fit_in_a_message
              (demo_env [Client.Response 200 "answer"]) demo_bot mention bob world0
              eq_refl)
    as (w' & content & E & _ & Hd & Hcontent & _).
  exists w'. split; [exact E|].
  vm_compute in Hcontent. injection Hcontent as <-. exact Hd.
Defined.

Lemma transport_error_plain env c e :
  library_errors_plain env ->
  ClientNotions.transport_error env c e ->
  (∃ n req status body,
     ClientNotions.request_by env c req
     ∧ Client.http_Do env n req = Client.Response status body
     ∧ status ≠ 200
     ∧ e = Client.ErrAPI (Client.APIError.mk status body))
  ∨ errors_As_APIError e = None.
Proof.
  intros (H1 & H2 & H3 & H4 & H5 & H6) [req err H|body err H|n req err H
    |n req status err H|n req status body H Hs Hby|n req body err H Hu].
  - right. simpl. by eapply H1.
  - right. simpl. by eapply H2.
  - right. simpl. by eapply H3.
  - right. simpl. by eapply H4.
  - left. by exists n, req, status, body.
  - right. simpl. by eapply H5.
Qed.

Lemma protocol_error_plain env e :
  library_errors_plain env ->
  ClientNotions.protocol_error env e -> errors_As_APIError e = None.
Proof.
  intros (H1 & H2 & H3 & H4 & H5 & H6) [| |raw err H]; [done|done|].
  simpl. by eapply H6.
Qed.

(** X24: the message for a status is shown only when the service gave
    that status.  When the errors of the libraries hold no [APIError],
    [handleAIError], given an error of [Complete], replies once.  Either
    the completion service answered a request of the client with a status
    other than 200, the error is the [APIError] of that answer, and the
    reply is the message of [UserMessage] for it; or the error holds no
    [APIError] and the reply is the general message. *)
Theorem status_message_only_when_refused env b m messages tools searchFn cw e w :
  library_errors_plain (ai env) ->
  (Client.Complete (ai env) (aiClient b) messages tools searchFn cw).1 = inl e ->
  ∃ w' content,
    handleAIError env m e w = Some (tt, w')
    ∧ discord w'
      = discord w ++ [ChannelMessageSendComplex (Message.ChannelID m) content m]
    ∧ ((∃ n req status body,
          ClientNotions.request_by (ai env) (aiClient b) req
          ∧ Client.http_Do (ai env) n req = Client.Response status body
          ∧ status ≠ 200
          ∧ e = Client.ErrAPI (Client.APIError.mk status body)
          ∧ content = Client.UserMessage (Client.APIError.mk status body))
       ∨ (errors_As_APIError e = None ∧ content = generic_message)).
Proof.
  intros Hplain HC.
  destruct (handleAIError_returns env m e w) as (w' & E & _ & _ & Hd).
  eexists w', _. split; [exact E|]. split; [exact Hd|].
  destruct (ClientMoreFacts.Complete_error_cause _ _ _ _ _ _ _ HC) as [Ht|Hp].
  - destruct (transport_error_plain _ _ _ Hplain Ht)
      as [(n & req & status & body & Hby & Hdo & Hs & ->)| ->].
    + left. by exists n, req, status, body.
    + by right.
  - rewrite (protocol_error_plain _ _ Hplain Hp). by right.
Qed.

Lemma demo_errors_plain script :
  Forall (fun r => match r with
                   | Client.Response _ _ => True
                   | _ => False
                   end) script ->
  library_errors_plain (ai (demo_env script)).
Proof.
  intros Hs. split; [done|]. split; [done|].
  assert (Hn : ∀ n, (∃ status body, nth n script (Client.DoFails (Client.ErrLib "EOF"))
                      = Client.Response status body)
                    ∨ nth n script (Client.DoFails (Client.ErrLib "EOF"))
                      = Client.DoFails (Client.ErrLib "EOF")).
  { induction Hs as [|r script Hr _ IH]; intros n.
    - right. by destruct n.
    - destruct n as [|n]; [|apply IH]. left. destruct r; try done. by eexists _, _. }
  split; [|split; [|split; [|done]]].
  - intros n req err. simpl. destruct (Hn n) as [(st & body & ->)| ->]; [done|].
    by intros [= <-].
  - intros n req status err. simpl.
    by destruct (Hn n) as [(st & body & ->)| ->].
  - intros body err. simpl. unfold Demo.decode.
    repeat case_match; try done. by intros [= <-].
Qed.

Lemma status_message_only_when_refused_witness :
  let env := demo_env [Client.Response 429 "slow down"] in
  ∃ w',
    handleAIError env mention (Client.ErrAPI (Client.APIError.mk 429 "slow down")) world0
    = Some (tt, w')
    ∧ discord w'
      = [ChannelMessageSendComplex "c1" (Client.message_of 429) mention].
Proof.
  cbv zeta.
  destruct (status_message_only_when_refused
              (demo_env [Client.Response 429 "slow down"]) demo_bot mention
              Demo.history [Client.SearchToolDef] None Client.world0
              (Client.ErrAPI (Client.APIError.mk 429 "slow down")) world0)
    as (w' & content & E & Hd & Hcontent).
  { apply demo_errors_plain. by repeat constructor. }
  { vm_compute. reflexivity. }
  exists w'. split; [exact E|].
  destruct Hcontent as [(n & req & status & body & _ & _ & _ & He & ->)|[He _]];
    [|discriminate He].
  injection He as <- <-. exact Hd.
Defined.

Lemma executor_is_Search env b n query :
  Search.Search (tavily env n) (searchClient b) query = Some (executor env b n query).
Proof.
  unfold executor.
  by destruct (SearchFacts.Search_cases (tavily env n) (searchClient b) query)
    as [(err & ->) | (body & resp & results & _ & _ & _ & _ & ->)].
Qed.

(** X25: what the model is told of a search.  When a completion of the
    bot used the search, [Search] was run on the query of the result and
    returned the text and the error with which the completion went on:
    the text, never empty, is the content of the tool turn that ends the
    second request, and the error is [WebSearchError].  So the model was
    given the fallback instruction exactly when the result records an
    error of the search. *)
Theorem model_is_told_of_a_failed_search env b messages tools cw result cw' :
  let n := length (Client.searches cw) in
  Client.Complete (ai env) (aiClient b) messages tools (Some (executor env b n)) cw
  = (inr result, cw') ->
  Client.CompletionResult.WebSearchUsed result = true ->
  ∃ text proposal toolTurn,
    Search.Search (tavily env n) (searchClient b)
      (Client.CompletionResult.WebSearchQuery result)
    = Some (text, Client.CompletionResult.WebSearchError result)
    ∧ Client.calls cw'
      = Client.calls cw ++ [(messages, tools);
                            (messages ++ [proposal; toolTurn], [])]
    ∧ Client.Message.Role toolTurn = "tool"
    ∧ Client.Message.Content toolTurn = text
    ∧ text ≠ ""
    ∧ (text = Search.fallbackMessage
       ↔ Client.CompletionResult.WebSearchError result ≠ None).
Proof.
  cbv zeta. intros HC Hu. set (n := length (Client.searches cw)) in *.
  destruct (ClientMoreFacts.Complete_searched _ _ _ _ _ _ _ _ HC Hu)
    as (Herr & msg & tc & Hcalls).
  cbv zeta in Herr.
  pose proof (executor_is_Search env b n (Client.CompletionResult.WebSearchQuery result))
    as HS.
  destruct (executor env b n (Client.CompletionResult.WebSearchQuery result))
    as [text serr] eqn:Ex.
  simpl in Herr, Hcalls. subst serr.
  exists text, (Client.assistant_turn msg), (Client.tool_turn tc text).
  split; [exact HS|]. split; [exact Hcalls|]. split; [done|]. split; [done|].
  destruct (SearchFacts.Search_cases (tavily env n) (searchClient b)
              (Client.CompletionResult.WebSearchQuery result))
    as [(err & E) | (body & resp & results & _ & _ & _ & _ & E)];
    rewrite E in HS.
  - injection HS as <- Herr. rewrite <- Herr.
    split; [by destruct SearchFacts.fallbackMessage_head as [s ->]|done].
  - injection HS as <- Herr. rewrite <- Herr.
    assert (Hhead : ∃ s, match results with
                         | [] => "Aucune information récente trouvée sur le web."
                         | _ :: _ => Join (map Search.snippet (take 3 results)) Client.LF
                         end = String "A" s ∨
                         match results with
                         | [] => "Aucune information récente trouvée sur le web."
                         | _ :: _ => Join (map Search.snippet (take 3 results)) Client.LF
                         end = String "-" s).
    { destruct results as [|r0 rest]; [eexists; by left|].
      destruct (SearchFacts.Join_head (Search.snippet r0)
                  (map Search.snippet (take 2 rest)) Client.LF "-"
                  (" " +:+ Search.Title r0 +:+ ": " +:+ Search.Content r0) eq_refl)
        as [s' Hj].
      exists s'. right. exact Hj. }
    destruct Hhead as [s Hs].
    destruct SearchFacts.fallbackMessage_head as [s0 Hf]. rewrite Hf.
    split; [destruct Hs as [-> | ->]; discriminate|].
    split; [|done]. intros Heq. destruct Hs as [Hs|Hs]; rewrite Hs in Heq; discriminate Heq.
Qed.

Lemma model_is_told_of_a_failed_search_witness :
  let env := mkEnv demo_lib demo_session
               (ai (demo_env [Client.Response 200 "propose"; Client.Response 200 "answer"]))
               (fun _ => Search.refusing 429) in
  ∃ result cw',
    Client.Complete (ai env) (aiClient demo_bot) Demo.history [Client.SearchToolDef]
      (Some (executor env demo_bot 0)) Client.world0 = (inr result, cw')
    ∧ ∃ text proposal toolTurn,
        Search.Search (tavily env 0%nat) (searchClient demo_bot)
          (Client.CompletionResult.WebSearchQuery result)
        = Some (text, Client.CompletionResult.WebSearchError result)
        ∧ Client.calls cw'
          = Client.calls Client.world0
            ++ [(Demo.history, [Client.SearchToolDef]);
                (Demo.history ++ [proposal; toolTurn], [])]
        ∧ Client.Message.Role toolTurn = "tool"
        ∧ Client.Message.Content toolTurn = text
        ∧ text ≠ ""
        ∧ (text = Search.fallbackMessage
           ↔ Client.CompletionResult.WebSearchError result ≠ None).
Proof.
  cbv zeta. eexists _, _. split; [vm_compute; reflexivity|].
  apply (model_is_told_of_a_failed_search
           (mkEnv demo_lib demo_session
              (ai (demo_env [Client.Response 200 "propose"; Client.Response 200 "answer"]))
              (fun _ => Search.refusing 429)) demo_bot Demo.history [Client.SearchToolDef]
           Client.world0);
    vm_compute; reflexivity.
Defined.

(** One event, by what [Allow] says. *)
Lemma onMessageCreate_cases env b now m author w :
  Message.Author m = Some author ->
  0 < Limiter.limit (rateLimiter w) ->
  ∃ w',
    onMessageCreate env b now m w = Some (tt, w')
    ∧ Limiter.limit (rateLimiter w') = Limiter.limit (rateLimiter w)
    ∧ if addressed env m then
        let r := Limiter.Allow (rateLimiter w) now (User.ID author) in
        rateLimiter w' = r.2
        ∧ if LimiterRuns.is_admitted r.1 then
            (length (Client.calls (completions w))
             < length (Client.calls (completions w')))%nat
          else completions w' = completions w
      else w' = w.
Proof.
  intros HA Hlim. unfold addressed, onMessageCreate. rewrite HA.
  destruct (String.eqb_spec (User.ID author) (State_User_ID (session env)));
    [exists w; cbn [negb andb]; done|].
  cbn [negb andb]. destruct (isMentioned env m); [|by exists w].
  cbn [negb]. unfold bind at 1, allow. cbv zeta.
  pose proof (LimiterRunFacts.Allow_limit (rateLimiter w) now (User.ID author)) as HL.
  destruct (LimiterRunFacts.Allow_cases (rateLimiter w) now (User.ID author))
    as [[_ E] | [(v0 & rest & _ & _ & E) | (_ & ? & _)]]; [| |lia];
    rewrite E in HL |- *; cbn [negb fst snd LimiterRuns.is_admitted] in *.
  - match goal with |- context [handleAIResponse env b m ?w1] =>
      destruct (handleAIResponse_returns env b m author w1 HA)
        as (w' & content & Eh & Hr & Hc & _) end.
    cbv zeta in Hc. cbn [rateLimiter completions discord] in Hr, Hc.
    exists w'. split; [exact Eh|]. split; [by rewrite Hr|]. split; [done|].
    match type of Hc with _ = (Client.Complete ?e ?c ?ms ?ts ?f ?cw).2 =>
      destruct (ClientMoreFacts.Complete_calls e c ms ts f cw) as (rest' & Hcalls & _)
    end.
    rewrite Hc, Hcalls, length_app. simpl. lia.
  - match goal with |- context [replyToMessage env m ?c ?w1] =>
      destruct (replyToMessage_returns env m c w1) as (w' & Er & Hr & Hc & _) end.
    cbn [rateLimiter completions] in Hr, Hc.
    exists w'. split; [exact Er|]. split; [by rewrite Hr|]. done.
Qed.

Lemma served_admissions env b events w userID :
  Forall (fun e : Z * Message.t => Message.Author e.2 ≠ None) events ->
  0 < Limiter.limit (rateLimiter w) ->
  (∃ w', handle_all env b events w = Some w')
  ∧ served env b events w userID
    = LimiterRuns.admissions (rateLimiter w) (allow_calls env events) userID.
Proof.
  intros Hev. revert w. induction Hev as [|[now m] events HA _ IH]; intros w Hlim.
  { split; [by eexists|done]. }
  cbn [snd] in HA. destruct (Message.Author m) as [author|] eqn:EA; [|done].
  destruct (onMessageCreate_cases env b now m author w EA Hlim)
    as (w' & E & HL & Hcase).
  cbn [handle_all served allow_calls omap list_omap]. rewrite E.
  fold (allow_calls env events).
  destruct (IH w' ltac:(lia)) as [Hret Hserved].
  split; [exact Hret|]. rewrite Hserved. cbn [fst snd]. rewrite EA.
  destruct (addressed env m).
  - cbv zeta in Hcase. destruct Hcase as [Hr Hc].
    cbn [LimiterRuns.admissions]. cbv zeta. rewrite <- Hr. f_equal.
    destruct (decide (User.ID author = userID)) as [<-|Hne].
    + destruct (LimiterRuns.is_admitted
                  (Limiter.Allow (rateLimiter w) now (User.ID author)).1) eqn:Ea.
      * rewrite decide_True; [done|]. by split.
      * rewrite decide_False; [done|]. rewrite Hc. intros [_ ?]. lia.
    + rewrite decide_False; [done|]. intros [[= ?] _]. done.
  - subst w'. rewrite decide_False; [done|]. intros [_ ?]. lia.
Qed.

(** X26: the completions of a user are rate limited.  Take a bot as [New]
    makes it, and events handled one after the other, each message with
    an author, the clock readings of the calls of [Allow] never going
    back.  Then no handler panics, and for every user and every instant
    [T], the events of that user during which the completion client was
    called, with a clock reading in the minute that ends at [T], are at
    most five. *)
Theorem completions_are_rate_limited env b t0 events :
  Forall (fun e : Z * Message.t => Message.Author e.2 ≠ None) events ->
  LimiterRuns.ordered t0 (allow_calls env events) ->
  (∃ w', handle_all env b events world0 = Some w')
  ∧ ∀ userID T,
      (length (LimiterRuns.in_window (60 * 1000000000) T
                 (served env b events world0 userID)) <= 5)%nat.
Proof.
  intros Hev Ho.
  split; [by apply (served_admissions env b events world0 ""); [|done]|].
  intros userID T.
  destruct (served_admissions env b events world0 userID Hev) as [_ ->]; [done|].
  pose proof (LimiterRunFacts.window_bound 5 (60 * 1000000000) t0
                (allow_calls env events) userID T Ho) as H.
  change (rateLimiter world0) with (Limiter.NewRateLimiter 5 (60 * 1000000000)).
  lia.
Qed.

Lemma completions_are_rate_limited_witness :
  let env := demo_env [] in
  let events := [(1, mention); (2, mention); (3, mention); (4, mention);
                 (5, mention); (6, mention); (7, mention)] in
  served env demo_bot events world0 "42" = [1; 2; 3; 4; 5]
  ∧ (∃ w', handle_all env demo_bot events world0 = Some w')
  ∧ ∀ userID T,
      (length (LimiterRuns.in_window (60 * 1000000000) T
                 (served env demo_bot events world0 userID)) <= 5)%nat.
Proof.
  cbv zeta. split; [vm_compute; reflexivity|].
  apply (completions_are_rate_limited (demo_env []) demo_bot 0).
  - repeat constructor; discriminate.
  - vm_compute. repeat split; discriminate.
Defined.

(** X27: what a message costs.  With a limiter whose limit is at least
    1, the handler of a message sends at most two requests to the
    completion service and runs at most one search; it sends no request
    and runs no search when the message is not for the bot, or when
    [Allow] denies its author. *)
Theorem a_message_costs_two_requests env b now m author w :
  Message.Author m = Some author ->
  0 < Limiter.limit (rateLimiter w) ->
  ∃ w' reqs queries,
    onMessageCreate env b now m w = Some (tt, w')
    ∧ Client.sent (completions w') = Client.sent (completions w) ++ reqs
    ∧ (length reqs <= 2)%nat
    ∧ Client.searches (completions w') = Client.searches (completions w) ++ queries
    ∧ (length queries <= 1)%nat
    ∧ (addressed env m = false
       ∨ LimiterRuns.is_admitted
           (Limiter.Allow (rateLimiter w) now (User.ID author)).1 = false ->
       reqs = [] ∧ queries = []).
Proof.
  intros HA Hlim. unfold addressed, onMessageCreate. rewrite HA.
  assert (Hnone : ∀ P : Prop, ∃ w' reqs queries,
            Some (tt, w) = Some (tt, w')
            ∧ Client.sent (completions w') = Client.sent (completions w) ++ reqs
            ∧ (length reqs <= 2)%nat
            ∧ Client.searches (completions w')
              = Client.searches (completions w) ++ queries
            ∧ (length queries <= 1)%nat
            ∧ (P -> reqs = [] ∧ queries = [])).
  { intros P. exists w, [], []. rewrite !app_nil_r. simpl.
    split; [done|]. split; [done|]. split; [lia|]. split; [done|]. split; [lia|done]. }
  destruct (String.eqb_spec (User.ID author) (State_User_ID (session env)));
    [apply Hnone|].
  cbn [negb andb]. destruct (isMentioned env m); [|apply Hnone].
  clear Hnone. cbn [negb]. unfold bind at 1, allow.
  destruct (LimiterRunFacts.Allow_cases (rateLimiter w) now (User.ID author))
    as [[_ E] | [(v0 & rest & _ & _ & E) | (_ & ? & _)]]; [| |lia];
    rewrite E; cbn [negb fst snd LimiterRuns.is_admitted].
  - match goal with |- context [handleAIResponse env b m ?w1] =>
      destruct (handleAIResponse_returns env b m author w1 HA)
        as (w' & content & Eh & _ & Hc & _) end.
    cbv zeta in Hc. cbn [rateLimiter completions discord] in Hc.
    match type of Hc with _ = (Client.Complete ?e ?c ?ms ?ts ?f ?cw).2 =>
      destruct (ClientMoreFacts.Complete_cost e c ms ts f cw)
        as (reqs & queries & Hs & Hl & Hq & Hlq)
    end.
    rewrite <- Hc in Hs, Hq.
    exists w', reqs, queries. split; [exact Eh|]. split; [exact Hs|].
    split; [exact Hl|]. split; [exact Hq|]. split; [exact Hlq|].
    by intros [?|?].
  - match goal with |- context [replyToMessage env m ?c ?w1] =>
      destruct (replyToMessage_returns env m c w1) as (w' & Er & _ & Hc & _) end.
    cbn [completions] in Hc.
    exists w', [], []. rewrite Hc, !app_nil_r. simpl.
    split; [exact Er|]. split; [done|]. split; [lia|]. split; [done|]. split; [lia|done].
Qed.

Lemma a_message_costs_two_requests_witness :
  let env := mkEnv demo_lib demo_session
               (ai (demo_env [Client.Response 200 "propose"; Client.Response 200 "answer"]))
               (fun _ => Search.answering Search.four_results) in
  ∃ w',
    onMessageCreate env demo_bot 0 mention world0 = Some (tt, w')
    ∧ length (Client.sent (completions w')) = 2%nat
    ∧ Client.searches (completions w') = ["x"].
Proof.
  cbv zeta.
  destruct (a_message_costs_two_requests
              (mkEnv demo_lib demo_session
                 (ai (demo_env [Client.Response 200 "propose";
                                Client.Response 200 "answer"]))
                 (fun _ => Search.answering Search.four_results))
              demo_bot 0 mention bob world0 eq_refl eq_refl)
    as (w' & reqs & queries & E & _).
  exists w'. split; [exact E|].
  vm_compute in E. injection E as <-. split; reflexivity.
Defined.

(** X28: the configuration reaches the requests.  Take the bot that [New]
    makes of the configuration that [Load] returned.  Whatever message
    its handler is given, every request it sends to the completion
    service is a POST to the value of DEEPSEEK_URL, authorized by the
    value of DEEPSEEK_API_KEY as bearer, for the model named by
    DEEPSEEK_MODEL; its search client holds the value of TAVILY_API_KEY;
    none of these values is empty; and its limiter allows 5 requests per
    minute. *)
Theorem configuration_reaches_the_requests
    godotenv_Load discordgo_New environ cfg b w0 env now m author w :
  (Config.Load godotenv_Load environ).1 = inr cfg ->
  New discordgo_New cfg = inr (b, w0) ->
  Message.Author m = Some author ->
  0 < Limiter.limit (rateLimiter w) ->
  let value := Config.Getenv (godotenv_Load environ) in
  Forall (fun v => v ≠ "")
    [value "DEEPSEEK_URL"; value "DEEPSEEK_API_KEY"; value "DEEPSEEK_MODEL";
     value "TAVILY_API_KEY"]
  ∧ Search.apiKey (searchClient b) = value "TAVILY_API_KEY"
  ∧ rateLimiter w0 = Limiter.NewRateLimiter 5 (60 * 1000000000)
  ∧ ∃ w' reqs,
      onMessageCreate env b now m w = Some (tt, w')
      ∧ Client.sent (completions w') = Client.sent (completions w) ++ reqs
      ∧ Forall (fun req =>
                  Client.Method req = "POST"
                  ∧ Client.URL req = value "DEEPSEEK_URL"
                  ∧ Client.Header req
                    = [("Content-Type", "application/json");
                       ("Authorization", "Bearer " +:+ value "DEEPSEEK_API_KEY")]
                  ∧ ∃ messages tools,
                      Client.json_Marshal (ai env)
                        (Client.chatRequest.mk (value "DEEPSEEK_MODEL") messages tools
                           (2 # 10)%Q)
                      = inr (Client.reqBody req)) reqs.
Proof.
  intros HLoad HNew HA Hlim. cbv zeta.
  pose proof (ConfigFacts.Load_fields godotenv_Load environ cfg HLoad)
    as (Hfields & Hne).
  unfold Config.fields, Config.variables in Hfields, Hne. simpl in Hfields.
  injection Hfields as Hd Hk Ht Hu Hmo.
  apply Forall_cons in Hne as [_ Hne]. apply Forall_cons in Hne as [Hnk Hne].
  apply Forall_cons in Hne as [Hnt Hne]. apply Forall_cons in Hne as [Hnu Hne].
  apply Forall_cons in Hne as [Hnm _].
  unfold New in HNew. destruct (discordgo_New _); [done|].
  injection HNew as <- <-. cbn [searchClient aiClient Search.NewClient Search.apiKey].
  rewrite <- Hk, <- Ht, <- Hu, <- Hmo.
  split; [by repeat constructor|]. split; [done|]. split; [done|].
  set (c := NewClient (Config.DeepSeekKey cfg) (Config.DeepSeekURL cfg)
              (Config.DeepSeekModel cfg)).
  set (b := mkBot c (Search.NewClient (Config.TavilyKey cfg))).
  assert (Hwf : ∀ reqs, Forall (ClientNotions.request_by (ai env) c) reqs ->
            Forall (fun req =>
                  Client.Method req = "POST"
                  ∧ Client.URL req = Config.DeepSeekURL cfg
                  ∧ Client.Header req
                    = [("Content-Type", "application/json");
                       ("Authorization", "Bearer " +:+ Config.DeepSeekKey cfg)]
                  ∧ ∃ messages tools,
                      Client.json_Marshal (ai env)
                        (Client.chatRequest.mk (Config.DeepSeekModel cfg) messages tools
                           (2 # 10)%Q)
                      = inr (Client.reqBody req)) reqs).
  { intros reqs H. eapply Forall_impl; [exact H|].
    intros req (messages & tools & body & Hm & ->).
    split; [done|]. split; [done|]. split; [done|]. by exists messages, tools. }
  unfold onMessageCreate. rewrite HA.
  destruct (String.eqb_spec (User.ID author) (State_User_ID (session env))).
  { exists w, []. rewrite app_nil_r. by split; [|split]. }
  destruct (isMentioned env m); cbn [negb].
  2: { exists w, []. rewrite app_nil_r. by split; [|split]. }
  unfold bind at 1, allow.
  destruct (LimiterRunFacts.Allow_cases (rateLimiter w) now (User.ID author))
    as [[_ E] | [(v0 & rest & _ & _ & E) | (_ & ? & _)]]; [| |lia];
    rewrite E; cbn [negb fst snd].
  - match goal with |- context [handleAIResponse env b m ?w1] =>
      destruct (handleAIResponse_returns env b m author w1 HA)
        as (w' & content & Eh & _ & Hc & _) end.
    cbv zeta in Hc. cbn [rateLimiter completions discord] in Hc.
    match type of Hc with _ = (Client.Complete ?e ?c' ?ms ?ts ?f ?cw).2 =>
      destruct (ClientMoreFacts.Complete_requests e c' ms ts f cw)
        as (reqs & Hs & _ & _ & Hby)
    end.
    rewrite <- Hc in Hs.
    exists w', reqs. split; [exact Eh|]. split; [exact Hs|].
    apply Hwf. eapply Forall_impl; [exact Hby|]. by intros req [? _].
  - match goal with |- context [replyToMessage env m ?c ?w1] =>
      destruct (replyToMessage_returns env m c w1) as (w' & Er & _ & Hc & _) end.
    cbn [completions] in Hc.
    exists w', []. rewrite Hc, app_nil_r. by split; [|split].
Qed.

Lemma configuration_reaches_the_requests_witness :
  let environ : gmap string string :=
    list_to_map [("DISCORD_TOKEN", "token"); ("DEEPSEEK_API_KEY", "sk-test");
                 ("TAVILY_API_KEY", "tvly-test");
                 ("DEEPSEEK_URL", "https://api.deepseek.com/chat/completions");
                 ("DEEPSEEK_MODEL", "deepseek-chat")] in
  let cfg := Config.mkConfig "token" "sk-test" "tvly-test"
               "https://api.deepseek.com/chat/completions" "deepseek-chat" in
  (Config.Load id environ).1 = inr cfg
  ∧ New (fun _ => None) cfg = inr (demo_bot, world0)
  ∧ ∃ w' reqs,
      onMessageCreate (demo_env [Client.Response 200 "answer"]) demo_bot 0 mention world0
      = Some (tt, w')
      ∧ Client.sent (completions w') = reqs
      ∧ Forall (fun req =>
                  Client.URL req = "https://api.deepseek.com/chat/completions"
                  ∧ Client.Header req
                    = [("Content-Type", "application/json");
                       ("Authorization", "Bearer sk-test")]) reqs.
Proof.
  cbv zeta.
  assert (HL : (Config.Load id
                  (list_to_map [("DISCORD_TOKEN", "token"); ("DEEPSEEK_API_KEY", "sk-test");
                     ("TAVILY_API_KEY", "tvly-test");
                     ("DEEPSEEK_URL", "https://api.deepseek.com/chat/completions");
                     ("DEEPSEEK_MODEL", "deepseek-chat")])).1
               = inr (Config.mkConfig "token" "sk-test" "tvly-test"
                        "https://api.deepseek.com/chat/completions" "deepseek-chat")).
  { vm_compute. reflexivity. }
  split; [exact HL|]. split; [reflexivity|].
  destruct (configuration_reaches_the_requests id (fun _ => None) _ _ demo_bot world0
              (demo_env [Client.Response 200 "answer"]) 0 mention bob world0
              HL eq_refl eq_refl eq_refl)
    as (_ & _ & _ & w' & reqs & E & Hs & Hreqs).
  exists w', reqs. split; [exact E|]. split; [exact Hs|].
  eapply Forall_impl; [exact Hreqs|].
  intros req (_ & Hu & Hh & _). split; [rewrite Hu|rewrite Hh]; vm_compute; reflexivity.
Defined.

End BotFacts.
